(** * Memory-aware LRU cache decorator ([lru_cache.py])

    A shallow embedding of [_make_key] and of the four wrappers built by
    [lru_cache], with the circular doubly linked list of links kept in an
    explicit store of mutable objects, followed by the properties of the
    cache that are proved about it. *)

From stdpp Require Import gmap strings list sorting.
From Stdlib Require Import ZArith Lia.

Local Open Scope Z_scope.

(** ** Python objects *)

(** The classes of the objects below, as returned by [type(v)]. *)
Inductive pytype :=
| T_NoneType | T_int | T_float | T_str | T_frozenset
| T_tuple | T_list | T_type | T_object | T_HashedSeq.

#[global] Instance pytype_eq_dec : EqDecision pytype.
Proof. solve_decision. Defined.

Scheme All for list.

(** The objects a call can mention.  [VFloat m e] is the finite float
    [m / 2^e]; [VObject i] is the plain object created by the [i]-th
    evaluation of [object()]; [VHashedSeq] is an instance of [_HashedSeq]
    (a list subclass that carries the hash of the tuple it was built
    from). *)
Inductive value :=
| VNone
| VInt (n : Z)
| VFloat (m : Z) (e : N)
| VStr (s : string)
| VTuple (vs : list value)
| VList (vs : list value)
| VType (t : pytype)
| VObject (i : nat)
| VHashedSeq (vs : list value).

Definition py_type (v : value) : pytype :=
  match v with
  | VNone => T_NoneType
  | VInt _ => T_int
  | VFloat _ _ => T_float
  | VStr _ => T_str
  | VTuple _ => T_tuple
  | VList _ => T_list
  | VType _ => T_type
  | VObject _ => T_object
  | VHashedSeq _ => T_HashedSeq
  end.

(** Element-wise comparison of two sequences. *)
Definition seq_eq {A} (eq : A → A → bool) : list A → list A → bool :=
  fix go xs ys :=
    match xs, ys with
    | [], [] => true
    | x :: xs', y :: ys' => eq x y && go xs' ys'
    | _, _ => false
    end.

(** [a == b].  Numbers compare by their exact value across [int] and
    [float]; a [_HashedSeq] inherits [list.__eq__]; types and plain objects
    compare by identity. *)
Fixpoint py_eq (a b : value) {struct a} : bool :=
  match a, b with
  | VNone, VNone => true
  | VInt x, VInt y => x =? y
  | VInt x, VFloat m e => x * 2 ^ Z.of_N e =? m
  | VFloat m e, VInt y => m =? y * 2 ^ Z.of_N e
  | VFloat m1 e1, VFloat m2 e2 => m1 * 2 ^ Z.of_N e2 =? m2 * 2 ^ Z.of_N e1
  | VStr s, VStr t => String.eqb s t
  | VTuple xs, VTuple ys => seq_eq py_eq xs ys
  | VList xs, VList ys => seq_eq py_eq xs ys
  | VList xs, VHashedSeq ys => seq_eq py_eq xs ys
  | VHashedSeq xs, VList ys => seq_eq py_eq xs ys
  | VHashedSeq xs, VHashedSeq ys => seq_eq py_eq xs ys
  | VType s, VType t => bool_decide (s = t)
  | VObject i, VObject j => Nat.eqb i j
  | _, _ => false
  end.

(** Whether [hash(v)] returns; it raises [TypeError] otherwise.  A list is
    unhashable, a tuple hashes its items, and [_HashedSeq] defines
    [__hash__] as the stored [hashvalue]. *)
Fixpoint hashable (v : value) : bool :=
  match v with
  | VList _ => false
  | VTuple vs => forallb hashable vs
  | _ => true
  end.

(** ** Exceptions and outcomes *)

Inductive exn :=
| TypeError
| KeyError
| Exn (name : string).

Inductive outcome (A : Type) :=
| Return (a : A)
| Raise (e : exn).
Arguments Return {A} a.
Arguments Raise {A} e.

(** ** [_HashedSeq] and [_make_key] *)

(** [_HashedSeq(tup)]: copies the items and computes [hash(tup)] once. *)
Definition _HashedSeq (tup : list value) : outcome value :=
  if forallb hashable tup then Return (VHashedSeq tup) else Raise TypeError.

(** The default arguments of [_make_key]. *)
Definition kwd_mark : list value := [VObject 0].
Definition fasttypes : list pytype := [T_int; T_str; T_frozenset; T_NoneType].

(** [sorted(kwds.items())]: the names of a keyword dictionary are distinct
    strings, so the items are ordered by name. *)
Fixpoint insert_item (x : string * value) (l : list (string * value)) :
    list (string * value) :=
  match l with
  | [] => [x]
  | y :: l' => if String.leb x.1 y.1 then x :: l else y :: insert_item x l'
  end.

Definition sorted (items : list (string * value)) : list (string * value) :=
  foldr insert_item [] items.

Definition _make_key (args : list value) (kwds : list (string * value))
    (typed : bool) : outcome value :=
  let key := args in
  let sorted_items := sorted kwds in
  let key :=
    match kwds with
    | [] => key
    | _ => fold_left (λ key item, key ++ [VStr item.1; item.2])
                     sorted_items (key ++ kwd_mark)
    end in
  if typed then
    let key := key ++ map (λ v, VType (py_type v)) args in
    let key :=
      match kwds with
      | [] => key
      | _ => key ++ map (λ item, VType (py_type item.2)) sorted_items
      end in
    _HashedSeq key
  else
    match key with
    | [k0] =>
        if bool_decide (py_type k0 ∈ fasttypes) then Return k0
        else _HashedSeq key
    | _ => _HashedSeq key
    end.

(** ** The store of links and the state of a decorated function *)

Abbreviation addr := nat.

(** A link is the four-item list [[PREV, NEXT, KEY, RESULT]]. *)
Record link := Link { PREV : addr; NEXT : addr; KEY : value; RESULT : value }.

#[global] Instance link_inhabited : Inhabited link :=
  populate (Link 0%nat 0%nat VNone VNone).

(** The variables closed over by [wrapper], [cache_info] and [cache_clear].
    [heap] holds the link objects and [root] is the address bound to the
    variable [root].  The dictionary [cache] maps a key to [P]: the address
    of a link in the size-limited wrappers, the result itself in the
    unbounded one. *)
Record state (P : Type) := State {
  cache : list (value * P);
  heap : gmap nat link;
  root : addr;
  hits : nat;
  misses : nat;
  full : bool
}.
Arguments State {P} _ _ _ _ _ _.
Arguments cache {P} _.
Arguments heap {P} _.
Arguments root {P} _.
Arguments hits {P} _.
Arguments misses {P} _.
Arguments full {P} _.

(** *** Dictionary operations, keys compared with [==] *)

Fixpoint dict_get {V} (d : list (value * V)) (k : value) : option V :=
  match d with
  | [] => None
  | (k', v) :: d' => if py_eq k' k then Some v else dict_get d' k
  end.

(** [k in d] *)
Definition dict_contains {V} (d : list (value * V)) (k : value) : bool :=
  match dict_get d k with Some _ => true | None => false end.

(** [d[k] = v] *)
Fixpoint dict_set {V} (d : list (value * V)) (k : value) (v : V) :
    list (value * V) :=
  match d with
  | [] => [(k, v)]
  | (k', v') :: d' =>
      if py_eq k' k then (k', v) :: d' else (k', v') :: dict_set d' k v
  end.

(** [del d[k]]; [None] stands for [KeyError]. *)
Fixpoint dict_del {V} (d : list (value * V)) (k : value) :
    option (list (value * V)) :=
  match d with
  | [] => None
  | (k', v') :: d' =>
      if py_eq k' k then Some d'
      else match dict_del d' k with
           | Some d'' => Some ((k', v') :: d'')
           | None => None
           end
  end.

(** *** Item assignment on links *)

Definition set_PREV (h : gmap nat link) (a : addr) (p : addr) : gmap nat link :=
  let l := h !!! a in <[a := Link p (NEXT l) (KEY l) (RESULT l)]> h.
Definition set_NEXT (h : gmap nat link) (a : addr) (n : addr) : gmap nat link :=
  let l := h !!! a in <[a := Link (PREV l) n (KEY l) (RESULT l)]> h.
Definition set_KEY (h : gmap nat link) (a : addr) (k : value) : gmap nat link :=
  let l := h !!! a in <[a := Link (PREV l) (NEXT l) k (RESULT l)]> h.
Definition set_RESULT (h : gmap nat link) (a : addr) (r : value) : gmap nat link :=
  let l := h !!! a in <[a := Link (PREV l) (NEXT l) (KEY l) r]> h.

(** Address of a newly created list object. *)
Definition new_addr (h : gmap nat link) : addr := fresh (dom h).

(** ** The wrappers *)

(** One call of [wrapper] with positional arguments [c_args] and keyword
    arguments [c_kwds].  [c_probe] is what
    [psutil.virtual_memory().available] evaluates to if the call reaches
    it: a number of bytes, or an exception. *)
Record call := Call {
  c_args : list value;
  c_kwds : list (string * value);
  c_probe : outcome Z
}.

(** Result of the first [with lock] block of a size-limited wrapper. *)
Inductive looked :=
| Hit (result : value) (st : state addr)
| Miss.

(** A step that may raise, with the state it leaves behind. *)
Abbreviation stepped P := (outcome value * state P)%type.

Definition count_hit {P} (st : state P) : state P :=
  State (cache st) (heap st) (root st) (S (hits st)) (misses st) (full st).
Definition count_miss {P} (st : state P) : state P :=
  State (cache st) (heap st) (root st) (hits st) (S (misses st)) (full st).
Definition with_heap {P} (st : state P) (h : gmap nat link) : state P :=
  State (cache st) h (root st) (hits st) (misses st) (full st).
Definition with_full {P} (st : state P) (b : bool) : state P :=
  State (cache st) (heap st) (root st) (hits st) (misses st) b.

(** "Move the link to the front of the circular queue" (lines 121-127 and
    203-209). *)
Definition move_to_front (h : gmap nat link) (root link_ : addr) :
    gmap nat link :=
  let link_prev := PREV (h !!! link_) in
  let link_next := NEXT (h !!! link_) in
  let h := set_NEXT h link_prev link_next in
  let h := set_PREV h link_next link_prev in
  let last := PREV (h !!! root) in
  let h := set_NEXT h last link_ in
  let h := set_PREV h root link_ in
  let h := set_PREV h link_ last in
  set_NEXT h link_ root.

(** First [with lock] block (lines 117-129 and 199-211). *)
Definition lookup (st : state addr) (key : value) : looked :=
  match dict_get (cache st) key with
  | Some link_ =>
      let result := RESULT (heap st !!! link_) in
      Hit result
          (count_hit (with_heap st (move_to_front (heap st) (root st) link_)))
  | None => Miss
  end.

(** "Use the old root to store the new key and result" ... "Now update the
    cache dictionary" (lines 140-158 and 222-240).  [del cache[oldkey]]
    raises [KeyError] when [oldkey] is not a key of [cache]. *)
Definition evict (st : state addr) (key result : value) :
    outcome unit * state addr :=
  let oldroot := root st in
  let h := set_KEY (heap st) oldroot key in
  let h := set_RESULT h oldroot result in
  let root' := NEXT (h !!! oldroot) in
  let oldkey := KEY (h !!! root') in
  let h := set_KEY h root' VNone in
  let h := set_RESULT h root' VNone in
  match dict_del (cache st) oldkey with
  | None =>
      (Raise KeyError,
       State (cache st) h root' (hits st) (misses st) (full st))
  | Some cache' =>
      (Return (),
       State (dict_set cache' key oldroot) h root'
             (hits st) (misses st) (full st))
  end.

(** "Put result in a new link at the front of the queue" (lines 161-163 and
    243-245). *)
Definition insert (st : state addr) (key result : value) : state addr :=
  let h := heap st in
  let last := PREV (h !!! root st) in
  let link_ := new_addr h in
  let h := <[link_ := Link last (root st) key result]> h in
  let h := set_NEXT h last link_ in
  let h := set_PREV h (root st) link_ in
  State (dict_set (cache st) key link_) h (root st)
        (hits st) (misses st) (full st).

Section wrappers.
(** The decorated function: what it returns or raises on given
    arguments. *)
Variable user_function : list value → list (string * value) → outcome value.

(** *** [use_memory_up_to] set (lines 113-167) *)

(** Second [with lock] block (lines 131-167). *)
Definition store_memory (use_memory_up_to : Z) (probe : outcome Z)
    (st : state addr) (key result : value) : stepped addr :=
  if dict_contains (cache st) key then
    (Return result, count_miss st)
  else if full st then
    match evict st key result with
    | (Raise e, st') => (Raise e, st')
    | (Return _, st') => (Return result, count_miss st')
    end
  else
    let st' := insert st key result in
    match probe with
    | Raise e => (Raise e, st')
    | Return available =>
        (Return result,
         count_miss (with_full st' (available <? use_memory_up_to)))
    end.

Definition wrapper_memory (use_memory_up_to : Z) (typed : bool)
    (st : state addr) (c : call) : stepped addr :=
  match _make_key (c_args c) (c_kwds c) typed with
  | Raise e => (Raise e, st)
  | Return key =>
      match lookup st key with
      | Hit result st' => (Return result, st')
      | Miss =>
          match user_function (c_args c) (c_kwds c) with
          | Raise e => (Raise e, st)
          | Return result =>
              store_memory use_memory_up_to (c_probe c) st key result
          end
      end
  end.

(** *** [maxsize == 0] (lines 171-176) *)

Definition wrapper_nocache {P} (st : state P) (c : call) : stepped P :=
  match user_function (c_args c) (c_kwds c) with
  | Raise e => (Raise e, st)
  | Return result => (Return result, count_miss st)
  end.

(** *** [maxsize is None] (lines 180-191) *)

Definition wrapper_unbounded (typed : bool) (st : state value) (c : call) :
    stepped value :=
  match _make_key (c_args c) (c_kwds c) typed with
  | Raise e => (Raise e, st)
  | Return key =>
      match dict_get (cache st) key with
      | Some result => (Return result, count_hit st)
      | None =>
          match user_function (c_args c) (c_kwds c) with
          | Raise e => (Raise e, st)
          | Return result =>
              (Return result,
               count_miss
                 (State (dict_set (cache st) key result) (heap st)
                        (root st) (hits st) (misses st) (full st)))
          end
      end
  end.

(** *** Otherwise (lines 195-248) *)

(** Second [with lock] block (lines 213-248). *)
Definition store_fixed (maxsize : Z) (st : state addr)
    (key result : value) : stepped addr :=
  if dict_contains (cache st) key then
    (Return result, count_miss st)
  else if full st then
    match evict st key result with
    | (Raise e, st') => (Raise e, st')
    | (Return _, st') => (Return result, count_miss st')
    end
  else
    let st' := insert st key result in
    (Return result,
     count_miss
       (with_full st' (bool_decide (Z.of_nat (length (cache st')) >= maxsize)))).

Definition wrapper_fixed (maxsize : Z) (typed : bool)
    (st : state addr) (c : call) : stepped addr :=
  match _make_key (c_args c) (c_kwds c) typed with
  | Raise e => (Raise e, st)
  | Return key =>
      match lookup st key with
      | Hit result st' => (Return result, st')
      | Miss =>
          match user_function (c_args c) (c_kwds c) with
          | Raise e => (Raise e, st)
          | Return result => store_fixed maxsize st key result
          end
      end
  end.

(** *** [cache_clear] *)

(** [cache.clear()], [root[:] = [root, root, None, None]],
    [hits = misses = 0], [full = False] (lines 259-262). *)
Definition cache_clear {P} (st : state P) : state P :=
  State [] (<[root st := Link (root st) (root st) VNone VNone]> (heap st))
        (root st) 0%nat 0%nat false.

(** *** [lru_cache(maxsize, typed, use_memory_up_to)(user_function)] *)

(** The arguments of [lru_cache]; [use_memory_up_to=False] is [0]. *)
Record config := Config {
  maxsize : option Z;
  typed : bool;
  use_memory_up_to : Z
}.

(** A decorated function: the wrapper that was selected, the constants
    it closes over, and its state. *)
Inductive decorated :=
| Memory (use_memory_up_to : Z) (typed : bool) (st : state addr)
| NoCache (st : state addr)
| Unbounded (typed : bool) (st : state value)
| Fixed (maxsize : Z) (typed : bool) (st : state addr).

(** [cache = {}], [hits = misses = 0], [full = False], [root = []],
    [root[:] = [root, root, None, None]] (lines 103-109). *)
Definition fresh_state {P} : state P :=
  let root := new_addr ∅ in
  State [] {[ root := Link root root VNone VNone ]} root 0%nat 0%nat false.

Definition decorating_function (cfg : config) : decorated :=
  if bool_decide (use_memory_up_to cfg ≠ 0) then
    Memory (use_memory_up_to cfg) (typed cfg) fresh_state
  else
    match maxsize cfg with
    | Some 0 => NoCache fresh_state
    | None => Unbounded (typed cfg) fresh_state
    | Some n => Fixed n (typed cfg) fresh_state
    end.

Definition wrapper (d : decorated) (c : call) : outcome value * decorated :=
  match d with
  | Memory m t st =>
      let '(o, st') := wrapper_memory m t st c in (o, Memory m t st')
  | NoCache st =>
      let '(o, st') := wrapper_nocache st c in (o, NoCache st')
  | Unbounded t st =>
      let '(o, st') := wrapper_unbounded t st c in (o, Unbounded t st')
  | Fixed n t st =>
      let '(o, st') := wrapper_fixed n t st c in (o, Fixed n t st')
  end.

Definition d_cache_clear (d : decorated) : decorated :=
  match d with
  | Memory m t st => Memory m t (cache_clear st)
  | NoCache st => NoCache (cache_clear st)
  | Unbounded t st => Unbounded t (cache_clear st)
  | Fixed n t st => Fixed n t (cache_clear st)
  end.

(** [_CacheInfo(hits, misses, maxsize, currsize)] *)
Record CacheInfo := _CacheInfo {
  ci_hits : nat;
  ci_misses : nat;
  ci_maxsize : option Z;
  ci_currsize : nat
}.

Definition cache_info (d : decorated) : CacheInfo :=
  match d with
  | Memory _ _ st => _CacheInfo (hits st) (misses st) None (length (cache st))
  | NoCache st => _CacheInfo (hits st) (misses st) (Some 0) (length (cache st))
  | Unbounded _ st => _CacheInfo (hits st) (misses st) None (length (cache st))
  | Fixed n _ st => _CacheInfo (hits st) (misses st) (Some n) (length (cache st))
  end.

(** *** Single-threaded use of a decorated function *)

Inductive op :=
| DoCall (c : call)
| DoClear.

Definition step (d : decorated) (o : op) : outcome value * decorated :=
  match o with
  | DoCall c => wrapper d c
  | DoClear => (Return VNone, d_cache_clear d)
  end.

(** The decorated function after [ops], and what each of them returned
    or raised. *)
Fixpoint run (d : decorated) (ops : list op) : list (outcome value) * decorated :=
  match ops with
  | [] => ([], d)
  | o :: ops' =>
      let '(r, d') := step d o in
      let '(rs, d'') := run d' ops' in
      (r :: rs, d'')
  end.
End wrappers.

(** ** Observing the circular list *)

(** The links met by following [NEXT] from [cur] until [stop] is reached,
    giving up after [fuel] links. *)
Fixpoint walk (h : gmap nat link) (stop : addr) (fuel : nat) (cur : addr) :
    list addr :=
  match fuel with
  | O => []
  | S fuel' =>
      if bool_decide (cur = stop) then []
      else cur :: walk h stop fuel' (NEXT (h !!! cur))
  end.

(** The links from [root[NEXT]] (least recently used) round to the root;
    the store holds [size (heap st)] links, so this is enough fuel to meet
    every one of them. *)
Definition ring_links {P} (st : state P) : list addr :=
  walk (heap st) (root st) (size (heap st)) (NEXT (heap st !!! root st)).

Definition ring_keys {P} (st : state P) : list value :=
  map (λ a, KEY (heap st !!! a)) (ring_links st).

(** The keys of the dictionary. *)
Definition cache_keys {P} (st : state P) : list value := map fst (cache st).

(** ** Well-formed states *)

(** [chain h p l q]: following [NEXT] from [p] goes through the links [l]
    and then reaches [q], and [PREV] leads back the same way. *)
Fixpoint chain (h : gmap nat link) (p : addr) (l : list addr) (q : addr) : Prop :=
  match l with
  | [] => NEXT (h !!! p) = q ∧ PREV (h !!! q) = p
  | a :: l' => NEXT (h !!! p) = a ∧ PREV (h !!! a) = p ∧ chain h a l' q
  end.

(** The links [ls], in this order, and the root [r] form a circular doubly
    linked list of distinct objects of the store. *)
Definition ring (h : gmap nat link) (r : addr) (ls : list addr) : Prop :=
  chain h r ls r ∧ NoDup (r :: ls) ∧ ∀ a, a ∈ r :: ls → a ∈ dom h.

(** No two keys are equal under [==]. *)
Fixpoint distinct (ks : list value) : Prop :=
  match ks with
  | [] => True
  | k :: ks' => Forall (λ k', py_eq k k' = false) ks' ∧ distinct ks'
  end.

(** The entry of the dictionary for the link at [a]. *)
Definition entry (h : gmap nat link) (a : addr) : value * addr :=
  (KEY (h !!! a), a).

(** A state of a size-limited wrapper whose circular list holds the links
    [ls], least recently used first: the dictionary has exactly one entry
    per link, under the key stored in the link. *)
Record wf (st : state addr) (ls : list addr) : Prop := Wf {
  wf_ring : ring (heap st) (root st) ls;
  wf_cache : cache st ≡ₚ map (entry (heap st)) ls;
  wf_distinct : distinct (map fst (cache st));
  wf_full : full st = true → ls ≠ []
}.

(** The state of a decorated function whose wrapper uses the circular
    list is well formed. *)
Definition d_wf (d : decorated) : Prop :=
  match d with
  | Memory _ _ st | NoCache st | Fixed _ _ st => ∃ ls, wf st ls
  | Unbounded _ _ => True
  end.

(** The wrapper selected by [decorating_function]. *)
Inductive policy := MemoryPressure | Disabled | NoLimit | FixedCapacity.

Definition policy_of (d : decorated) : policy :=
  match d with
  | Memory _ _ _ => MemoryPressure
  | NoCache _ => Disabled
  | Unbounded _ _ => NoLimit
  | Fixed _ _ _ => FixedCapacity
  end.

(** The circular list and the dictionary describe the same store: the
    keys met from [root[NEXT]] round to the root are the keys of the
    dictionary, as many times; the walk ends on [root[PREV]]; and the root
    is linked to itself exactly when the dictionary is empty. *)
Definition list_matches_map {P} (st : state P) : Prop :=
  ring_keys st ≡ₚ cache_keys st ∧
  List.last (ring_links st) (root st) = PREV (heap st !!! root st) ∧
  (NEXT (heap st !!! root st) = root st ∧ PREV (heap st !!! root st) = root st
   ↔ cache st = []).

Definition d_list_matches_map (d : decorated) : Prop :=
  match d with
  | Memory _ _ st | NoCache st | Fixed _ _ st => list_matches_map st
  | Unbounded _ st => list_matches_map st
  end.

(** A function that returns the tuple of its positional arguments, and a
    call [f(n)] on an integer; used in examples. *)
Definition echo (args : list value) (kwds : list (string * value)) :
    outcome value :=
  Return (VTuple args).

Definition f (n : Z) : op := DoCall (Call [VInt n] [] (Return 0)).

(** Whether a call is a miss: the wrapper builds a key (the [maxsize == 0]
    wrapper builds none) that is not in the dictionary. *)
Definition d_contains (d : decorated) (key : value) : bool :=
  match d with
  | Memory _ _ st | NoCache st | Fixed _ _ st => dict_contains (cache st) key
  | Unbounded _ st => dict_contains (cache st) key
  end.

Definition is_miss (d : decorated) (c : call) : bool :=
  match d with
  | NoCache _ => true
  | Memory _ t _ | Unbounded t _ | Fixed _ t _ =>
      match _make_key (c_args c) (c_kwds c) t with
      | Return key => negb (d_contains d key)
      | Raise _ => false
      end
  end.

(** The values passed to a call, positional and keyword. *)
Definition arguments (c : call) : list value := c_args c ++ map snd (c_kwds c).

(** A function that raises on every call; used in examples. *)
Definition failing (args : list value) (kwds : list (string * value)) :
    outcome value :=
  Raise (Exn "ValueError").

(** The result stored for [key] is [v]. *)
Definition d_cached (d : decorated) (key v : value) : Prop :=
  match d with
  | Memory _ _ st | Fixed _ _ st =>
      ∃ a, dict_get (cache st) key = Some a ∧ RESULT (heap st !!! a) = v
  | Unbounded _ st => dict_get (cache st) key = Some v
  | NoCache _ => False
  end.

(** The key a wrapper builds for a call, when it builds one. *)
Definition d_key (d : decorated) (c : call) : option (outcome value) :=
  match d with
  | NoCache _ => None
  | Memory _ t _ | Unbounded t _ | Fixed _ t _ =>
      Some (_make_key (c_args c) (c_kwds c) t)
  end.


#[global] Instance policy_eq_dec : EqDecision policy.
Proof. solve_decision. Defined.

(** Observations on a decorated function: the keys of the circular list,
    least recently used first; the number of link objects in the store;
    the flag [full]. *)
Definition d_ring_keys (d : decorated) : list value :=
  match d with
  | Memory _ _ st | NoCache st | Fixed _ _ st => ring_keys st
  | Unbounded _ st => ring_keys st
  end.


Definition d_full (d : decorated) : bool :=
  match d with
  | Memory _ _ st | NoCache st | Fixed _ _ st => full st
  | Unbounded _ st => full st
  end.



(** ** Recency *)

(** The key that an operation looks up, when it builds one. *)
Definition accessed_key (typed : bool) (o : op) : option value :=
  match o with
  | DoCall c =>
      match _make_key (c_args c) (c_kwds c) typed with
      | Return key => Some key
      | Raise _ => None
      end
  | DoClear => None
  end.

(** The keys looked up by a sequence of operations, the most recent
    first. *)
Definition history (typed : bool) (ops : list op) : list value :=
  rev (omap (accessed_key typed) ops).

(** The position, counted from the first lookup, of the most recent
    lookup of a key equal to [k]. *)
Fixpoint last_access (hist : list value) (k : value) : option nat :=
  match hist with
  | [] => None
  | k' :: hist' =>
      if py_eq k' k then Some (length hist') else last_access hist' k
  end.

(** Both keys have been looked up, and [a] less recently than [b]. *)
Definition older (hist : list value) (a b : value) : Prop :=
  match last_access hist a, last_access hist b with
  | Some ta, Some tb => (ta < tb)%nat
  | _, _ => False
  end.

(** The keys [ks] have all been looked up and stand in the order of their
    most recent lookup, the oldest first. *)
Definition recency_ordered (hist : list value) (ks : list value) : Prop :=
  StronglySorted (older hist) ks ∧
  Forall (λ k, is_Some (last_access hist k)) ks.

(** ** Capacity *)

(** The number of entries of a cache of capacity [maxsize] is within the
    capacity (a negative capacity leaves room for one entry, since [full]
    is only computed after an insertion), and [full] tells whether the
    capacity has been reached. *)
Definition within_capacity (maxsize : Z) (st : state addr) : Prop :=
  Z.of_nat (length (cache st)) ≤ Z.max maxsize 1 ∧
  (full st = true ↔
   cache st ≠ [] ∧ Z.of_nat (length (cache st)) >= maxsize).

Definition d_within_capacity (d : decorated) : Prop :=
  match d with
  | Fixed n _ st => within_capacity n st
  | _ => True
  end.

(** The unbounded wrapper has stored one entry per counted miss. *)
Definition d_size_is_misses (d : decorated) : Prop :=
  match d with
  | Unbounded _ st => length (cache st) = misses st
  | _ => True
  end.

(** What an operation gives when nothing is cached: the outcome of the
    decorated function itself. *)
Definition uncached
    (user_function : list value → list (string * value) → outcome value)
    (o : op) : outcome value :=
  match o with
  | DoCall c => user_function (c_args c) (c_kwds c)
  | DoClear => Return VNone
  end.

(** The number of calls that have returned since the last
    [cache_clear()], starting from [acc]. *)
Fixpoint completed (ops : list op) (rs : list (outcome value)) (acc : nat) :
    nat :=
  match ops, rs with
  | DoClear :: ops', _ :: rs' => completed ops' rs' 0%nat
  | DoCall _ :: ops', Return _ :: rs' => completed ops' rs' (S acc)
  | DoCall _ :: ops', Raise _ :: rs' => completed ops' rs' acc
  | _, _ => acc
  end.

(** The two counters reported by [cache_info()], added up. *)
Definition d_lookups (d : decorated) : nat :=
  (ci_hits (cache_info d) + ci_misses (cache_info d))%nat.


(** ** Keys *)

(** The test of line 62 on a call without keyword arguments: exactly one
    argument, of a type that is in [fasttypes]. *)
Definition fast_key (args : list value) : bool :=
  match args with
  | [k0] => bool_decide (py_type k0 ∈ fasttypes)
  | _ => false
  end.

(** The sequence that [_make_key] has built when it reaches line 62 or
    line 64. *)
Definition key_items (args : list value) (kwds : list (string * value))
    (typed : bool) : list value :=
  match kwds with
  | [] => args ++ (if typed then map (λ v, VType (py_type v)) args else [])
  | _ =>
      args ++ VObject 0 ::
        flat_map (λ item, [VStr item.1; item.2]) (sorted kwds) ++
        (if typed
         then map (λ v, VType (py_type v)) args ++
              map (λ item, VType (py_type item.2)) (sorted kwds)
         else [])
  end.


(** ** The entries of the cache and a list model of the wrappers *)

(** The key and the result held by the link at [a]. *)
Definition item (h : gmap nat link) (a : addr) : value * value :=
  (KEY (h !!! a), RESULT (h !!! a)).

(** The entries of a size-limited cache in the order of the circular
    list, least recently used first. *)
Definition contents (st : state addr) : list (value * value) :=
  map (item (heap st)) (ring_links st).

(** What can be observed of a decorated function through calls and
    [cache_info()]: the entries, the counters and the flag [full]. *)
Record view := View {
  v_entries : list (value * value);
  v_hits : nat;
  v_misses : nat;
  v_full : bool
}.

Definition st_view (st : state addr) : view :=
  View (contents st) (hits st) (misses st) (full st).

Definition d_view (d : decorated) : view :=
  match d with
  | Memory _ _ st | NoCache st | Fixed _ _ st => st_view st
  | Unbounded _ st => View (cache st) (hits st) (misses st) (full st)
  end.

(** The wrapper that was selected and the constants it closes over. *)
Inductive setting :=
| SMemory (use_memory_up_to : Z) (typed : bool)
| SNoCache
| SUnbounded (typed : bool)
| SFixed (maxsize : Z) (typed : bool).

Definition d_setting (d : decorated) : setting :=
  match d with
  | Memory m t _ => SMemory m t
  | NoCache _ => SNoCache
  | Unbounded t _ => SUnbounded t
  | Fixed n t _ => SFixed n t
  end.

(** The list model.  The entry found under [key] goes to the most
    recently used end. *)
Fixpoint promote (es : list (value * value)) (key : value) :
    list (value * value) :=
  match es with
  | [] => []
  | (k, r) :: es' =>
      if py_eq k key then es' ++ [(k, r)] else (k, r) :: promote es' key
  end.

(** The model of a size-limited wrapper: a hit promotes the entry; a miss
    on a full cache drops the first entry and adds the new one at the end;
    a miss on a cache that is not full adds the new entry and asks for the
    [verdict] on the new entries. *)
Definition lru_sized
    (user_function : list value → list (string * value) → outcome value)
    (typed : bool) (verdict : list (value * value) → outcome bool)
    (v : view) (c : call) : outcome value * view :=
  match _make_key (c_args c) (c_kwds c) typed with
  | Raise e => (Raise e, v)
  | Return key =>
      match dict_get (v_entries v) key with
      | Some r =>
          (Return r,
           View (promote (v_entries v) key) (S (v_hits v)) (v_misses v)
                (v_full v))
      | None =>
          match user_function (c_args c) (c_kwds c) with
          | Raise e => (Raise e, v)
          | Return r =>
              if v_full v then
                (Return r,
                 View (tail (v_entries v) ++ [(key, r)]) (v_hits v)
                      (S (v_misses v)) (v_full v))
              else
                let es := v_entries v ++ [(key, r)] in
                match verdict es with
                | Raise e =>
                    (Raise e, View es (v_hits v) (v_misses v) (v_full v))
                | Return b =>
                    (Return r, View es (v_hits v) (S (v_misses v)) b)
                end
          end
      end
  end.

Definition lru_call
    (user_function : list value → list (string * value) → outcome value)
    (s : setting) (v : view) (c : call) : outcome value * view :=
  match s with
  | SMemory m t =>
      lru_sized user_function t
        (λ _, match c_probe c with
              | Return available => Return (available <? m)
              | Raise e => Raise e
              end) v c
  | SNoCache =>
      match user_function (c_args c) (c_kwds c) with
      | Raise e => (Raise e, v)
      | Return r =>
          (Return r, View (v_entries v) (v_hits v) (S (v_misses v)) (v_full v))
      end
  | SUnbounded t =>
      match _make_key (c_args c) (c_kwds c) t with
      | Raise e => (Raise e, v)
      | Return key =>
          match dict_get (v_entries v) key with
          | Some r =>
              (Return r,
               View (v_entries v) (S (v_hits v)) (v_misses v) (v_full v))
          | None =>
              match user_function (c_args c) (c_kwds c) with
              | Raise e => (Raise e, v)
              | Return r =>
                  (Return r,
                   View (v_entries v ++ [(key, r)]) (v_hits v)
                        (S (v_misses v)) (v_full v))
              end
          end
      end
  | SFixed n t =>
      lru_sized user_function t
        (λ es, Return (bool_decide (Z.of_nat (length es) >= n))) v c
  end.

Definition lru_step
    (user_function : list value → list (string * value) → outcome value)
    (s : setting) (v : view) (o : op) : outcome value * view :=
  match o with
  | DoCall c => lru_call user_function s v c
  | DoClear => (Return VNone, View [] 0 0 false)
  end.

Fixpoint lru_run
    (user_function : list value → list (string * value) → outcome value)
    (s : setting) (v : view) (ops : list op) : list (outcome value) * view :=
  match ops with
  | [] => ([], v)
  | o :: ops' =>
      let '(r, v') := lru_step user_function s v o in
      let '(rs, v'') := lru_run user_function s v' ops' in
      (r :: rs, v'')
  end.

(** Two calls go to the same entry of the cache of [d]: they build equal
    keys.  The [maxsize == 0] wrapper builds no key and has no entries. *)
Definition shares_entry (d : decorated) (c' c : call) : Prop :=
  match d_key d c', d_key d c with
  | Some (Return k'), Some (Return k) => py_eq k' k = true
  | _, _ => c' = c
  end.

(** The memory probe of every call of [ops] reports at least [threshold]
    bytes. *)
Definition enough_memory (threshold : Z) (ops : list op) : Prop :=
  Forall (λ o, match o with
               | DoCall c => ∃ available,
                   c_probe c = Return available ∧ available >= threshold
               | DoClear => True
               end) ops.


(** ** Working sets *)





(** ** Facts about [==] *)

Section seq_eq.
Context {A : Type} (eq : A → A → bool).

Lemma seq_eq_refl xs : Forall (λ x, eq x x = true) xs → seq_eq eq xs xs = true.
Proof. induction 1 as [|x xs Hx _ IH]; simpl; [done|]. by rewrite Hx, IH. Qed.

Lemma seq_eq_sym xs ys :
  Forall (λ x, ∀ y, eq x y = eq y x) xs → seq_eq eq xs ys = seq_eq eq ys xs.
Proof.
  intros H. revert ys.
  induction H as [|x xs Hx _ IH]; intros [|y ys]; simpl; try done.
  by rewrite Hx, IH.
Qed.

Lemma seq_eq_trans xs ys zs :
  Forall (λ x, ∀ y z, eq x y = true → eq y z = true → eq x z = true) xs →
  seq_eq eq xs ys = true → seq_eq eq ys zs = true → seq_eq eq xs zs = true.
Proof.
  intros H. revert ys zs.
  induction H as [|x xs Hx _ IH]; intros [|y ys] [|z zs]; simpl; try done.
  rewrite !andb_true_iff. intros [? ?] [? ?]. split; eauto.
Qed.
End seq_eq.

Lemma list_all_Forall (P : value → Prop) vs : list_all value P vs → Forall P vs.
Proof. induction 1; constructor; auto. Qed.

Lemma py_eq_refl v : py_eq v v = true.
Proof.
  induction v as [| | | |vs IH|vs IH| | |vs IH]; simpl;
    try (apply seq_eq_refl, list_all_Forall, IH).
  - done.
  - apply Z.eqb_refl.
  - apply Z.eqb_refl.
  - apply String.eqb_refl.
  - by apply bool_decide_eq_true.
  - apply Nat.eqb_refl.
Qed.

Lemma py_eq_sym a b : py_eq a b = py_eq b a.
Proof.
  revert b.
  induction a as [| | | |vs IH|vs IH| | |vs IH]; intros [];
    simpl; try done;
    try (apply seq_eq_sym, list_all_Forall, IH).
  - apply Z.eqb_sym.
  - rewrite Z.eqb_sym. done.
  - rewrite Z.eqb_sym. done.
  - apply Z.eqb_sym.
  - apply String.eqb_sym.
  - apply bool_decide_ext. naive_solver.
  - apply Nat.eqb_sym.
Qed.

Lemma pow2_pos (e : N) : 0 < 2 ^ Z.of_N e.
Proof. apply Z.pow_pos_nonneg; lia. Qed.

Lemma py_eq_trans a b c :
  py_eq a b = true → py_eq b c = true → py_eq a c = true.
Proof.
  revert b c.
  induction a as [|x|m e|s|vs IH|vs IH|t|i|vs IH]; intros b c;
    destruct b as [|y|m' e'|s'|vs'|vs'|t'|i'|vs'];
    destruct c as [|z|m'' e''|s''|vs''|vs''|t''|i''|vs''];
    simpl; try done;
    try (apply seq_eq_trans, list_all_Forall, IH);
    rewrite ?Z.eqb_eq, ?String.eqb_eq, ?Nat.eqb_eq, ?bool_decide_eq_true;
    try congruence.
  all: intros H1 H2.
  all: repeat match goal with
       | H : context [2 ^ Z.of_N ?e] |- _ =>
           pose proof (pow2_pos e); generalize dependent (2 ^ Z.of_N e); intros
       | |- context [2 ^ Z.of_N ?e] =>
           pose proof (pow2_pos e); generalize dependent (2 ^ Z.of_N e); intros
       end.
  all: subst; nia.
Qed.
(** ** Reading the store after an item assignment *)

Section store_facts.
Implicit Types (h : gmap nat link) (a x : addr).

Lemma NEXT_set_NEXT h a v x :
  NEXT (set_NEXT h a v !!! x) = if decide (x = a) then v else NEXT (h !!! x).
Proof.
  unfold set_NEXT. case_decide as E.
  - subst. by rewrite lookup_total_insert_eq.
  - by rewrite lookup_total_insert_ne.
Qed.

Lemma PREV_set_PREV h a v x :
  PREV (set_PREV h a v !!! x) = if decide (x = a) then v else PREV (h !!! x).
Proof.
  unfold set_PREV. case_decide as E.
  - subst. by rewrite lookup_total_insert_eq.
  - by rewrite lookup_total_insert_ne.
Qed.

Lemma KEY_set_KEY h a v x :
  KEY (set_KEY h a v !!! x) = if decide (x = a) then v else KEY (h !!! x).
Proof.
  unfold set_KEY. case_decide as E.
  - subst. by rewrite lookup_total_insert_eq.
  - by rewrite lookup_total_insert_ne.
Qed.

Lemma RESULT_set_RESULT h a v x :
  RESULT (set_RESULT h a v !!! x) =
  if decide (x = a) then v else RESULT (h !!! x).
Proof.
  unfold set_RESULT. case_decide as E.
  - subst. by rewrite lookup_total_insert_eq.
  - by rewrite lookup_total_insert_ne.
Qed.

(** An assignment to one item leaves the other three items of every link
    as they were. *)
Local Ltac other_item :=
  intros h a v x; cbv beta delta [set_PREV set_NEXT set_KEY set_RESULT] zeta;
  destruct (decide (x = a)) as [->|];
  [by rewrite lookup_total_insert_eq | by rewrite lookup_total_insert_ne].

Lemma PREV_set_NEXT : ∀ h a v x, PREV (set_NEXT h a v !!! x) = PREV (h !!! x).
Proof. other_item. Qed.
Lemma KEY_set_NEXT : ∀ h a v x, KEY (set_NEXT h a v !!! x) = KEY (h !!! x).
Proof. other_item. Qed.
Lemma RESULT_set_NEXT : ∀ h a v x, RESULT (set_NEXT h a v !!! x) = RESULT (h !!! x).
Proof. other_item. Qed.
Lemma NEXT_set_PREV : ∀ h a v x, NEXT (set_PREV h a v !!! x) = NEXT (h !!! x).
Proof. other_item. Qed.
Lemma KEY_set_PREV : ∀ h a v x, KEY (set_PREV h a v !!! x) = KEY (h !!! x).
Proof. other_item. Qed.
Lemma RESULT_set_PREV : ∀ h a v x, RESULT (set_PREV h a v !!! x) = RESULT (h !!! x).
Proof. other_item. Qed.
Lemma PREV_set_KEY : ∀ h a v x, PREV (set_KEY h a v !!! x) = PREV (h !!! x).
Proof. other_item. Qed.
Lemma NEXT_set_KEY : ∀ h a v x, NEXT (set_KEY h a v !!! x) = NEXT (h !!! x).
Proof. other_item. Qed.
Lemma RESULT_set_KEY : ∀ h a v x, RESULT (set_KEY h a v !!! x) = RESULT (h !!! x).
Proof. other_item. Qed.
Lemma PREV_set_RESULT : ∀ h a v x, PREV (set_RESULT h a v !!! x) = PREV (h !!! x).
Proof. other_item. Qed.
Lemma NEXT_set_RESULT : ∀ h a v x, NEXT (set_RESULT h a v !!! x) = NEXT (h !!! x).
Proof. other_item. Qed.
Lemma KEY_set_RESULT : ∀ h a v x, KEY (set_RESULT h a v !!! x) = KEY (h !!! x).
Proof. other_item. Qed.

Lemma dom_set_KEY h a v : a ∈ dom h → dom (set_KEY h a v) = dom h.
Proof. intros. apply dom_insert_lookup_L. by apply elem_of_dom. Qed.
Lemma dom_set_RESULT h a v : a ∈ dom h → dom (set_RESULT h a v) = dom h.
Proof. intros. apply dom_insert_lookup_L. by apply elem_of_dom. Qed.

Lemma NEXT_insert h a l x :
  NEXT (<[a:=l]> h !!! x) = if decide (x = a) then NEXT l else NEXT (h !!! x).
Proof.
  case_decide; [subst; by rewrite lookup_total_insert_eq|].
  by rewrite lookup_total_insert_ne.
Qed.
Lemma PREV_insert h a l x :
  PREV (<[a:=l]> h !!! x) = if decide (x = a) then PREV l else PREV (h !!! x).
Proof.
  case_decide; [subst; by rewrite lookup_total_insert_eq|].
  by rewrite lookup_total_insert_ne.
Qed.
Lemma KEY_insert h a l x :
  KEY (<[a:=l]> h !!! x) = if decide (x = a) then KEY l else KEY (h !!! x).
Proof.
  case_decide; [subst; by rewrite lookup_total_insert_eq|].
  by rewrite lookup_total_insert_ne.
Qed.
Lemma RESULT_insert h a l x :
  RESULT (<[a:=l]> h !!! x) =
  if decide (x = a) then RESULT l else RESULT (h !!! x).
Proof.
  case_decide; [subst; by rewrite lookup_total_insert_eq|].
  by rewrite lookup_total_insert_ne.
Qed.

Lemma new_addr_fresh h : new_addr h ∉ dom h.
Proof. unfold new_addr. apply is_fresh. Qed.
End store_facts.

Create Rewrite HintDb store.
#[global] Hint Rewrite NEXT_set_NEXT PREV_set_PREV KEY_set_KEY RESULT_set_RESULT
  PREV_set_NEXT KEY_set_NEXT RESULT_set_NEXT NEXT_set_PREV KEY_set_PREV
  RESULT_set_PREV PREV_set_KEY NEXT_set_KEY RESULT_set_KEY PREV_set_RESULT
  NEXT_set_RESULT KEY_set_RESULT NEXT_insert PREV_insert KEY_insert
  RESULT_insert : store.

(** Normalise the reads of a store built by assignments, then split on the
    address comparisons that remain. *)
Ltac store_simpl := autorewrite with store.
Ltac store_cases :=
  store_simpl; repeat (case_decide; try done; try congruence).

(** ** Chains of links *)

Section chain_facts.
Implicit Types (h : gmap nat link) (p q a : addr) (l : list addr).

Lemma chain_app h p l1 a l2 q :
  chain h p (l1 ++ a :: l2) q ↔ chain h p l1 a ∧ chain h a l2 q.
Proof.
  revert p. induction l1 as [|b l1 IH]; intros p; simpl.
  - tauto.
  - rewrite IH. tauto.
Qed.

Lemma chain_snoc h p l a q :
  chain h p (l ++ [a]) q ↔
  chain h p l a ∧ NEXT (h !!! a) = q ∧ PREV (h !!! q) = a.
Proof. by rewrite chain_app. Qed.

Lemma chain_first h p l q : chain h p l q → NEXT (h !!! p) = hd q l.
Proof. destruct l; simpl; tauto. Qed.

Lemma last_cons a l p : List.last (a :: l) p = List.last l a.
Proof.
  revert a p. induction l as [|b l IH]; intros a p; [done|].
  change (List.last (b :: l) p = List.last (b :: l) a). by rewrite !IH.
Qed.

Lemma last_elem l p : List.last l p ∈ p :: l.
Proof.
  revert p. induction l as [|a l IH]; intros p.
  - apply list_elem_of_here.
  - rewrite last_cons. apply list_elem_of_further, IH.
Qed.

Lemma chain_last h p l q : chain h p l q → PREV (h !!! q) = List.last l p.
Proof.
  revert p. induction l as [|a l IH]; intros p.
  - simpl. tauto.
  - intros (_ & _ & H). rewrite last_cons. by apply IH.
Qed.

(** A chain only depends on the [NEXT] items of its source links and on
    the [PREV] items of its target links. *)
Lemma chain_frame h h' p l q :
  (∀ x, x ∈ p :: l → NEXT (h' !!! x) = NEXT (h !!! x)) →
  (∀ y, y ∈ l ++ [q] → PREV (h' !!! y) = PREV (h !!! y)) →
  chain h p l q → chain h' p l q.
Proof.
  revert p. induction l as [|a l IH]; intros p HN HP.
  - intros [H1 H2]. split.
    + rewrite HN; [done | apply list_elem_of_here].
    + rewrite HP; [done | apply list_elem_of_here].
  - intros (H1 & H2 & H). split_and!.
    + rewrite HN; [done | apply list_elem_of_here].
    + rewrite HP; [done | apply list_elem_of_here].
    + apply IH; [| |done].
      * intros x Hx. by apply HN, list_elem_of_further.
      * intros y Hy. by apply HP, list_elem_of_further.
Qed.

(** Redirecting the end of a chain from [q] to [q']. *)
Lemma chain_retarget h h' p l q q' :
  NoDup (p :: l) →
  (∀ x, x ∈ p :: l → x ≠ List.last l p → NEXT (h' !!! x) = NEXT (h !!! x)) →
  (∀ y, y ∈ l → PREV (h' !!! y) = PREV (h !!! y)) →
  NEXT (h' !!! List.last l p) = q' →
  PREV (h' !!! q') = List.last l p →
  chain h p l q → chain h' p l q'.
Proof.
  revert p. induction l as [|a l IH]; intros p ND HN HP HL1 HL2.
  - done.
  - intros (H1 & H2 & H).
    rewrite last_cons in *.
    apply NoDup_cons in ND as [Hp ND].
    split_and!.
    + rewrite HN; [done | apply list_elem_of_here |].
      intros ->. apply Hp, last_elem.
    + rewrite HP; [done | apply list_elem_of_here].
    + apply IH; try done.
      * intros x Hx Hne. apply HN; [by apply list_elem_of_further | done].
      * intros y Hy. by apply HP, list_elem_of_further.
Qed.
End chain_facts.

(** ** The circular list under the operations of the wrappers *)

Section ring_facts.
Implicit Types (h : gmap nat link) (r a : addr) (ls : list addr).

Lemma walk_chain h p l q fuel :
  chain h p l q → q ∉ l → (length l < fuel)%nat →
  walk h q fuel (NEXT (h !!! p)) = l.
Proof.
  revert p fuel. induction l as [|a l IH]; intros p fuel Hc Hq Hf.
  - destruct Hc as [-> _]. destruct fuel; [simpl in Hf; lia|].
    simpl. by rewrite bool_decide_eq_true_2.
  - destruct Hc as (-> & _ & Hc). destruct fuel; [simpl in Hf; lia|].
    simpl. rewrite bool_decide_eq_false_2.
    + f_equal. apply IH; [done| |simpl in Hf; lia].
      intros ?. apply Hq. by apply list_elem_of_further.
    + intros ->. apply Hq. apply list_elem_of_here.
Qed.

Lemma ring_size h r ls : ring h r ls → (length ls < size h)%nat.
Proof.
  intros (_ & ND & Hdom).
  rewrite <- size_dom.
  assert (list_to_set (r :: ls) ⊆ dom h) as Hsub.
  { intros x Hx. apply Hdom. by apply elem_of_list_to_set in Hx. }
  apply subseteq_size in Hsub.
  rewrite size_list_to_set in Hsub by done. simpl in Hsub. lia.
Qed.

Lemma ring_walk h r ls :
  ring h r ls → walk h r (size h) (NEXT (h !!! r)) = ls.
Proof.
  intros Hr. pose proof (ring_size _ _ _ Hr). destruct Hr as (Hc & ND & _).
  apply walk_chain; [done| |done].
  by apply NoDup_cons in ND as [? _].
Qed.

(** Taking the link [a] out of the list (lines 122-123, 204-205). *)
Lemma chain_unlink h r l1 a l2 :
  chain h r (l1 ++ a :: l2) r → NoDup (r :: l1 ++ a :: l2) →
  chain (set_PREV (set_NEXT h (PREV (h !!! a)) (NEXT (h !!! a)))
                  (NEXT (h !!! a)) (PREV (h !!! a)))
        r (l1 ++ l2) r.
Proof.
  intros Hc ND.
  apply chain_app in Hc as [Hc1 Hc2].
  pose proof (chain_last _ _ _ _ Hc1) as Hp.
  pose proof (chain_first _ _ _ _ Hc2) as Hn.
  rewrite Hp, Hn. clear Hp Hn.
  apply NoDup_cons in ND as [Hr ND].
  apply NoDup_app in ND as (ND1 & Hdisj & ND2).
  apply NoDup_cons in ND2 as [Ha ND2].
  rewrite elem_of_app, elem_of_cons in Hr.
  assert (NoDup (r :: l1)) as NDr.
  { apply NoDup_cons. split; [tauto|done]. }
  assert (∀ x, x ∈ r :: l1 → x ∉ l2) as Hd2.
  { intros x [->|Hx]%elem_of_cons Hx2; [tauto|].
    apply (Hdisj x Hx). by apply list_elem_of_further. }
  pose proof (last_elem l1 r) as Hlast.
  destruct l2 as [|n l2].
  - rewrite app_nil_r. simpl.
    eapply chain_retarget; [done| | | | |exact Hc1].
    + intros x Hx Hne. store_cases.
    + intros y Hy. store_cases. subst. tauto.
    + store_cases.
    + store_cases.
  - simpl hd. destruct Hc2 as (_ & _ & Hc2).
    apply NoDup_cons in ND2 as [Hn ND2].
    assert (n ∈ n :: l2) as Hnn by apply list_elem_of_here.
    apply chain_app. split.
    + eapply chain_retarget; [done| | | | |exact Hc1].
      * intros x Hx Hne. store_cases.
      * intros y Hy. store_cases. subst.
        exfalso. apply (Hd2 n); [by apply list_elem_of_further|done].
      * store_cases.
      * store_cases.
    + eapply chain_frame; [| |exact Hc2].
      * intros x Hx. store_cases.
        exfalso. subst. by apply (Hd2 _ Hlast).
      * intros y Hy. store_cases. subst.
        apply elem_of_app in Hy as [Hy|Hy%list_elem_of_singleton]; [done|].
        subst. exfalso. apply (Hd2 r); [apply list_elem_of_here|done].
Qed.

(** Putting the link [a] back just before the root (lines 124-127,
    206-209). *)
Lemma chain_append h r ls a :
  chain h r ls r → NoDup (r :: ls) → a ∉ r :: ls →
  chain (set_NEXT (set_PREV (set_PREV (set_NEXT h (PREV (h !!! r)) a) r a)
                            a (PREV (h !!! r))) a r)
        r (ls ++ [a]) r.
Proof.
  intros Hc ND Ha.
  rewrite (chain_last _ _ _ _ Hc).
  pose proof (last_elem ls r) as Hlast.
  assert (r ≠ a) as Hra.
  { intros ->. apply Ha, list_elem_of_here. }
  assert (∀ y, y ∈ ls → y ≠ r) as Hlr.
  { intros y Hy ->. by apply NoDup_cons in ND as [? _]. }
  assert (∀ y, y ∈ ls → y ≠ a) as Hla.
  { intros y Hy ->. by apply Ha, list_elem_of_further. }
  apply chain_snoc. split_and!.
  - eapply chain_retarget; [done| | | | |exact Hc].
    + intros x Hx Hne. store_cases; by subst.
    + intros y Hy. store_cases; subst; exfalso; naive_solver.
    + store_cases; by subst.
    + store_cases.
  - store_cases.
  - store_cases.
Qed.

Lemma dom_set_PREV_mono h a v x : x ∈ dom h → x ∈ dom (set_PREV h a v).
Proof. intros. apply dom_insert, elem_of_union. by right. Qed.
Lemma dom_set_NEXT_mono h a v x : x ∈ dom h → x ∈ dom (set_NEXT h a v).
Proof. intros. apply dom_insert, elem_of_union. by right. Qed.
Lemma dom_set_KEY_mono h a v x : x ∈ dom h → x ∈ dom (set_KEY h a v).
Proof. intros. apply dom_insert, elem_of_union. by right. Qed.
Lemma dom_set_RESULT_mono h a v x : x ∈ dom h → x ∈ dom (set_RESULT h a v).
Proof. intros. apply dom_insert, elem_of_union. by right. Qed.

Lemma ring_move_to_front h r l1 a l2 :
  ring h r (l1 ++ a :: l2) → ring (move_to_front h r a) r (l1 ++ l2 ++ [a]).
Proof.
  intros (Hc & ND & Hdom). unfold move_to_front.
  assert (r :: l1 ++ a :: l2 ≡ₚ a :: r :: l1 ++ l2) as E1.
  { rewrite <- Permutation_middle. apply Permutation_swap. }
  assert (r :: l1 ++ l2 ++ [a] ≡ₚ a :: r :: l1 ++ l2) as E2.
  { rewrite app_assoc, <- Permutation_cons_append. apply Permutation_swap. }
  assert (NoDup (r :: l1 ++ l2) ∧ a ∉ r :: l1 ++ l2) as [ND' Ha].
  { rewrite E1 in ND. by apply NoDup_cons in ND as [? ?]. }
  split_and!.
  - rewrite app_assoc. apply chain_append; [|done..].
    by apply chain_unlink.
  - rewrite E2. by apply NoDup_cons.
  - intros x Hx. rewrite E2, <- E1 in Hx.
    by apply dom_set_NEXT_mono, dom_set_PREV_mono, dom_set_PREV_mono,
      dom_set_NEXT_mono, dom_set_PREV_mono, dom_set_NEXT_mono, Hdom.
Qed.

Lemma KEY_move_to_front h r a x :
  KEY (move_to_front h r a !!! x) = KEY (h !!! x).
Proof. unfold move_to_front. by store_simpl. Qed.

Lemma RESULT_move_to_front h r a x :
  RESULT (move_to_front h r a !!! x) = RESULT (h !!! x).
Proof. unfold move_to_front. by store_simpl. Qed.
End ring_facts.

(** ** The dictionary *)

Section dict_facts.
Context {V : Type}.
Implicit Types (d : list (value * V)) (k : value) (v : V).

Lemma dict_get_None d k :
  dict_get d k = None ↔ Forall (λ k', py_eq k' k = false) (map fst d).
Proof.
  induction d as [|[k' v'] d IH]; simpl.
  - split; [constructor | done].
  - rewrite Forall_cons. destruct (py_eq k' k); [|tauto].
    split; [done | intros [? _]; done].
Qed.

Lemma dict_get_Some d k v :
  dict_get d k = Some v → ∃ k', (k', v) ∈ d ∧ py_eq k' k = true.
Proof.
  induction d as [|[k' v'] d IH]; simpl; [done|].
  destruct (py_eq k' k) eqn:E.
  - intros [= ->]. exists k'. split; [apply list_elem_of_here | done].
  - intros (k'' & ? & ?)%IH. exists k''. split; [|done].
    by apply list_elem_of_further.
Qed.

Lemma dict_get_set d k v : dict_get (dict_set d k v) k = Some v.
Proof.
  induction d as [|[k' v'] d IH]; simpl.
  - by rewrite py_eq_refl.
  - destruct (py_eq k' k) eqn:E; simpl; by rewrite E.
Qed.

Lemma dict_set_absent d k v :
  dict_get d k = None → dict_set d k v = d ++ [(k, v)].
Proof.
  induction d as [|[k' v'] d IH]; simpl; [done|].
  destruct (py_eq k' k); [done|]. intros ?. f_equal. auto.
Qed.

Lemma dict_get_elem d k v :
  distinct (map fst d) → (k, v) ∈ d → dict_get d k = Some v.
Proof.
  induction d as [|[k' v'] d IH]; simpl.
  - intros _ ?%elem_of_nil. done.
  - intros [Hk Hd] [[= -> ->]|Hin]%elem_of_cons.
    + by rewrite py_eq_refl.
    + destruct (py_eq k' k) eqn:E; [|by apply IH].
      rewrite Forall_forall in Hk.
      rewrite (Hk k) in E; [done|].
      apply list_elem_of_fmap. by exists (k, v).
Qed.

Lemma dict_del_elem d k v :
  distinct (map fst d) → (k, v) ∈ d →
  ∃ d', dict_del d k = Some d' ∧ d ≡ₚ (k, v) :: d'.
Proof.
  induction d as [|[k' v'] d IH]; simpl.
  - intros _ ?%elem_of_nil. done.
  - intros [Hk Hd] [[= -> ->]|Hin]%elem_of_cons.
    + rewrite py_eq_refl. by exists d.
    + destruct (py_eq k' k) eqn:E.
      * rewrite Forall_forall in Hk.
        rewrite (Hk k) in E; [done|].
        apply list_elem_of_fmap. by exists (k, v).
      * destruct (IH Hd Hin) as (d' & -> & Hp).
        exists ((k', v') :: d'). split; [done|].
        rewrite Hp. apply Permutation_swap.
Qed.
End dict_facts.

Lemma distinct_Permutation ks ks' : ks ≡ₚ ks' → distinct ks → distinct ks'.
Proof.
  induction 1 as [|k ks ks' Hp IH|k1 k2 ks|ks1 ks2 ks3 _ IH1 _ IH2]; simpl.
  - done.
  - intros [Hk Hd]. split; [by rewrite <- Hp | auto].
  - rewrite !Forall_cons. intros ((H12 & H1) & H2 & Hd).
    rewrite py_eq_sym in H12. tauto.
  - auto.
Qed.

Lemma distinct_snoc ks k :
  distinct ks → Forall (λ k', py_eq k' k = false) ks → distinct (ks ++ [k]).
Proof.
  induction ks as [|k' ks IH]; simpl.
  - intros _ _. split; [constructor | done].
  - intros [Hk Hd] [Hk' Hks]%Forall_cons. split; [|auto].
    apply Forall_app. split; [done|]. by constructor.
Qed.

(** ** Well-formed states under the operations of the wrappers *)

Section wf_facts.
Implicit Types (h : gmap nat link) (r a : addr) (ls : list addr)
  (st : state addr).

Lemma ring_insert h r ls key result :
  ring h r ls →
  ring (set_PREV
          (set_NEXT (<[new_addr h := Link (PREV (h !!! r)) r key result]> h)
                    (PREV (h !!! r)) (new_addr h))
          r (new_addr h))
       r (ls ++ [new_addr h]).
Proof.
  intros (Hc & ND & Hdom).
  pose proof (new_addr_fresh h) as Hnew.
  set (new := new_addr h) in *.
  assert (new ∉ r :: ls) as Hn by (intros ?; by apply Hnew, Hdom).
  rewrite (chain_last _ _ _ _ Hc).
  pose proof (last_elem ls r) as Hlast.
  assert (r ≠ new) as Hrn.
  { intros E. apply Hn. rewrite E. apply list_elem_of_here. }
  assert (∀ y, y ∈ ls → y ≠ r) as Hlr.
  { intros y Hy ->. by apply NoDup_cons in ND as [? _]. }
  assert (∀ y, y ∈ ls → y ≠ new) as Hln.
  { intros y Hy ->. by apply Hn, list_elem_of_further. }
  split_and!.
  - apply chain_snoc. split_and!.
    + eapply chain_retarget; [done| | | | |exact Hc].
      * intros x Hx Hne. store_cases; by subst.
      * intros y Hy. store_cases; subst; exfalso; naive_solver.
      * store_cases.
      * store_cases.
    + store_cases.
    + store_cases.
  - assert (r :: ls ++ [new] ≡ₚ new :: r :: ls) as ->.
    { rewrite <- Permutation_cons_append. apply Permutation_swap. }
    by apply NoDup_cons.
  - intros x Hx. apply dom_set_PREV_mono, dom_set_NEXT_mono.
    rewrite dom_insert, elem_of_union, elem_of_singleton.
    rewrite app_comm_cons, elem_of_app, list_elem_of_singleton in Hx.
    destruct Hx; [right; by apply Hdom | by left].
Qed.

Lemma ring_evict h r a ls key result :
  ring h r (a :: ls) →
  ring (set_RESULT (set_KEY (set_RESULT (set_KEY h r key) r result) a VNone)
                   a VNone)
       a (ls ++ [r]).
Proof.
  intros ((Hn & Hp & Hc) & ND & Hdom). split_and!.
  - apply chain_snoc. split_and!.
    + eapply chain_frame; [| |exact Hc]; intros; by store_simpl.
    + by store_simpl.
    + by store_simpl.
  - assert (a :: ls ++ [r] ≡ₚ r :: a :: ls) as ->; [|done].
    by rewrite app_comm_cons, <- Permutation_cons_append.
  - intros x Hx.
    apply dom_set_RESULT_mono, dom_set_KEY_mono, dom_set_RESULT_mono,
      dom_set_KEY_mono, Hdom.
    revert Hx. rewrite app_comm_cons, elem_of_app, list_elem_of_singleton,
      !elem_of_cons. tauto.
Qed.

Lemma ring_clear h r : ring (<[r := Link r r VNone VNone]> h) r [].
Proof.
  split_and!.
  - split; by store_cases.
  - apply NoDup_singleton.
  - intros x ->%list_elem_of_singleton.
    rewrite dom_insert, elem_of_union, elem_of_singleton. by left.
Qed.

Lemma wf_entry st ls k a :
  wf st ls → (k, a) ∈ cache st ↔ a ∈ ls ∧ k = KEY (heap st !!! a).
Proof.
  intros Hwf. rewrite (wf_cache _ _ Hwf), list_elem_of_fmap. unfold entry.
  split.
  - intros (b & [= -> ->] & ?). done.
  - intros [? ->]. by exists a.
Qed.

Lemma wf_ring_links st ls : wf st ls → ring_links st = ls.
Proof. intros Hwf. apply ring_walk, Hwf. Qed.

Lemma wf_ring_keys st ls :
  wf st ls → ring_keys st = map (λ a, KEY (heap st !!! a)) ls.
Proof. intros Hwf. unfold ring_keys. by rewrite (wf_ring_links _ _ Hwf). Qed.

Lemma wf_fresh_state : wf fresh_state [].
Proof.
  split; simpl; try done.
  unfold fresh_state. rewrite <- insert_empty. apply ring_clear.
Qed.

Lemma wf_cache_clear st ls : wf st ls → wf (cache_clear st) [].
Proof. intros _. split; simpl; try done. apply ring_clear. Qed.

Lemma wf_count_hit st ls : wf st ls → wf (count_hit st) ls.
Proof. intros []. by split. Qed.

Lemma wf_count_miss st ls : wf st ls → wf (count_miss st) ls.
Proof. intros []. by split. Qed.

Lemma wf_with_full st ls b : wf st ls → ls ≠ [] → wf (with_full st b) ls.
Proof. intros [] ?. by split. Qed.

(** A hit moves the link that was found to the most recently used end
    and leaves everything else in place. *)
Lemma wf_move_to_front st ls key a :
  wf st ls → dict_get (cache st) key = Some a →
  ∃ l1 l2, ls = l1 ++ a :: l2 ∧
    py_eq (KEY (heap st !!! a)) key = true ∧
    wf (with_heap st (move_to_front (heap st) (root st) a))
       (l1 ++ l2 ++ [a]).
Proof.
  intros Hwf (k' & Hin & Hk)%dict_get_Some.
  apply (wf_entry _ _ _ _ Hwf) in Hin as [Ha ->].
  apply list_elem_of_split in Ha as (l1 & l2 & ->).
  exists l1, l2. split_and!; [done..|].
  destruct Hwf as [Hr Hc Hd Hf]. split; simpl.
  - by apply ring_move_to_front.
  - rewrite Hc.
    rewrite (map_ext (entry (move_to_front (heap st) (root st) a))
               (entry (heap st)))
      by (intros; unfold entry; by rewrite KEY_move_to_front).
    apply Permutation_map.
    rewrite <- Permutation_middle, app_assoc.
    apply Permutation_cons_append.
  - done.
  - intros _. by destruct l1, l2.
Qed.

(** A miss on a cache that is not full links a new object at the most
    recently used end. *)
Lemma wf_insert st ls key result :
  wf st ls → dict_get (cache st) key = None →
  wf (insert st key result) (ls ++ [new_addr (heap st)]).
Proof.
  intros [Hr Hc Hd Hf] Hk.
  pose proof (new_addr_fresh (heap st)) as Hnew.
  assert (∀ x, x ∈ ls → x ≠ new_addr (heap st)) as Hln.
  { intros x Hx ->. apply Hnew. apply Hr. by apply list_elem_of_further. }
  split; simpl.
  - by apply ring_insert.
  - rewrite (dict_set_absent _ _ _ Hk), map_app. simpl.
    apply Permutation_app.
    + rewrite Hc. erewrite map_ext_in; [done|].
      intros x Hx%list_elem_of_In. unfold entry. store_cases.
      exfalso. by eapply Hln.
    + unfold entry. by store_cases.
  - rewrite (dict_set_absent _ _ _ Hk), map_app. simpl.
    apply distinct_snoc; [done|]. by apply dict_get_None.
  - intros _. by destruct ls.
Qed.

(** A miss on a full cache stores the new entry in the old root, and the
    least recently used link becomes the root. *)
Lemma wf_evict st ls key result :
  wf st ls → full st = true → dict_get (cache st) key = None →
  ∃ a ls' st',
    ls = a :: ls' ∧
    evict st key result = (Return (), st') ∧
    wf st' (ls' ++ [root st]) ∧
    root st' = a ∧
    KEY (heap st' !!! root st) = key ∧
    RESULT (heap st' !!! root st) = result ∧
    (∀ x, x ∈ ls' → KEY (heap st' !!! x) = KEY (heap st !!! x)) ∧
    dom (heap st') = dom (heap st) ∧
    hits st' = hits st ∧ misses st' = misses st ∧ full st' = full st.
Proof.
  intros Hwf Hfull Hk.
  pose proof Hwf as [Hr Hc Hd Hf].
  destruct ls as [|a ls']; [by destruct (Hf Hfull)|].
  pose proof Hr as ((Hn & Hp & Hch) & ND & Hdom).
  apply NoDup_cons in ND as [Hra ND]. apply NoDup_cons in ND as [Ha ND].
  assert (root st ≠ a) as Hne.
  { intros E. apply Hra. rewrite <- E. apply list_elem_of_here. }
  assert ((KEY (heap st !!! a), a) ∈ cache st) as Hin.
  { apply (wf_entry _ _ _ _ Hwf). split; [apply list_elem_of_here | done]. }
  destruct (dict_del_elem _ _ _ Hd Hin) as (d' & Hdel & Hperm).
  assert (d' ≡ₚ map (entry (heap st)) ls') as Hd'.
  { apply (Permutation_cons_inv (a:=(KEY (heap st !!! a), a))).
    by rewrite <- Hperm, Hc. }
  assert (dict_get d' key = None) as Hk'.
  { apply dict_get_None. apply dict_get_None in Hk.
    rewrite Hperm in Hk. simpl in Hk. by apply Forall_cons in Hk as [_ ?]. }
  assert (distinct (map fst d')) as Hdd.
  { apply (distinct_Permutation _ _ (Permutation_map fst Hperm)) in Hd.
    by destruct Hd. }
  unfold evict. store_simpl. rewrite Hn. store_simpl.
  rewrite decide_False by done. rewrite Hdel.
  eexists a, ls', _. split_and!; try done; simpl.
  - split; simpl.
    + by apply ring_evict.
    + rewrite (dict_set_absent _ _ _ Hk'), map_app. simpl.
      apply Permutation_app.
      * rewrite Hd'. erewrite map_ext_in; [done|].
        intros x Hx%list_elem_of_In. unfold entry.
        store_cases; subst; try done; exfalso;
          first [apply Hra; by apply list_elem_of_further | by apply Ha].
      * unfold entry. by store_cases.
    + rewrite (dict_set_absent _ _ _ Hk'), map_app. simpl.
      apply distinct_snoc; [done|]. by apply dict_get_None.
    + intros _. by destruct ls'.
  - by store_cases.
  - by store_cases.
  - intros x Hx.
    store_cases; subst; try done; exfalso;
      first [apply Hra; by apply list_elem_of_further | by apply Ha].
  - rewrite dom_set_RESULT, dom_set_KEY, dom_set_RESULT, dom_set_KEY;
      try done.
    all: repeat (first [apply dom_set_RESULT_mono | apply dom_set_KEY_mono]).
    all: apply Hdom; rewrite !elem_of_cons; auto.
Qed.
End wf_facts.

(** ** Every call keeps the state well formed *)

Section preservation.
Variable user_function : list value → list (string * value) → outcome value.
Implicit Types (st : state addr) (ls : list addr).

Lemma dict_contains_get {V} (d : list (value * V)) k :
  dict_contains d k = false ↔ dict_get d k = None.
Proof. unfold dict_contains. destruct (dict_get d k); naive_solver. Qed.

Lemma lookup_Miss st key : lookup st key = Miss ↔ dict_get (cache st) key = None.
Proof. unfold lookup. destruct (dict_get _ _); naive_solver. Qed.

Lemma wf_lookup st ls key result st' :
  wf st ls → lookup st key = Hit result st' → ∃ ls', wf st' ls'.
Proof.
  unfold lookup. intros Hwf.
  destruct (dict_get (cache st) key) as [a|] eqn:E; [|done].
  intros [= _ <-].
  destruct (wf_move_to_front _ _ _ _ Hwf E) as (l1 & l2 & _ & _ & Hwf').
  eexists. apply wf_count_hit, Hwf'.
Qed.

Lemma wf_store_fixed maxsize st ls key result :
  wf st ls → dict_get (cache st) key = None →
  ∃ ls', wf (store_fixed maxsize st key result).2 ls'.
Proof.
  intros Hwf Hk. unfold store_fixed.
  rewrite (proj2 (dict_contains_get _ _) Hk).
  destruct (full st) eqn:Hfull.
  - destruct (wf_evict _ _ key result Hwf Hfull Hk)
      as (a & ls' & st' & _ & -> & Hwf' & _).
    eexists. apply wf_count_miss, Hwf'.
  - eexists. simpl. apply wf_count_miss, wf_with_full.
    + by apply wf_insert.
    + by destruct ls.
Qed.

Lemma wf_store_memory threshold probe st ls key result :
  wf st ls → dict_get (cache st) key = None →
  ∃ ls', wf (store_memory threshold probe st key result).2 ls'.
Proof.
  intros Hwf Hk. unfold store_memory.
  rewrite (proj2 (dict_contains_get _ _) Hk).
  destruct (full st) eqn:Hfull.
  - destruct (wf_evict _ _ key result Hwf Hfull Hk)
      as (a & ls' & st' & _ & -> & Hwf' & _).
    eexists. apply wf_count_miss, Hwf'.
  - pose proof (wf_insert _ _ key result Hwf Hk) as Hwf'.
    destruct probe as [available|e]; eexists; simpl.
    + apply wf_count_miss, wf_with_full; [done | by destruct ls].
    + done.
Qed.

Lemma wf_wrapper_fixed maxsize typed st ls c :
  wf st ls → ∃ ls', wf (wrapper_fixed user_function maxsize typed st c).2 ls'.
Proof.
  intros Hwf. unfold wrapper_fixed.
  destruct (_make_key _ _ _) as [key|e]; [|by eexists].
  destruct (lookup st key) as [result st'|] eqn:E.
  - simpl. by eapply wf_lookup.
  - apply lookup_Miss in E.
    destruct (user_function _ _) as [result|e]; [|by eexists].
    by eapply wf_store_fixed.
Qed.

Lemma wf_wrapper_memory threshold typed st ls c :
  wf st ls →
  ∃ ls', wf (wrapper_memory user_function threshold typed st c).2 ls'.
Proof.
  intros Hwf. unfold wrapper_memory.
  destruct (_make_key _ _ _) as [key|e]; [|by eexists].
  destruct (lookup st key) as [result st'|] eqn:E.
  - simpl. by eapply wf_lookup.
  - apply lookup_Miss in E.
    destruct (user_function _ _) as [result|e]; [|by eexists].
    by eapply wf_store_memory.
Qed.

Lemma wf_wrapper_nocache st ls c :
  wf st ls → wf (wrapper_nocache user_function st c).2 ls.
Proof.
  intros Hwf. unfold wrapper_nocache.
  destruct (user_function _ _); simpl; [by apply wf_count_miss | done].
Qed.

Lemma d_wf_decorating_function cfg : d_wf (decorating_function cfg).
Proof.
  unfold decorating_function.
  case_bool_decide; [|destruct (maxsize cfg) as [[| |]|]]; simpl;
    try done; eexists; apply wf_fresh_state.
Qed.

Lemma d_wf_step d o : d_wf d → d_wf (step user_function d o).2.
Proof.
  destruct o as [c|], d as [m t st|st|t st|n t st]; simpl; try done.
  - intros [ls Hwf].
    destruct (wf_wrapper_memory m t st ls c Hwf) as [ls' Hwf'].
    destruct (wrapper_memory _ _ _ _ _). by exists ls'.
  - intros [ls Hwf].
    pose proof (wf_wrapper_nocache st ls c Hwf) as Hwf'.
    destruct (wrapper_nocache _ _ _). by exists ls.
  - by destruct (wrapper_unbounded _ _ _ _).
  - intros [ls Hwf].
    destruct (wf_wrapper_fixed n t st ls c Hwf) as [ls' Hwf'].
    destruct (wrapper_fixed _ _ _ _ _). by exists ls'.
  - intros [ls Hwf]. exists []. by eapply wf_cache_clear.
  - intros [ls Hwf]. exists []. by eapply wf_cache_clear.
  - intros [ls Hwf]. exists []. by eapply wf_cache_clear.
Qed.

Lemma d_wf_run d ops : d_wf d → d_wf (run user_function d ops).2.
Proof.
  revert d. induction ops as [|o ops IH]; intros d Hd; [done|].
  simpl. pose proof (d_wf_step d o Hd) as Hd'.
  destruct (step user_function d o) as [r d'].
  specialize (IH d' Hd').
  by destruct (run user_function d' ops).
Qed.
End preservation.

(** ** The list and the dictionary hold the same keys *)

Section list_and_map.
Variable user_function : list value → list (string * value) → outcome value.

Lemma policy_of_step d o : policy_of (step user_function d o).2 = policy_of d.
Proof.
  destruct o as [c|], d as [m t st|st|t st|n t st]; simpl; try done.
  - by destruct (wrapper_memory _ _ _ _ _).
  - by destruct (wrapper_nocache _ _ _).
  - by destruct (wrapper_unbounded _ _ _ _).
  - by destruct (wrapper_fixed _ _ _ _ _).
Qed.

Lemma policy_of_run d ops : policy_of (run user_function d ops).2 = policy_of d.
Proof.
  revert d. induction ops as [|o ops IH]; intros d; [done|].
  simpl. pose proof (policy_of_step d o) as Hs.
  destruct (step user_function d o) as [r d'].
  specialize (IH d'). destruct (run user_function d' ops). simpl in *.
  congruence.
Qed.

Lemma policy_of_decorating_function cfg :
  policy_of (decorating_function cfg) =
  if bool_decide (use_memory_up_to cfg ≠ 0) then MemoryPressure
  else match maxsize cfg with
       | Some 0 => Disabled
       | None => NoLimit
       | Some _ => FixedCapacity
       end.
Proof.
  unfold decorating_function.
  case_bool_decide; [done|]. by destruct (maxsize cfg) as [[| |]|].
Qed.

Lemma wf_list_matches_map (st : state addr) ls : wf st ls → list_matches_map st.
Proof.
  intros Hwf. pose proof Hwf as [(Hc & ND & _) Hp _ _].
  unfold list_matches_map, cache_keys.
  rewrite (wf_ring_keys _ _ Hwf), (wf_ring_links _ _ Hwf).
  split_and!.
  - rewrite Hp, map_map. done.
  - by rewrite (chain_last _ _ _ _ Hc).
  - split.
    + intros [Hn _]. destruct ls as [|a ls].
      * by apply Permutation_nil_r in Hp.
      * destruct Hc as (Ha & _). apply NoDup_cons in ND as [Hr _].
        exfalso. apply Hr. rewrite <- Ha, Hn. apply list_elem_of_here.
    + intros E. rewrite E in Hp. apply Permutation_nil in Hp.
      destruct ls; [|done]. exact Hc.
Qed.
End list_and_map.

(** C9, as amended.  Under every configuration but the unbounded one
    ([maxsize=None] without [use_memory_up_to]), after every sequence of
    calls and of [cache_clear()] on one thread: the keys met by walking the
    circular list from [root[NEXT]] are exactly the keys of the dictionary,
    as many times; the walk ends on [root[PREV]]; and [root[NEXT]] and
    [root[PREV]] are the root itself if and only if the dictionary is
    empty. *)
Theorem list_matches_map_after_run
    (user_function : list value → list (string * value) → outcome value)
    (cfg : config) (ops : list op) :
  maxsize cfg ≠ None ∨ use_memory_up_to cfg ≠ 0 →
  d_list_matches_map (run user_function (decorating_function cfg) ops).2.
Proof.
  intros Hcfg.
  pose proof (d_wf_run user_function _ ops (d_wf_decorating_function cfg)) as Hwf.
  pose proof (policy_of_run user_function (decorating_function cfg) ops) as Hp.
  rewrite policy_of_decorating_function in Hp.
  destruct (run user_function (decorating_function cfg) ops) as [rs d].
  simpl in *.
  destruct d as [m t st|st|t st|n t st]; simpl in *.
  - destruct Hwf as [ls Hwf]. by eapply wf_list_matches_map.
  - destruct Hwf as [ls Hwf]. by eapply wf_list_matches_map.
  - exfalso. case_bool_decide as E; [done|].
    destruct Hcfg as [Hm|Hu]; [|done].
    by destruct (maxsize cfg) as [[| |]|].
  - destruct Hwf as [ls Hwf]. by eapply wf_list_matches_map.
Qed.

Lemma list_matches_map_after_run_witness :
  (maxsize (Config (Some 2) false 0) ≠ None ∨
   use_memory_up_to (Config (Some 2) false 0) ≠ 0) ∧
  d_list_matches_map
    (run echo (decorating_function (Config (Some 2) false 0))
         [f 1; f 2; f 1; f 3; DoClear; f 2]).2.
Proof.
  split; [by left|].
  apply list_matches_map_after_run. by left.
Defined.

(** C9 fails as stated: the unbounded wrapper stores results in the
    dictionary and never links them, so after one call the dictionary has
    a key and the list is still empty. *)
Lemma list_matches_map_unbounded_fails :
  ¬ d_list_matches_map
      (run echo (decorating_function (Config None false 0)) [f 1]).2.
Proof.
  intros [H _]. vm_compute in H.
  by apply Permutation_nil_cons in H.
Qed.

(** ** What one call does to the recency order *)

Section recency_steps.
Variable user_function : list value → list (string * value) → outcome value.
Implicit Types (st : state addr) (ls : list addr).

Lemma wrapper_fixed_hit maxsize typed st c key a :
  _make_key (c_args c) (c_kwds c) typed = Return key →
  dict_get (cache st) key = Some a →
  wrapper_fixed user_function maxsize typed st c =
  (Return (RESULT (heap st !!! a)),
   count_hit (with_heap st (move_to_front (heap st) (root st) a))).
Proof. intros Hk Hg. unfold wrapper_fixed, lookup. by rewrite Hk, Hg. Qed.

Lemma wrapper_memory_hit threshold typed st c key a :
  _make_key (c_args c) (c_kwds c) typed = Return key →
  dict_get (cache st) key = Some a →
  wrapper_memory user_function threshold typed st c =
  (Return (RESULT (heap st !!! a)),
   count_hit (with_heap st (move_to_front (heap st) (root st) a))).
Proof. intros Hk Hg. unfold wrapper_memory, lookup. by rewrite Hk, Hg. Qed.

Lemma wrapper_fixed_miss maxsize typed st c key result :
  _make_key (c_args c) (c_kwds c) typed = Return key →
  dict_get (cache st) key = None →
  user_function (c_args c) (c_kwds c) = Return result →
  wrapper_fixed user_function maxsize typed st c =
  store_fixed maxsize st key result.
Proof.
  intros Hk Hg Hu. unfold wrapper_fixed, lookup. by rewrite Hk, Hg, Hu.
Qed.

Lemma wrapper_memory_miss threshold typed st c key result :
  _make_key (c_args c) (c_kwds c) typed = Return key →
  dict_get (cache st) key = None →
  user_function (c_args c) (c_kwds c) = Return result →
  wrapper_memory user_function threshold typed st c =
  store_memory threshold (c_probe c) st key result.
Proof.
  intros Hk Hg Hu. unfold wrapper_memory, lookup. by rewrite Hk, Hg, Hu.
Qed.

Lemma KEY_insert_state st key result x :
  KEY (heap (insert st key result) !!! x) =
  if decide (x = new_addr (heap st)) then key else KEY (heap st !!! x).
Proof. unfold insert. simpl. by store_simpl. Qed.

Lemma RESULT_insert_state st key result x :
  RESULT (heap (insert st key result) !!! x) =
  if decide (x = new_addr (heap st)) then result else RESULT (heap st !!! x).
Proof. unfold insert. simpl. by store_simpl. Qed.

Lemma wf_new_addr st ls x : wf st ls → x ∈ ls → x ≠ new_addr (heap st).
Proof.
  intros Hwf Hx ->. apply (new_addr_fresh (heap st)).
  apply Hwf. by apply list_elem_of_further.
Qed.

(** A new entry goes to the most recently used end. *)
Lemma ring_keys_insert st ls key result :
  wf st ls → dict_get (cache st) key = None →
  ring_keys (insert st key result) = ring_keys st ++ [key].
Proof.
  intros Hwf Hk.
  rewrite (wf_ring_keys _ _ (wf_insert _ _ key result Hwf Hk)).
  rewrite (wf_ring_keys _ _ Hwf), map_app. simpl. f_equal.
  - apply map_ext_in. intros x Hx%list_elem_of_In.
    unfold insert. simpl. store_cases. exfalso. by eapply wf_new_addr.
  - unfold insert. simpl. by store_cases.
Qed.

(** On a full cache the least recently used key leaves and the new key
    goes to the most recently used end. *)
Lemma ring_keys_evict st ls key result :
  wf st ls → full st = true → dict_get (cache st) key = None →
  ∃ st', evict st key result = (Return (), st') ∧
    wf st' (tail ls ++ [root st]) ∧
    ring_keys st' = tail (ring_keys st) ++ [key] ∧
    dom (heap st') = dom (heap st) ∧
    RESULT (heap st' !!! root st) = result ∧
    dict_get (cache st') key = Some (root st) ∧
    hits st' = hits st ∧ misses st' = misses st ∧ full st' = full st.
Proof.
  intros Hwf Hfull Hk.
  destruct (wf_evict _ _ key result Hwf Hfull Hk)
    as (a & ls' & st' & -> & Hev & Hwf' & Hroot & HK & HR & HKs & Hdom & Hh & Hm & Hf).
  exists st'. split_and!; try done.
  - rewrite (wf_ring_keys _ _ Hwf'), (wf_ring_keys _ _ Hwf), map_app. simpl.
    rewrite HK. f_equal. apply map_ext_in. intros x Hx%list_elem_of_In. auto.
  - apply dict_get_elem; [apply Hwf'|].
    apply (wf_entry _ _ _ _ Hwf'). split; [|done].
    apply elem_of_app. right. apply list_elem_of_here.
Qed.

(** A hit moves the key that was found to the most recently used end. *)
Lemma ring_keys_move_to_front st ls key a :
  wf st ls → dict_get (cache st) key = Some a →
  ∃ ks1 k ks2,
    ring_keys st = ks1 ++ k :: ks2 ∧ py_eq k key = true ∧
    ring_keys (with_heap st (move_to_front (heap st) (root st) a)) =
    ks1 ++ ks2 ++ [k].
Proof.
  intros Hwf Hg.
  destruct (wf_move_to_front _ _ _ _ Hwf Hg) as (l1 & l2 & -> & Hk & Hwf').
  exists (map (λ x, KEY (heap st !!! x)) l1), (KEY (heap st !!! a)),
    (map (λ x, KEY (heap st !!! x)) l2).
  split_and!; [|done|].
  - by rewrite (wf_ring_keys _ _ Hwf), map_app.
  - rewrite (wf_ring_keys _ _ Hwf'). simpl.
    rewrite !map_app. simpl. rewrite !KEY_move_to_front.
    by rewrite !(map_ext (λ x, KEY (move_to_front (heap st) (root st) a !!! x))
                        (λ x, KEY (heap st !!! x)))
      by (intros; apply KEY_move_to_front).
Qed.
End recency_steps.

(** ** Counters *)

Lemma evict_counters (st : state addr) key result o st' :
  evict st key result = (o, st') →
  hits st' = hits st ∧ misses st' = misses st.
Proof.
  unfold evict. destruct (dict_del _ _); intros [= <- <-]; done.
Qed.

Lemma store_fixed_counters maxsize (st : state addr) key result r st' :
  store_fixed maxsize st key result = (Return r, st') →
  hits st' = hits st ∧ misses st' = S (misses st).
Proof.
  unfold store_fixed.
  destruct (dict_contains _ _); [by intros [= <- <-]|].
  destruct (full st); [|by intros [= <- <-]].
  destruct (evict st key result) as [[[]|e] st''] eqn:E; [|done].
  intros [= <- <-]. apply evict_counters in E as [E1 E2].
    simpl. by rewrite E1, E2.
Qed.

Lemma store_memory_counters threshold probe (st : state addr) key result r st' :
  store_memory threshold probe st key result = (Return r, st') →
  hits st' = hits st ∧ misses st' = S (misses st).
Proof.
  unfold store_memory.
  destruct (dict_contains _ _); [by intros [= <- <-]|].
  destruct (full st).
  - destruct (evict st key result) as [[[]|e] st''] eqn:E; [|done].
    intros [= <- <-]. apply evict_counters in E as [E1 E2].
    simpl. by rewrite E1, E2.
  - destruct probe; [|done]. by intros [= <- <-].
Qed.

(** C10.  A call that completes without an exception increases exactly
    one of [hits] and [misses], by one, and leaves the other as it was:
    this holds for the wrapper of every configuration run on any state
    (first part); the [maxsize == 0] wrapper always counts a miss (second
    part); and the second locked block of the size-limited wrappers, run on
    any state, counts a miss and nothing else, also when it finds that the
    key was inserted while the lock was released, where it leaves the
    store as it is (third and fourth parts). *)
Theorem one_counter_per_call
    (user_function : list value → list (string * value) → outcome value) :
  (∀ d c r d', wrapper user_function d c = (Return r, d') →
     (ci_hits (cache_info d') = S (ci_hits (cache_info d)) ∧
      ci_misses (cache_info d') = ci_misses (cache_info d)) ∨
     (ci_hits (cache_info d') = ci_hits (cache_info d) ∧
      ci_misses (cache_info d') = S (ci_misses (cache_info d)))) ∧
  (∀ (st : state addr) c r st',
     wrapper_nocache user_function st c = (Return r, st') →
     hits st' = hits st ∧ misses st' = S (misses st)) ∧
  (∀ maxsize (st : state addr) key result r st',
     store_fixed maxsize st key result = (Return r, st') →
     hits st' = hits st ∧ misses st' = S (misses st) ∧
     (dict_contains (cache st) key = true → r = result ∧ st' = count_miss st)) ∧
  (∀ threshold probe (st : state addr) key result r st',
     store_memory threshold probe st key result = (Return r, st') →
     hits st' = hits st ∧ misses st' = S (misses st) ∧
     (dict_contains (cache st) key = true → r = result ∧ st' = count_miss st)).
Proof.
  split_and!.
  - intros d c r d'.
    destruct d as [m t st|st|t st|n t st]; simpl.
    + unfold wrapper_memory.
      destruct (_make_key _ _ _) as [key|e]; [|done].
      unfold lookup. destruct (dict_get _ _) as [a|].
      * intros [= <- <-]. left. done.
      * destruct (user_function _ _) as [result|e]; [|done].
        destruct (store_memory _ _ _ _ _) as [o st'] eqn:E.
        intros [= -> <-]. apply store_memory_counters in E as [E1 E2].
        right. simpl. by rewrite E1, E2.
    + unfold wrapper_nocache.
      destruct (user_function _ _) as [result|e]; [|done].
      intros [= <- <-]. right. done.
    + unfold wrapper_unbounded.
      destruct (_make_key _ _ _) as [key|e]; [|done].
      destruct (dict_get _ _) as [a|].
      * intros [= <- <-]. left. done.
      * destruct (user_function _ _) as [result|e]; [|done].
        intros [= <- <-]. right. done.
    + unfold wrapper_fixed.
      destruct (_make_key _ _ _) as [key|e]; [|done].
      unfold lookup. destruct (dict_get _ _) as [a|].
      * intros [= <- <-]. left. done.
      * destruct (user_function _ _) as [result|e]; [|done].
        destruct (store_fixed _ _ _ _) as [o st'] eqn:E.
        intros [= -> <-]. apply store_fixed_counters in E as [E1 E2].
        right. simpl. by rewrite E1, E2.
  - intros st c r st'. unfold wrapper_nocache.
    destruct (user_function _ _) as [result|e]; [|done].
    by intros [= <- <-].
  - intros maxsize st key result r st' E.
    destruct (store_fixed_counters _ _ _ _ _ _ E) as [E1 E2].
    split_and!; [done..|]. intros Hc. unfold store_fixed in E.
    rewrite Hc in E. by injection E as <- <-.
  - intros threshold probe st key result r st' E.
    destruct (store_memory_counters _ _ _ _ _ _ _ E) as [E1 E2].
    split_and!; [done..|]. intros Hc. unfold store_memory in E.
    rewrite Hc in E. by injection E as <- <-.
Qed.

Lemma one_counter_per_call_witness :
  wrapper echo (decorating_function (Config (Some 2) false 0))
          (Call [VInt 1] [] (Return 0)) =
  (Return (VTuple [VInt 1]),
   (run echo (decorating_function (Config (Some 2) false 0)) [f 1]).2) ∧
  ((ci_hits (cache_info
      (run echo (decorating_function (Config (Some 2) false 0)) [f 1]).2) =
    S (ci_hits (cache_info (decorating_function (Config (Some 2) false 0)))) ∧
    ci_misses (cache_info
      (run echo (decorating_function (Config (Some 2) false 0)) [f 1]).2) =
    ci_misses (cache_info (decorating_function (Config (Some 2) false 0)))) ∨
   (ci_hits (cache_info
      (run echo (decorating_function (Config (Some 2) false 0)) [f 1]).2) =
    ci_hits (cache_info (decorating_function (Config (Some 2) false 0))) ∧
    ci_misses (cache_info
      (run echo (decorating_function (Config (Some 2) false 0)) [f 1]).2) =
    S (ci_misses (cache_info (decorating_function (Config (Some 2) false 0)))))).
Proof.
  split; [by vm_compute|].
  apply (proj1 (one_counter_per_call echo) _ (Call [VInt 1] [] (Return 0))
               (VTuple [VInt 1])).
  by vm_compute.
Defined.

(** ** Failures *)

(** C5.  If the decorated function raises on a miss, under any
    configuration and in any state, the wrapper raises the same exception
    and the state after the call is the state before it: nothing is
    inserted and neither counter moves. *)
Theorem compute_failure_leaves_state
    (user_function : list value → list (string * value) → outcome value)
    (d : decorated) (c : call) (e : exn) :
  is_miss d c = true →
  user_function (c_args c) (c_kwds c) = Raise e →
  wrapper user_function d c = (Raise e, d).
Proof.
  intros Hm Hu.
  destruct d as [m t st|st|t st|n t st]; simpl in *.
  - unfold wrapper_memory, lookup.
    destruct (_make_key _ _ _) as [key|]; [|done].
    apply negb_true_iff, dict_contains_get in Hm. by rewrite Hm, Hu.
  - unfold wrapper_nocache. by rewrite Hu.
  - unfold wrapper_unbounded.
    destruct (_make_key _ _ _) as [key|]; [|done].
    apply negb_true_iff, dict_contains_get in Hm. by rewrite Hm, Hu.
  - unfold wrapper_fixed, lookup.
    destruct (_make_key _ _ _) as [key|]; [|done].
    apply negb_true_iff, dict_contains_get in Hm. by rewrite Hm, Hu.
Qed.

Lemma compute_failure_leaves_state_witness :
  is_miss (decorating_function (Config (Some 2) false 0))
          (Call [VInt 1] [] (Return 0)) = true ∧
  failing [VInt 1] [] = Raise (Exn "ValueError") ∧
  wrapper failing (decorating_function (Config (Some 2) false 0))
          (Call [VInt 1] [] (Return 0)) =
  (Raise (Exn "ValueError"), decorating_function (Config (Some 2) false 0)).
Proof.
  split_and!; [by vm_compute | done |].
  apply compute_failure_leaves_state; [by vm_compute | done].
Defined.

(** *** Unhashable arguments *)

Lemma insert_item_Permutation x l : insert_item x l ≡ₚ x :: l.
Proof.
  induction l as [|y l IH]; simpl; [done|].
  destruct (String.leb _ _); [done|]. rewrite IH. apply Permutation_swap.
Qed.

Lemma sorted_Permutation items : sorted items ≡ₚ items.
Proof.
  induction items as [|x items IH]; simpl; [done|].
  by rewrite insert_item_Permutation, IH.
Qed.

Lemma fold_left_items (items : list (string * value)) (init : list value) :
  fold_left (λ key item, key ++ [VStr item.1; item.2]) items init =
  init ++ flat_map (λ item, [VStr item.1; item.2]) items.
Proof.
  revert init. induction items as [|x items IH]; intros init; simpl.
  - by rewrite app_nil_r.
  - by rewrite IH, <- app_assoc.
Qed.

Lemma _HashedSeq_unhashable tup v :
  v ∈ tup → hashable v = false → _HashedSeq tup = Raise TypeError.
Proof.
  intros Hin Hv. unfold _HashedSeq.
  destruct (forallb hashable tup) eqn:E; [|done].
  rewrite forallb_forall in E. rewrite (E v) in Hv; [done|].
  by apply list_elem_of_In.
Qed.

Lemma unhashable_not_fast v :
  hashable v = false → bool_decide (py_type v ∈ fasttypes) = false.
Proof. by destruct v. Qed.

Lemma _make_key_unhashable args kwds typed v :
  v ∈ args ++ map snd kwds → hashable v = false →
  _make_key args kwds typed = Raise TypeError.
Proof.
  intros Hin Hv. unfold _make_key.
  set (key := match kwds with [] => args | _ => _ end).
  assert (v ∈ key) as Hkey.
  { subst key. destruct kwds as [|item kwds].
    - by rewrite app_nil_r in Hin.
    - rewrite fold_left_items.
      apply elem_of_app in Hin as [Hin|Hin].
      + apply elem_of_app. left. apply elem_of_app. by left.
      + apply elem_of_app. right.
        apply list_elem_of_fmap in Hin as ([name v'] & -> & Hin).
        rewrite <- (sorted_Permutation (item :: kwds)) in Hin.
        apply list_elem_of_In, in_flat_map. exists (name, v').
        split; [by apply list_elem_of_In | simpl; auto]. }
  destruct typed.
  - apply (_HashedSeq_unhashable _ v); [|done].
    destruct kwds; repeat (apply elem_of_app; left); done.
  - destruct key as [|k0 [|k1 key]];
      try by apply (_HashedSeq_unhashable _ v).
    apply list_elem_of_singleton in Hkey as <-.
    rewrite (unhashable_not_fast _ Hv).
    apply (_HashedSeq_unhashable _ v); [apply list_elem_of_here | done].
Qed.

(** C6, as amended.  A call with an unhashable argument: under every
    configuration whose wrapper builds a key (all but [maxsize == 0]),
    building the key raises [TypeError], the wrapper raises it at once and
    the state is untouched; the [maxsize == 0] wrapper builds no key, so the
    call goes on to the decorated function and, when that returns, is
    counted as a miss. *)
Theorem unhashable_argument
    (user_function : list value → list (string * value) → outcome value)
    (d : decorated) (c : call) (v : value) :
  v ∈ arguments c → hashable v = false →
  (policy_of d ≠ Disabled →
   wrapper user_function d c = (Raise TypeError, d)) ∧
  (policy_of d = Disabled → ∀ r,
   user_function (c_args c) (c_kwds c) = Return r →
   ∃ d', wrapper user_function d c = (Return r, d') ∧
     ci_hits (cache_info d') = ci_hits (cache_info d) ∧
     ci_misses (cache_info d') = S (ci_misses (cache_info d))).
Proof.
  intros Hin Hv. unfold arguments in Hin. split.
  - intros Hp. destruct d as [m t st|st|t st|n t st]; simpl in *; try done.
    + unfold wrapper_memory.
      by rewrite (_make_key_unhashable _ _ _ _ Hin Hv).
    + unfold wrapper_unbounded.
      by rewrite (_make_key_unhashable _ _ _ _ Hin Hv).
    + unfold wrapper_fixed.
      by rewrite (_make_key_unhashable _ _ _ _ Hin Hv).
  - intros Hp r Hu. destruct d as [m t st|st|t st|n t st]; try done.
    simpl. unfold wrapper_nocache. rewrite Hu. by eexists.
Qed.

Lemma unhashable_argument_witness :
  VList [] ∈ arguments (Call [VInt 1; VList []] [] (Return 0)) ∧
  hashable (VList []) = false ∧
  policy_of (decorating_function (Config (Some 2) false 0)) ≠ Disabled ∧
  wrapper echo (decorating_function (Config (Some 2) false 0))
          (Call [VInt 1; VList []] [] (Return 0)) =
  (Raise TypeError, decorating_function (Config (Some 2) false 0)).
Proof.
  assert (VList [] ∈ arguments (Call [VInt 1; VList []] [] (Return 0))) as Hin.
  { apply list_elem_of_further, list_elem_of_here. }
  split_and!; [done | done | by vm_compute |].
  apply (unhashable_argument echo _ _ (VList []) Hin); [done | by vm_compute].
Defined.

(** C6 fails as stated: with [maxsize=0] a call on a list, which is
    unhashable, raises nothing; it returns and is counted as a miss. *)
Lemma unhashable_argument_disabled_returns :
  hashable (VList []) = false ∧
  ∃ d', wrapper echo (decorating_function (Config (Some 0) false 0))
                (Call [VList []] [] (Return 0)) =
        (Return (VTuple [VList []]), d') ∧
    ci_misses (cache_info d') = 1%nat.
Proof. split; [done|]. eexists. split; [by vm_compute | done]. Qed.

(** *** Failure of the memory probe *)

(** C7, as amended.  Under [use_memory_up_to], take a call during which the
    query of the available memory would raise [e].  The query is made in one
    case only: a miss (the key is built and absent, the decorated function
    returns) on a cache that is not full, after the new entry has been
    linked and stored.  In that case the exception propagates to the caller
    of the wrapper: the entry stays inserted, [full] keeps its value and
    neither counter moves; the cache remains usable: a later call with the
    same arguments is a hit that returns the computed result.  In every
    other case (the key cannot be built, a hit, the decorated function
    raises, or a miss on a full cache, which evicts) the memory is not
    queried: the call does what it does with any other outcome of the
    query.  And on a well-formed store, once the key is built and the
    decorated function has returned, the wrapper raises in no other case
    and with no other exception. *)
Theorem probe_failure_propagates
    (user_function : list value → list (string * value) → outcome value)
    (threshold : Z) (typed : bool) (st : state addr) (c : call) (e : exn) :
  c_probe c = Raise e →
  let queried :=
    ∃ key result,
      _make_key (c_args c) (c_kwds c) typed = Return key ∧
      dict_get (cache st) key = None ∧
      user_function (c_args c) (c_kwds c) = Return result ∧
      full st = false in
  (∀ key result,
     _make_key (c_args c) (c_kwds c) typed = Return key →
     dict_get (cache st) key = None →
     user_function (c_args c) (c_kwds c) = Return result →
     full st = false →
     wrapper_memory user_function threshold typed st c =
       (Raise e, insert st key result) ∧
     dict_contains (cache (insert st key result)) key = true ∧
     full (insert st key result) = false ∧
     hits (insert st key result) = hits st ∧
     misses (insert st key result) = misses st ∧
     ∀ c', c_args c' = c_args c → c_kwds c' = c_kwds c →
       ∃ st', wrapper_memory user_function threshold typed
                             (insert st key result) c' = (Return result, st') ∧
         hits st' = S (hits st) ∧ misses st' = misses st) ∧
  (¬ queried →
   ∀ p, wrapper_memory user_function threshold typed st
                       (Call (c_args c) (c_kwds c) p) =
        wrapper_memory user_function threshold typed st c) ∧
  (∀ ls key result e' st',
     wf st ls →
     _make_key (c_args c) (c_kwds c) typed = Return key →
     user_function (c_args c) (c_kwds c) = Return result →
     wrapper_memory user_function threshold typed st c = (Raise e', st') →
     e' = e ∧ queried ∧ st' = insert st key result).
Proof.
  intros Hp queried. split_and!.
  - intros key result Hk Hg Hu Hf.
    assert (dict_get (cache (insert st key result)) key =
            Some (new_addr (heap st))) as Hg'.
    { unfold insert. simpl. apply dict_get_set. }
    split_and!; try done.
    + rewrite (wrapper_memory_miss _ _ _ _ _ _ _ Hk Hg Hu).
      unfold store_memory.
      rewrite (proj2 (dict_contains_get _ _) Hg), Hf, Hp. done.
    + unfold dict_contains. by rewrite Hg'.
    + intros c' Ha Hkw. eexists. split.
      * rewrite (wrapper_memory_hit _ _ _ _ _ key (new_addr (heap st)));
          [|by rewrite Ha, Hkw|done].
        by rewrite RESULT_insert_state, decide_True.
      * done.
  - intros Hnot p. unfold wrapper_memory, lookup. simpl.
    destruct (_make_key _ _ _) as [key|] eqn:Hk; [|done].
    destruct (dict_get (cache st) key) as [a|] eqn:Hg; [done|].
    destruct (user_function _ _) as [result|] eqn:Hu; [|done].
    unfold store_memory. rewrite (proj2 (dict_contains_get _ _) Hg).
    destruct (full st) eqn:Hf; [done|].
    destruct Hnot. by exists key, result.
  - intros ls key result e' st' Hwf Hk Hu Hw.
    destruct (dict_get (cache st) key) as [a|] eqn:Hg.
    { by rewrite (wrapper_memory_hit _ _ _ _ _ _ _ Hk Hg) in Hw. }
    pose proof (proj2 (dict_contains_get _ _) Hg) as Hc.
    destruct (full st) eqn:Hf.
    { destruct (ring_keys_evict _ _ key result Hwf Hf Hg) as (st2 & Hev & _).
      rewrite (wrapper_memory_miss _ _ _ _ _ _ _ Hk Hg Hu) in Hw.
      unfold store_memory in Hw. by rewrite Hc, Hf, Hev in Hw. }
    rewrite (wrapper_memory_miss _ _ _ _ _ _ _ Hk Hg Hu) in Hw.
    unfold store_memory in Hw. rewrite Hc, Hf, Hp in Hw.
    injection Hw as <- <-. split_and!; [done | | done].
    by exists key, result.
Qed.

Lemma probe_failure_propagates_witness :
  wrapper_memory echo 100 false fresh_state
                 (Call [VInt 1] [] (Raise (Exn "OSError"))) =
  (Raise (Exn "OSError"), insert fresh_state (VInt 1) (VTuple [VInt 1])) ∧
  ∀ p, wrapper_memory echo 100 false
         (wrapper_memory echo 100 false fresh_state
                         (Call [VInt 1] [] (Return 50))).2
         (Call [VInt 2] [] p) =
       wrapper_memory echo 100 false
         (wrapper_memory echo 100 false fresh_state
                         (Call [VInt 1] [] (Return 50))).2
         (Call [VInt 2] [] (Raise (Exn "OSError"))).
Proof.
  split.
  - destruct (probe_failure_propagates echo 100 false fresh_state
                (Call [VInt 1] [] (Raise (Exn "OSError"))) (Exn "OSError")
                eq_refl) as [H _].
    destruct (H (VInt 1) (VTuple [VInt 1]) eq_refl eq_refl eq_refl eq_refl)
      as [Hw _].
    exact Hw.
  - destruct (probe_failure_propagates echo 100 false
                (wrapper_memory echo 100 false fresh_state
                                (Call [VInt 1] [] (Return 50))).2
                (Call [VInt 2] [] (Raise (Exn "OSError"))) (Exn "OSError")
                eq_refl) as (_ & H & _).
    apply H. intros (key & result & _ & _ & _ & Hf). discriminate Hf.
Defined.

(** C7 fails as stated: the wrapper has no handler around the query, so an
    exception raised by it reaches the caller. *)
Lemma probe_failure_reaches_caller :
  (wrapper echo (decorating_function (Config None false 100))
           (Call [VInt 1] [] (Raise (Exn "OSError")))).1 =
  Raise (Exn "OSError").
Proof. by vm_compute. Qed.

(** ** Repeated calls *)

Section repeated.
Variable user_function : list value → list (string * value) → outcome value.

Lemma d_key_step d o c : d_key (step user_function d o).2 c = d_key d c.
Proof.
  destruct o as [c'|], d as [m t st|st|t st|n t st]; simpl; try done.
  - by destruct (wrapper_memory _ _ _ _ _).
  - by destruct (wrapper_nocache _ _ _).
  - by destruct (wrapper_unbounded _ _ _ _).
  - by destruct (wrapper_fixed _ _ _ _ _).
Qed.


(** A call whose key has a stored result is a hit that returns it. *)
Lemma cached_is_hit d c key v :
  d_key d c = Some (Return key) → d_cached d key v →
  ∃ d', wrapper user_function d c = (Return v, d') ∧
    d_cached d' key v ∧
    ci_hits (cache_info d') = S (ci_hits (cache_info d)) ∧
    ci_misses (cache_info d') = ci_misses (cache_info d) ∧
    ci_currsize (cache_info d') = ci_currsize (cache_info d).
Proof.
  destruct d as [m t st|st|t st|n t st]; simpl; try done.
  - intros [= Hk] (a & Hg & HR). eexists. split_and!.
    + rewrite (wrapper_memory_hit _ _ _ _ _ _ _ Hk Hg), HR. done.
    + exists a. simpl. by rewrite RESULT_move_to_front.
    + done.
    + done.
    + done.
  - intros [= Hk] Hg. eexists. split_and!.
    + unfold wrapper_unbounded. rewrite Hk, Hg. done.
    + done.
    + done.
    + done.
    + done.
  - intros [= Hk] (a & Hg & HR). eexists. split_and!.
    + rewrite (wrapper_fixed_hit _ _ _ _ _ _ _ Hk Hg), HR. done.
    + exists a. simpl. by rewrite RESULT_move_to_front.
    + done.
    + done.
    + done.
Qed.


Lemma d_key_wrapper d c c' :
  d_key (wrapper user_function d c).2 c' = d_key d c'.
Proof. apply (d_key_step d (DoCall c)). Qed.

End repeated.

Lemma miss_is_counted
    (user_function : list value → list (string * value) → outcome value)
    (d : decorated) (c : call) (v : value) (d' : decorated) :
  is_miss d c = true →
  wrapper user_function d c = (Return v, d') →
  user_function (c_args c) (c_kwds c) = Return v ∧
  ci_hits (cache_info d') = ci_hits (cache_info d) ∧
  ci_misses (cache_info d') = S (ci_misses (cache_info d)).
Proof.
  destruct d as [m t st|st|t st|n t st]; simpl.
  - unfold wrapper_memory, lookup.
    destruct (_make_key _ _ _) as [key|]; [|done].
    intros Hg%negb_true_iff. pose proof Hg as Hg'%dict_contains_get.
    rewrite Hg'. destruct (user_function _ _) as [result|]; [|done].
    unfold store_memory. rewrite Hg.
    destruct (full st).
    + destruct (evict st key result) as [[[]|] st'] eqn:E; [|done].
      apply evict_counters in E as [E1 E2].
      intros [= <- <-]. simpl. by rewrite E1, E2.
    + destruct (c_probe c); [|done]. by intros [= <- <-].
  - unfold wrapper_nocache.
    destruct (user_function _ _) as [result|]; [|done].
    by intros _ [= <- <-].
  - unfold wrapper_unbounded.
    destruct (_make_key _ _ _) as [key|]; [|done].
    intros Hg%negb_true_iff%dict_contains_get. rewrite Hg.
    destruct (user_function _ _) as [result|]; [|done].
    by intros [= <- <-].
  - unfold wrapper_fixed, lookup.
    destruct (_make_key _ _ _) as [key|]; [|done].
    intros Hg%negb_true_iff. pose proof Hg as Hg'%dict_contains_get.
    rewrite Hg'. destruct (user_function _ _) as [result|]; [|done].
    unfold store_fixed. rewrite Hg.
    destruct (full st).
    + destruct (evict st key result) as [[[]|] st'] eqn:E; [|done].
      apply evict_counters in E as [E1 E2].
      intros [= <- <-]. simpl. by rewrite E1, E2.
    + by intros [= <- <-].
Qed.

(** ** Typed and untyped keys *)

Lemma dict_get_py_eq {V} (d : list (value * V)) k1 k2 :
  py_eq k1 k2 = true → dict_get d k1 = dict_get d k2.
Proof.
  intros E. induction d as [|[k' v'] d IH]; simpl; [done|].
  destruct (py_eq k' k1) eqn:E1.
  - by rewrite (py_eq_trans _ _ _ E1 E).
  - destruct (py_eq k' k2) eqn:E2; [|done].
    rewrite py_eq_sym in E. by rewrite (py_eq_trans _ _ _ E2 E) in E1.
Qed.

Section first_calls.
Variable user_function : list value → list (string * value) → outcome value.

(** The first call after decoration, when the key can be built, the
    decorated function returns and the memory probe answers. *)
Lemma first_call cfg c key r available :
  d_key (decorating_function cfg) c = Some (Return key) →
  user_function (c_args c) (c_kwds c) = Return r →
  c_probe c = Return available →
  ∃ d1, wrapper user_function (decorating_function cfg) c = (Return r, d1) ∧
    d_cached d1 key r ∧
    (∀ key', d_contains d1 key' = py_eq key key') ∧
    ci_hits (cache_info d1) = 0%nat ∧ ci_misses (cache_info d1) = 1%nat ∧
    ci_currsize (cache_info d1) = 1%nat.
Proof.
  unfold decorating_function.
  case_bool_decide; [|destruct (maxsize cfg) as [[| |]|]]; simpl; try done.
  - intros [= Hk] Hu Hp. unfold wrapper_memory. rewrite Hk, Hu. simpl.
    rewrite Hp. eexists. split_and!; [done | | | done..].
    + eexists. simpl. rewrite py_eq_refl. split; [done|]. by store_cases.
    + intros key'. simpl. unfold dict_contains. simpl.
      by destruct (py_eq key key').
  - intros [= Hk] Hu Hp. unfold wrapper_fixed. rewrite Hk, Hu. simpl.
    eexists. split_and!; [done | | | done..].
    + eexists. simpl. rewrite py_eq_refl. split; [done|]. by store_cases.
    + intros key'. simpl. unfold dict_contains. simpl.
      by destruct (py_eq key key').
  - intros [= Hk] Hu Hp. unfold wrapper_fixed. rewrite Hk, Hu. simpl.
    eexists. split_and!; [done | | | done..].
    + eexists. simpl. rewrite py_eq_refl. split; [done|]. by store_cases.
    + intros key'. simpl. unfold dict_contains. simpl.
      by destruct (py_eq key key').
  - intros [= Hk] Hu Hp. unfold wrapper_unbounded. rewrite Hk, Hu. simpl.
    eexists. split_and!; [done | | | done..].
    + simpl. by rewrite py_eq_refl.
    + intros key'. simpl. unfold dict_contains. simpl.
      by destruct (py_eq key key').
Qed.

(** A miss returns what the decorated function returns, when the memory
    probe answers. *)
Lemma miss_returns d c r available :
  d_wf d → is_miss d c = true →
  user_function (c_args c) (c_kwds c) = Return r →
  c_probe c = Return available →
  ∃ d', wrapper user_function d c = (Return r, d').
Proof.
  intros Hwf Hm Hu Hp.
  destruct d as [m t st|st|t st|n t st]; simpl in *.
  - destruct Hwf as [ls Hwf].
    destruct (_make_key _ _ _) as [key|] eqn:Hk; [|done].
    apply negb_true_iff in Hm. pose proof Hm as Hg%dict_contains_get.
    rewrite (wrapper_memory_miss _ _ _ _ _ _ _ Hk Hg Hu).
    unfold store_memory. rewrite Hm, Hp.
    destruct (full st) eqn:Hf; [|by eexists].
    destruct (ring_keys_evict _ _ key r Hwf Hf Hg) as (st' & -> & _).
    by eexists.
  - unfold wrapper_nocache. rewrite Hu. by eexists.
  - unfold wrapper_unbounded.
    destruct (_make_key _ _ _) as [key|] eqn:Hk; [|done].
    apply negb_true_iff, dict_contains_get in Hm. rewrite Hm, Hu. by eexists.
  - destruct Hwf as [ls Hwf].
    destruct (_make_key _ _ _) as [key|] eqn:Hk; [|done].
    apply negb_true_iff in Hm. pose proof Hm as Hg%dict_contains_get.
    rewrite (wrapper_fixed_miss _ _ _ _ _ _ _ Hk Hg Hu).
    unfold store_fixed. rewrite Hm.
    destruct (full st) eqn:Hf; [|by eexists].
    destruct (ring_keys_evict _ _ key r Hwf Hf Hg) as (st' & -> & _).
    by eexists.
Qed.

Lemma d_wf_wrapper d c : d_wf d → d_wf (wrapper user_function d c).2.
Proof. apply (d_wf_step user_function d (DoCall c)). Qed.

Lemma is_miss_spec d c key :
  d_key d c = Some (Return key) → is_miss d c = negb (d_contains d key).
Proof. destruct d; simpl; try done; by intros [= ->]. Qed.

(** Two calls after decoration whose keys differ are two misses. *)
Lemma two_misses cfg c1 c2 key1 key2 r1 r2 b1 b2 :
  d_key (decorating_function cfg) c1 = Some (Return key1) →
  d_key (decorating_function cfg) c2 = Some (Return key2) →
  py_eq key1 key2 = false →
  user_function (c_args c1) (c_kwds c1) = Return r1 →
  user_function (c_args c2) (c_kwds c2) = Return r2 →
  c_probe c1 = Return b1 → c_probe c2 = Return b2 →
  ∃ d2, run user_function (decorating_function cfg) [DoCall c1; DoCall c2] =
        ([Return r1; Return r2], d2) ∧
    ci_hits (cache_info d2) = 0%nat ∧ ci_misses (cache_info d2) = 2%nat.
Proof.
  intros Hk1 Hk2 Hne Hu1 Hu2 Hp1 Hp2.
  destruct (first_call _ _ _ _ _ Hk1 Hu1 Hp1)
    as (d1 & Hw1 & _ & Hc1 & Hh1 & Hm1 & _).
  pose proof (d_wf_wrapper _ c1 (d_wf_decorating_function cfg)) as Hwf1.
  pose proof (d_key_wrapper user_function (decorating_function cfg) c1 c2)
    as Hk2'.
  rewrite Hw1 in Hwf1, Hk2'. simpl in Hwf1, Hk2'. rewrite Hk2 in Hk2'.
  assert (is_miss d1 c2 = true) as Hmiss.
  { by rewrite (is_miss_spec _ _ _ Hk2'), Hc1, Hne. }
  destruct (miss_returns _ _ _ _ Hwf1 Hmiss Hu2 Hp2) as (d2 & Hw2).
  destruct (miss_is_counted _ _ _ _ _ Hmiss Hw2) as (_ & Hh2 & Hm2).
  exists d2. simpl. rewrite Hw1, Hw2. split_and!; [done | lia | lia].
Qed.

(** Two calls after decoration whose keys are equal are a miss and a hit,
    and the second returns what the first stored. *)
Lemma miss_then_hit cfg c1 c2 key1 key2 r1 b1 :
  policy_of (decorating_function cfg) ≠ Disabled →
  d_key (decorating_function cfg) c1 = Some (Return key1) →
  d_key (decorating_function cfg) c2 = Some (Return key2) →
  py_eq key1 key2 = true →
  user_function (c_args c1) (c_kwds c1) = Return r1 →
  c_probe c1 = Return b1 →
  ∃ d2, run user_function (decorating_function cfg) [DoCall c1; DoCall c2] =
        ([Return r1; Return r1], d2) ∧
    ci_hits (cache_info d2) = 1%nat ∧ ci_misses (cache_info d2) = 1%nat ∧
    ci_currsize (cache_info d2) = 1%nat.
Proof.
  intros Hp Hk1 Hk2 He Hu1 Hp1.
  destruct (first_call _ _ _ _ _ Hk1 Hu1 Hp1)
    as (d1 & Hw1 & Hc & _ & Hh1 & Hm1 & Hs1).
  pose proof (d_key_wrapper user_function (decorating_function cfg) c1 c2)
    as Hk2'.
  rewrite Hw1 in Hk2'. simpl in Hk2'. rewrite Hk2 in Hk2'.
  assert (d_cached d1 key2 r1) as Hc2.
  { destruct d1; simpl in *; try done;
      by rewrite <- (dict_get_py_eq _ _ _ He). }
  destruct (cached_is_hit user_function _ _ _ _ Hk2' Hc2)
    as (d2 & Hw2 & _ & Hh2 & Hm2 & Hs2).
  exists d2. simpl. rewrite Hw1, Hw2. split_and!; [done | lia | lia | lia].
Qed.
End first_calls.

(** C8, as amended.  [3 == 3.0], and yet [f(3)] and [f(3.0)] never share a
    cache entry.  With [typed=True] the keys carry the types [int] and
    [float] and differ.  With [typed=False] the key of [f(3)] is the bare
    [3] (a single argument of a fast type) while the key of [f(3.0)] is a
    [_HashedSeq], and the two are not equal.  So under every configuration
    and either value of [typed] the second call is a miss.  Equal arguments
    do collide with [typed=False] when both keys are [_HashedSeq]:
    [f(3, 0)] followed by [f(3.0, 0)] is a miss and then a hit that returns
    the result stored by the first call; with [typed=True] it is two
    misses. *)
Theorem typed_and_untyped_keys
    (user_function : list value → list (string * value) → outcome value)
    (cfg : config) (b1 b2 : Z) :
  py_eq (VInt 3) (VFloat 3 0) = true ∧
  (∃ k1 k2,
     _make_key [VInt 3] [] (typed cfg) = Return k1 ∧
     _make_key [VFloat 3 0] [] (typed cfg) = Return k2 ∧
     py_eq k1 k2 = false) ∧
  (∀ r1 r2,
     user_function [VInt 3] [] = Return r1 →
     user_function [VFloat 3 0] [] = Return r2 →
     ∃ d2,
       run user_function (decorating_function cfg)
           [DoCall (Call [VInt 3] [] (Return b1));
            DoCall (Call [VFloat 3 0] [] (Return b2))] =
       ([Return r1; Return r2], d2) ∧
       ci_hits (cache_info d2) = 0%nat ∧ ci_misses (cache_info d2) = 2%nat) ∧
  (policy_of (decorating_function cfg) ≠ Disabled →
   ∀ r1 r2,
     user_function [VInt 3; VInt 0] [] = Return r1 →
     user_function [VFloat 3 0; VInt 0] [] = Return r2 →
     ∃ d2,
       run user_function (decorating_function cfg)
           [DoCall (Call [VInt 3; VInt 0] [] (Return b1));
            DoCall (Call [VFloat 3 0; VInt 0] [] (Return b2))] =
       ([Return r1; Return (if typed cfg then r2 else r1)], d2) ∧
       ci_hits (cache_info d2) = (if typed cfg then 0 else 1)%nat ∧
       ci_misses (cache_info d2) = (if typed cfg then 2 else 1)%nat).
Proof.
  split_and!.
  - done.
  - destruct (typed cfg); eexists _, _; split_and!; done.
  - intros r1 r2 Hu1 Hu2.
    destruct (decide (policy_of (decorating_function cfg) = Disabled)) as [Hd|Hd].
    + assert (decorating_function cfg = NoCache fresh_state) as ->.
      { revert Hd. unfold decorating_function.
        case_bool_decide; [done|]. by destruct (maxsize cfg) as [[| |]|]. }
      simpl. unfold wrapper_nocache. simpl. rewrite Hu1.
      simpl. unfold wrapper_nocache. simpl. rewrite Hu2. by eexists.
    + assert (∀ c, d_key (decorating_function cfg) c =
                   Some (_make_key (c_args c) (c_kwds c) (typed cfg))) as Hk.
      { intros c. revert Hd. unfold decorating_function.
        case_bool_decide; [done|]. by destruct (maxsize cfg) as [[| |]|]. }
      destruct (typed cfg) eqn:Ht.
      * eapply two_misses; rewrite ?Hk, ?Ht; try done.
      * eapply two_misses; rewrite ?Hk, ?Ht; try done.
  - intros Hd r1 r2 Hu1 Hu2.
    assert (∀ c, d_key (decorating_function cfg) c =
                 Some (_make_key (c_args c) (c_kwds c) (typed cfg))) as Hk.
    { intros c. revert Hd. unfold decorating_function.
      case_bool_decide; [done|]. by destruct (maxsize cfg) as [[| |]|]. }
    destruct (typed cfg) eqn:Ht.
    + eapply two_misses; rewrite ?Hk, ?Ht; try done.
    + destruct (miss_then_hit user_function cfg
                  (Call [VInt 3; VInt 0] [] (Return b1))
                  (Call [VFloat 3 0; VInt 0] [] (Return b2))
                  (VHashedSeq [VInt 3; VInt 0])
                  (VHashedSeq [VFloat 3 0; VInt 0]) r1 b1)
        as (d2 & Hr & Hh & Hm & _); rewrite ?Hk, ?Ht; try done.
      by exists d2.
Qed.

Lemma typed_and_untyped_keys_witness :
  ∃ d2,
    run echo (decorating_function (Config (Some 128) false 0))
        [DoCall (Call [VInt 3; VInt 0] [] (Return 0));
         DoCall (Call [VFloat 3 0; VInt 0] [] (Return 0))] =
    ([Return (VTuple [VInt 3; VInt 0]); Return (VTuple [VInt 3; VInt 0])], d2) ∧
    ci_hits (cache_info d2) = 1%nat ∧ ci_misses (cache_info d2) = 1%nat.
Proof.
  destruct (typed_and_untyped_keys echo (Config (Some 128) false 0) 0 0)
    as (_ & _ & _ & H).
  apply (H ltac:(by vm_compute) (VTuple [VInt 3; VInt 0])
           (VTuple [VFloat 3 0; VInt 0]) eq_refl eq_refl).
Defined.

(** C8 fails as stated for [typed=False]: [3 == 3.0], but after [f(3)] and
    [f(3.0)] under the default [maxsize=128] there are two entries and no
    hit. *)
Lemma untyped_int_float_do_not_collide :
  py_eq (VInt 3) (VFloat 3 0) = true ∧
  cache_info
    (run echo (decorating_function (Config (Some 128) false 0))
         [DoCall (Call [VInt 3] [] (Return 0));
          DoCall (Call [VFloat 3 0] [] (Return 0))]).2 =
  _CacheInfo 0 2 (Some 128) 2.
Proof. split; [done | by vm_compute]. Qed.

(** ** Filling a cache of fixed capacity *)

Section filling.
Variable user_function : list value → list (string * value) → outcome value.
Implicit Types (st : state addr) (ls : list addr).

Lemma wf_cache_keys st ls : wf st ls → map fst (cache st) ≡ₚ ring_keys st.
Proof.
  intros Hwf. rewrite (wf_ring_keys _ _ Hwf), (wf_cache _ _ Hwf), map_map.
  done.
Qed.

Lemma wf_length st ls : wf st ls → length (cache st) = length ls.
Proof. intros Hwf. by rewrite (wf_cache _ _ Hwf), length_map. Qed.

Lemma wf_absent st ls key :
  wf st ls →
  dict_get (cache st) key = None ↔
  Forall (λ k, py_eq k key = false) (ring_keys st).
Proof.
  intros Hwf. rewrite dict_get_None. by rewrite (wf_cache_keys _ _ Hwf).
Qed.

Lemma wf_distinct_keys st ls : wf st ls → distinct (ring_keys st).
Proof.
  intros Hwf. eapply distinct_Permutation; [by eapply wf_cache_keys|].
  apply Hwf.
Qed.



Lemma distinct_app_cons ks1 k ks2 :
  distinct (ks1 ++ k :: ks2) → Forall (λ k', py_eq k' k = false) ks1.
Proof.
  induction ks1 as [|k1 ks1 IH]; simpl; [constructor|].
  intros [Hk Hd]. constructor; [|auto].
  apply Forall_app in Hk as [_ Hk]. by apply Forall_cons in Hk as [? _].
Qed.

Lemma run_call d c ops r d' :
  wrapper user_function d c = (r, d') →
  run user_function d (DoCall c :: ops) =
  (r :: (run user_function d' ops).1, (run user_function d' ops).2).
Proof. intros H. simpl. rewrite H. by destruct (run _ _ _). Qed.

End filling.

Section eviction.
Variable user_function : list value → list (string * value) → outcome value.
Implicit Types (st : state addr) (ls : list addr).

(** Which objects an eviction uses: the new entry is stored in the old
    root, the link of the evicted key becomes the root, and the store
    holds the same objects as before. *)
Lemma evict_links st ls key result :
  wf st ls → full st = true → dict_get (cache st) key = None →
  ∃ st' k0,
    evict st key result = (Return (), st') ∧
    wf st' (tail ls ++ [root st]) ∧
    head (ring_keys st) = Some k0 ∧
    ring_keys st' = tail (ring_keys st) ++ [key] ∧
    dict_get (cache st) k0 = Some (root st') ∧
    dict_get (cache st') key = Some (root st) ∧
    root st' ≠ root st ∧
    size (heap st') = size (heap st) ∧
    length (cache st') = length (cache st).
Proof.
  intros Hwf Hfull Hk.
  destruct (ring_keys_evict _ _ key result Hwf Hfull Hk)
    as (st' & Hev & Hwf' & Hkeys & Hdom & _ & Hg' & _).
  destruct (wf_evict _ _ key result Hwf Hfull Hk)
    as (a & ls' & st'' & -> & Hev' & _ & Hroot & _).
  rewrite Hev in Hev'. injection Hev' as <-.
  exists st', (KEY (heap st !!! a)). split_and!; try done.
  - by rewrite (wf_ring_keys _ _ Hwf).
  - rewrite Hroot. apply dict_get_elem; [apply Hwf|].
    apply (wf_entry _ _ _ _ Hwf). split; [apply list_elem_of_here | done].
  - rewrite Hroot. intros E.
    pose proof (wf_ring _ _ Hwf) as (_ & ND & _).
    apply NoDup_cons in ND as [Hr _]. apply Hr. rewrite <- E.
    apply list_elem_of_here.
  - by rewrite <- !size_dom, Hdom.
  - rewrite (wf_length _ _ Hwf'), (wf_length _ _ Hwf), length_app. simpl. lia.
Qed.
End eviction.

Section capacity.
Variable user_function : list value → list (string * value) → outcome value.
Implicit Types (st : state addr) (ls : list addr).


Lemma wf_present st ls k :
  wf st ls → k ∈ ring_keys st → dict_contains (cache st) k = true.
Proof.
  intros Hwf Hk. rewrite (wf_ring_keys _ _ Hwf) in Hk.
  apply list_elem_of_fmap in Hk as (a & -> & Ha).
  unfold dict_contains. erewrite dict_get_elem; [done | apply Hwf |].
  by apply (wf_entry _ _ _ _ Hwf).
Qed.


Lemma ring_keys_fresh_state : ring_keys (@fresh_state addr) = [].
Proof. by rewrite (wf_ring_keys _ _ wf_fresh_state). Qed.

End capacity.





(** ** The verdict of the memory probe *)

Section memory.
Variable user_function : list value → list (string * value) → outcome value.
Implicit Types (st : state addr) (ls : list addr).

Lemma run_Memory m t st ops :
  ∃ st', (run user_function (Memory m t st) ops).2 = Memory m t st'.
Proof.
  revert st. induction ops as [|o ops IH]; intros st; simpl; [by eexists|].
  destruct o as [c|]; simpl.
  - destruct (wrapper_memory user_function m t st c) as [r st1].
    destruct (IH st1) as [st' Hst'].
    destruct (run user_function (Memory m t st1) ops). by exists st'.
  - destruct (IH (cache_clear st)) as [st' Hst'].
    destruct (run user_function (Memory m t (cache_clear st)) ops).
    by exists st'.
Qed.

Lemma decorating_function_memory cfg :
  use_memory_up_to cfg ≠ 0 →
  decorating_function cfg =
  Memory (use_memory_up_to cfg) (typed cfg) fresh_state.
Proof. intros H. unfold decorating_function. by rewrite bool_decide_eq_true_2. Qed.

(** A miss while [full] is false inserts without evicting, whatever the
    number of entries, and then sets [full] from the probe. *)
Lemma memory_miss_not_full m t st ls c key r :
  wf st ls → full st = false →
  _make_key (c_args c) (c_kwds c) t = Return key →
  dict_contains (cache st) key = false →
  user_function (c_args c) (c_kwds c) = Return r →
  ∃ st', (wrapper_memory user_function m t st c).2 = st' ∧
    wf st' (ls ++ [new_addr (heap st)]) ∧
    ring_keys st' = ring_keys st ++ [key] ∧
    length (cache st') = S (length (cache st)) ∧
    (∀ available, c_probe c = Return available →
       wrapper_memory user_function m t st c =
         (Return r, st') ∧ full st' = (available <? m)).
Proof.
  intros Hwf Hf Hk Hc Hu. pose proof Hc as Hg%dict_contains_get.
  rewrite (wrapper_memory_miss _ _ _ _ _ _ _ Hk Hg Hu). unfold store_memory.
  rewrite Hc, Hf.
  pose proof (wf_insert _ _ key r Hwf Hg) as Hwf1.
  pose proof (ring_keys_insert _ _ key r Hwf Hg) as Hkeys1.
  assert (length (cache (insert st key r)) = S (length (cache st))) as Hlen.
  { rewrite (wf_length _ _ Hwf1), (wf_length _ _ Hwf), length_app. simpl. lia. }
  destruct (c_probe c) as [available|e]; eexists; (split; [done|]).
  - split_and!; try done.
    + apply wf_count_miss, wf_with_full; [done | by destruct ls].
    + by intros ? [= ->].
  - split_and!; done.
Qed.

(** A miss while [full] is true evicts the least recently used entry; the
    probe is not consulted. *)
Lemma memory_miss_full m t st ls c key r :
  wf st ls → full st = true →
  _make_key (c_args c) (c_kwds c) t = Return key →
  dict_contains (cache st) key = false →
  user_function (c_args c) (c_kwds c) = Return r →
  ∃ st', wrapper_memory user_function m t st c = (Return r, st') ∧
    ring_keys st' = tail (ring_keys st) ++ [key] ∧
    length (cache st') = length (cache st) ∧
    full st' = true.
Proof.
  intros Hwf Hf Hk Hc Hu. pose proof Hc as Hg%dict_contains_get.
  rewrite (wrapper_memory_miss _ _ _ _ _ _ _ Hk Hg Hu). unfold store_memory.
  rewrite Hc, Hf.
  destruct (ring_keys_evict _ _ key r Hwf Hf Hg)
    as (st2 & -> & Hwf2 & Hkeys & _ & _ & _ & _ & _ & Hfull).
  exists (count_miss st2). split_and!; try done.
  - simpl. rewrite (wf_length _ _ Hwf2), (wf_length _ _ Hwf), length_app.
    pose proof (wf_full _ _ Hwf Hf). destruct ls; [done|]. simpl. lia.
  - simpl. by rewrite Hfull.
Qed.

(** Hits keep the dictionary and [full] as they are. *)
Lemma memory_hits m t st ls hs :
  wf st ls →
  Forall (λ c, ∃ key, _make_key (c_args c) (c_kwds c) t = Return key ∧
                      dict_contains (cache st) key = true) hs →
  ∃ st' ls',
    (run user_function (Memory m t st) (map DoCall hs)).2 = Memory m t st' ∧
    wf st' ls' ∧ cache st' = cache st ∧ full st' = full st.
Proof.
  intros Hwf Hhs. revert st ls Hwf Hhs.
  induction hs as [|c hs IH]; intros st ls Hwf Hhs; simpl.
  - by exists st, ls.
  - apply Forall_cons in Hhs as [(key & Hk & Hc) Hhs].
    unfold dict_contains in Hc.
    destruct (dict_get (cache st) key) as [a|] eqn:Hg; [|done].
    rewrite (wrapper_memory_hit _ _ _ _ _ _ _ Hk Hg).
    destruct (wf_move_to_front _ _ _ _ Hwf Hg) as (l1 & l2 & _ & _ & Hwf').
    apply wf_count_hit in Hwf'.
    destruct (IH _ _ Hwf' Hhs) as (st' & ls' & Hrun & Hwf'' & Hcache & Hfull).
    destruct (run user_function _ (map DoCall hs)) as [rs d'].
    simpl in *. by exists st', ls'.
Qed.
End memory.

(** The verdict after an insertion that does not evict.  Under
    [use_memory_up_to], at any point of a single-threaded use: take a miss
    that inserts without evicting ([full] is false) and during which the
    probe reports [available] bytes.  The verdict is then
    [available < use_memory_up_to], and hits leave it as it is.
    If [available] is at or above the threshold, the next miss inserts
    without evicting, whatever the number of entries; if it is below, the
    very next miss evicts the least recently used entry before inserting,
    and the number of entries stays the same. *)
Theorem memory_pressure_verdict
    (user_function : list value → list (string * value) → outcome value)
    (cfg : config) (ops : list op)
    (c1 : call) (key1 r1 : value) (available : Z)
    (hs : list call) (c2 : call) (key2 r2 : value) :
  use_memory_up_to cfg ≠ 0 →
  let d0 := (run user_function (decorating_function cfg) ops).2 in
  d_full d0 = false →
  _make_key (c_args c1) (c_kwds c1) (typed cfg) = Return key1 →
  d_contains d0 key1 = false →
  user_function (c_args c1) (c_kwds c1) = Return r1 →
  c_probe c1 = Return available →
  let d1 := (wrapper user_function d0 c1).2 in
  Forall (λ c, ∃ key,
            _make_key (c_args c) (c_kwds c) (typed cfg) = Return key ∧
            d_contains d1 key = true) hs →
  let d1' := (run user_function d1 (map DoCall hs)).2 in
  _make_key (c_args c2) (c_kwds c2) (typed cfg) = Return key2 →
  d_contains d1' key2 = false →
  user_function (c_args c2) (c_kwds c2) = Return r2 →
  let d2 := (wrapper user_function d1' c2).2 in
  d_ring_keys d1 = d_ring_keys d0 ++ [key1] ∧
  d_full d1 = (available <? use_memory_up_to cfg) ∧
  d_full d1' = d_full d1 ∧
  (use_memory_up_to cfg ≤ available →
   d_ring_keys d2 = d_ring_keys d1' ++ [key2] ∧
   ci_currsize (cache_info d2) = S (ci_currsize (cache_info d1'))) ∧
  (available < use_memory_up_to cfg →
   (wrapper user_function d1' c2).1 = Return r2 ∧
   d_ring_keys d2 = tail (d_ring_keys d1') ++ [key2] ∧
   ci_currsize (cache_info d2) = ci_currsize (cache_info d1')).
Proof.
  intros Hm d0.
  pose proof (d_wf_run user_function _ ops (d_wf_decorating_function cfg)) as Hwf.
  fold d0 in Hwf. subst d0. rewrite (decorating_function_memory _ Hm) in *.
  destruct (run_Memory user_function (use_memory_up_to cfg) (typed cfg)
              fresh_state ops) as [st0 Hd0].
  rewrite Hd0 in *. destruct Hwf as [ls0 Hwf0]. simpl.
  intros Hf0 Hk1 Hc1 Hu1 Hp1.
  destruct (memory_miss_not_full user_function (use_memory_up_to cfg) _ _ _
              _ _ _ Hwf0 Hf0 Hk1 Hc1 Hu1)
    as (st1 & Hst1 & Hwf1 & Hkeys1 & Hlen1 & Hprobe).
  destruct (Hprobe _ Hp1) as [Hw1 Hfull1].
  rewrite Hw1. simpl. intros Hhs.
  destruct (memory_hits user_function (use_memory_up_to cfg) (typed cfg)
              st1 _ hs Hwf1 Hhs) as (st1' & ls1' & Hrun & Hwf1' & Hcache & Hfull).
  rewrite Hrun. simpl. intros Hk2 Hc2 Hu2.
  split_and!; try done.
  - intros Hge.
    assert (full st1' = false) as Hf1'.
    { rewrite Hfull, Hfull1. apply Z.ltb_ge. lia. }
    destruct (memory_miss_not_full user_function (use_memory_up_to cfg) _ _ _
                _ _ _ Hwf1' Hf1' Hk2 Hc2 Hu2)
      as (st2 & Hst2 & _ & Hkeys2 & Hlen2 & _).
    destruct (wrapper_memory user_function (use_memory_up_to cfg) (typed cfg)
                st1' c2) as [o st2'].
    simpl in Hst2. subst st2'. by split.
  - intros Hlt.
    assert (full st1' = true) as Hf1'.
    { rewrite Hfull, Hfull1. apply Z.ltb_lt. lia. }
    destruct (memory_miss_full user_function (use_memory_up_to cfg) _ _ _
                _ _ _ Hwf1' Hf1' Hk2 Hc2 Hu2)
      as (st2 & -> & Hkeys2 & Hlen2 & _).
    done.
Qed.

Lemma memory_pressure_verdict_witness :
  d_ring_keys
    (run echo (decorating_function (Config None false 100))
         [DoCall (Call [VInt 1] [] (Return 500));
          DoCall (Call [VInt 2] [] (Return 50));
          DoCall (Call [VInt 1] [] (Return 50));
          DoCall (Call [VInt 3] [] (Return 500))]).2 =
  [VInt 1; VInt 3].
Proof.
  destruct (memory_pressure_verdict echo (Config None false 100)
              [DoCall (Call [VInt 1] [] (Return 500))]
              (Call [VInt 2] [] (Return 50)) (VInt 2) (VTuple [VInt 2]) 50
              [Call [VInt 1] [] (Return 50)]
              (Call [VInt 3] [] (Return 500)) (VInt 3) (VTuple [VInt 3]))
    as (_ & _ & _ & _ & H).
  1-6, 8-10: by vm_compute.
  - repeat constructor. by exists (VInt 1).
  - destruct H as (_ & H & _); [done|]. exact H.
Defined.

(** C3 does not hold of the code: an insertion that evicts (lines 138-158)
    does not query the probe, although the module says that the cache is
    full if fewer than [use_memory_up_to] bytes are available, and although
    the insertion that does not evict queries it (lines 164-165).  With a
    threshold of 100 bytes, [f(1)] sees 50 bytes and sets [full]; [f(2)]
    evicts and inserts while 1000 bytes are available; the next miss
    [f(3)] evicts again, although memory was above the threshold after the
    previous insertion: three misses, and a cache that holds the key 3
    only. *)
Lemma probe_not_queried_after_eviction :
  cache_info
    (run echo (decorating_function (Config None false 100))
         [DoCall (Call [VInt 1] [] (Return 50));
          DoCall (Call [VInt 2] [] (Return 1000));
          DoCall (Call [VInt 3] [] (Return 1000))]).2 =
  _CacheInfo 0 3 None 1 ∧
  d_ring_keys
    (run echo (decorating_function (Config None false 100))
         [DoCall (Call [VInt 1] [] (Return 50));
          DoCall (Call [VInt 2] [] (Return 1000));
          DoCall (Call [VInt 3] [] (Return 1000))]).2 =
  [VInt 3].
Proof. by vm_compute. Qed.

(** ** The list is ordered by recency *)

Section recency_order.
Implicit Types (hist ks : list value) (key k : value).

Lemma last_access_lt hist k t : last_access hist k = Some t → (t < length hist)%nat.
Proof.
  induction hist as [|k' hist IH]; simpl; [done|].
  destruct (py_eq k' k); [intros [= <-]; lia|].
  intros ?%IH. lia.
Qed.

Lemma last_access_other hist key k :
  py_eq key k = false → last_access (key :: hist) k = last_access hist k.
Proof. intros E. simpl. by rewrite E. Qed.

Lemma last_access_same hist key k :
  py_eq key k = true → last_access (key :: hist) k = Some (length hist).
Proof. intros E. simpl. by rewrite E. Qed.

Lemma recency_ordered_nil hist : recency_ordered hist [].
Proof. split; constructor. Qed.

(** A lookup of a key that equals none of [ks] leaves their order. *)
Lemma recency_ordered_other hist key ks :
  Forall (λ k, py_eq key k = false) ks →
  recency_ordered hist ks → recency_ordered (key :: hist) ks.
Proof.
  intros Hne [Hs Ha]. split.
  - induction Hs as [|k ks Hs IH Hk]; [constructor|].
    apply Forall_cons in Hne as [Hk' Hne]. apply Forall_cons in Ha as [_ Ha].
    constructor; [by apply IH|].
    rewrite Forall_forall in Hk, Hne. apply Forall_forall. intros b Hb.
    specialize (Hk b Hb). unfold older in *.
    by rewrite (last_access_other _ _ _ Hk'),
      (last_access_other _ _ _ (Hne b Hb)).
  - rewrite Forall_forall in Hne, Ha. apply Forall_forall. intros k Hk.
    rewrite (last_access_other _ _ _ (Hne k Hk)). auto.
Qed.

(** The key just looked up is the most recent. *)
Lemma recency_ordered_snoc hist key ks k :
  Forall (λ k', py_eq key k' = false) ks → py_eq key k = true →
  recency_ordered hist ks → recency_ordered (key :: hist) (ks ++ [k]).
Proof.
  intros Hne Hk Hord.
  pose proof (recency_ordered_other _ _ _ Hne Hord) as [Hs Ha].
  destruct Hord as [_ Ha0].
  split.
  - apply StronglySorted_app_2; [|done|repeat constructor].
    intros a b Hin ->%list_elem_of_singleton.
    rewrite Forall_forall in Hne, Ha0. unfold older.
    rewrite (last_access_other _ _ _ (Hne a Hin)), (last_access_same _ _ _ Hk).
    destruct (Ha0 a Hin) as [t Ht]. rewrite Ht. by eapply last_access_lt.
  - apply Forall_app. split; [done|]. constructor; [|constructor].
    rewrite (last_access_same _ _ _ Hk). by eexists.
Qed.

Lemma recency_ordered_tail hist ks :
  recency_ordered hist ks → recency_ordered hist (tail ks).
Proof.
  intros [Hs Ha]. destruct ks as [|k ks]; [done|]. simpl.
  apply StronglySorted_cons in Hs as [_ Hs]. apply Forall_cons in Ha as [_ Ha].
  done.
Qed.

Lemma recency_ordered_delete hist ks1 k ks2 :
  recency_ordered hist (ks1 ++ k :: ks2) → recency_ordered hist (ks1 ++ ks2).
Proof.
  intros [Hs Ha]. split.
  - apply StronglySorted_app in Hs as (H12 & Hs1 & Hs2).
    apply StronglySorted_cons in Hs2 as [_ Hs2].
    apply StronglySorted_app_2; [|done..].
    intros a b Hin1 Hin2. apply H12; [done|]. by apply list_elem_of_further.
  - apply Forall_app in Ha as [Ha1 Ha2]. apply Forall_cons in Ha2 as [_ Ha2].
    apply Forall_app. done.
Qed.

Lemma distinct_app_r ks1 ks2 : distinct (ks1 ++ ks2) → distinct ks2.
Proof. induction ks1 as [|k ks1 IH]; simpl; [done|]. intros [_ ?]. auto. Qed.

(** In a list of distinct keys, a lookup that finds [k] equals no other
    key. *)
Lemma distinct_found ks1 k ks2 key :
  distinct (ks1 ++ k :: ks2) → py_eq k key = true →
  Forall (λ k', py_eq key k' = false) (ks1 ++ ks2).
Proof.
  intros Hd Hk. apply Forall_forall. intros k' Hk'.
  destruct (py_eq key k') eqn:E; [|done].
  pose proof (py_eq_trans _ _ _ Hk E) as Hkk'.
  apply elem_of_app in Hk' as [Hin|Hin].
  - apply distinct_app_cons in Hd. rewrite Forall_forall in Hd.
    rewrite py_eq_sym, (Hd k' Hin) in Hkk'. done.
  - apply distinct_app_r in Hd. destruct Hd as [Hd _].
    rewrite Forall_forall in Hd. rewrite (Hd k' Hin) in Hkk'. done.
Qed.

(** A hit: the key that was found becomes the most recent. *)
Lemma recency_ordered_hit hist ks1 k ks2 key :
  distinct (ks1 ++ k :: ks2) → py_eq k key = true →
  recency_ordered hist (ks1 ++ k :: ks2) →
  recency_ordered (key :: hist) (ks1 ++ ks2 ++ [k]).
Proof.
  intros Hd Hk Hord. rewrite app_assoc.
  apply recency_ordered_snoc.
  - by eapply distinct_found.
  - by rewrite py_eq_sym.
  - by eapply recency_ordered_delete.
Qed.

(** A miss: the list is left as it is (the decorated function raised), or
    the key is added at the most recent end, after the oldest key has been
    removed or not. *)
Lemma recency_ordered_miss hist ks key ks' :
  Forall (λ k, py_eq k key = false) ks →
  ks' = ks ∨ ks' = ks ++ [key] ∨ ks' = tail ks ++ [key] →
  recency_ordered hist ks → recency_ordered (key :: hist) ks'.
Proof.
  intros Hne Hks' Hord.
  assert (Forall (λ k, py_eq key k = false) ks) as Hne'.
  { eapply Forall_impl; [exact Hne|]. intros k' ?. by rewrite py_eq_sym. }
  destruct Hks' as [->|[->| ->]].
  - by apply recency_ordered_other.
  - apply recency_ordered_snoc; [done | apply py_eq_refl | done].
  - apply recency_ordered_snoc; [| apply py_eq_refl |].
    + destruct ks; [done|]. by apply Forall_cons in Hne' as [_ ?].
    + by apply recency_ordered_tail.
Qed.
End recency_order.

Section recency_invariant.
Variable user_function : list value → list (string * value) → outcome value.
Implicit Types (st : state addr) (ls : list addr) (hist : list value).

(** The history after one more operation. *)
Lemma history_cons typed o ops hist :
  rev (omap (accessed_key typed) (o :: ops)) ++ hist =
  rev (omap (accessed_key typed) ops) ++
    match accessed_key typed o with Some key => key :: hist | None => hist end.
Proof.
  simpl. destruct (accessed_key typed o); [|done].
  simpl. by rewrite <- app_assoc.
Qed.

Lemma recency_lookup st ls key a hist :
  wf st ls → dict_get (cache st) key = Some a →
  recency_ordered hist (ring_keys st) →
  recency_ordered (key :: hist)
    (ring_keys (count_hit (with_heap st (move_to_front (heap st) (root st) a)))).
Proof.
  intros Hwf Hg Hord.
  destruct (ring_keys_move_to_front _ _ _ _ Hwf Hg)
    as (ks1 & k & ks2 & Hks & Hk & Hks').
  change (ring_keys (count_hit ?s)) with (ring_keys s).
  rewrite Hks'. rewrite Hks in Hord.
  apply recency_ordered_hit; [|done..].
  rewrite <- Hks. by eapply wf_distinct_keys.
Qed.

Lemma recency_wrapper_fixed maxsize typed st ls c hist :
  wf st ls → recency_ordered hist (ring_keys st) →
  recency_ordered
    (match accessed_key typed (DoCall c) with
     | Some key => key :: hist
     | None => hist
     end)
    (ring_keys (wrapper_fixed user_function maxsize typed st c).2).
Proof.
  intros Hwf Hord. unfold wrapper_fixed, accessed_key.
  destruct (_make_key _ _ _) as [key|]; [|done].
  unfold lookup. destruct (dict_get (cache st) key) as [a|] eqn:Hg.
  - by eapply recency_lookup.
  - pose proof (proj1 (wf_absent _ _ key Hwf) Hg) as Hne.
    destruct (user_function _ _) as [r|].
    + unfold store_fixed. rewrite (proj2 (dict_contains_get _ _) Hg).
      destruct (full st) eqn:Hf.
      * destruct (ring_keys_evict _ _ key r Hwf Hf Hg)
          as (st' & -> & _ & Hkeys & _).
        change (ring_keys (_, count_miss st').2) with (ring_keys st').
        eapply recency_ordered_miss; [done| |done]. auto.
      * pose proof (ring_keys_insert _ _ key r Hwf Hg) as Hkeys.
        eapply recency_ordered_miss; [done| |done]. right. left. exact Hkeys.
    + eapply recency_ordered_miss; [done| |done]. by left.
Qed.

Lemma recency_wrapper_memory threshold typed st ls c hist :
  wf st ls → recency_ordered hist (ring_keys st) →
  recency_ordered
    (match accessed_key typed (DoCall c) with
     | Some key => key :: hist
     | None => hist
     end)
    (ring_keys (wrapper_memory user_function threshold typed st c).2).
Proof.
  intros Hwf Hord. unfold wrapper_memory, accessed_key.
  destruct (_make_key _ _ _) as [key|]; [|done].
  unfold lookup. destruct (dict_get (cache st) key) as [a|] eqn:Hg.
  - by eapply recency_lookup.
  - pose proof (proj1 (wf_absent _ _ key Hwf) Hg) as Hne.
    destruct (user_function _ _) as [r|].
    + unfold store_memory. rewrite (proj2 (dict_contains_get _ _) Hg).
      destruct (full st) eqn:Hf.
      * destruct (ring_keys_evict _ _ key r Hwf Hf Hg)
          as (st' & -> & _ & Hkeys & _).
        change (ring_keys (_, count_miss st').2) with (ring_keys st').
        eapply recency_ordered_miss; [done| |done]. auto.
      * pose proof (ring_keys_insert _ _ key r Hwf Hg) as Hkeys.
        destruct (c_probe c);
          (eapply recency_ordered_miss; [done| |done]); right; left;
          exact Hkeys.
    + eapply recency_ordered_miss; [done| |done]. by left.
Qed.

Lemma ring_keys_cache_clear st : ring_keys (cache_clear st) = [].
Proof.
  assert (wf (cache_clear st) []) as Hwf.
  { split; simpl; try done. apply ring_clear. }
  by rewrite (wf_ring_keys _ _ Hwf).
Qed.

Lemma recency_run_fixed maxsize typed ops st ls hist :
  wf st ls → recency_ordered hist (ring_keys st) →
  ∃ st' ls',
    (run user_function (Fixed maxsize typed st) ops).2 =
      Fixed maxsize typed st' ∧
    wf st' ls' ∧
    recency_ordered (rev (omap (accessed_key typed) ops) ++ hist)
                    (ring_keys st').
Proof.
  revert st ls hist. induction ops as [|o ops IH]; intros st ls hist Hwf Hord.
  - by exists st, ls.
  - rewrite history_cons. destruct o as [c|].
    + pose proof (recency_wrapper_fixed maxsize typed st ls c hist Hwf Hord)
        as Hord1.
      destruct (wf_wrapper_fixed user_function maxsize typed st ls c Hwf)
        as [ls1 Hwf1].
      destruct (wrapper_fixed user_function maxsize typed st c) as [r st1] eqn:Ew.
      destruct (IH _ _ _ Hwf1 Hord1) as (st' & ls' & Hrun & Hwf' & Hord').
      rewrite (run_call _ _ c ops r (Fixed maxsize typed st1))
        by (simpl; by rewrite Ew).
      by exists st', ls'.
    + assert (wf (cache_clear st) []) as Hwf1 by (by eapply wf_cache_clear).
      destruct (IH (cache_clear st) [] hist Hwf1) as (st' & ls' & Hrun & Hwf' & Hord').
      { rewrite ring_keys_cache_clear. apply recency_ordered_nil. }
      simpl run.
      destruct (run user_function (Fixed maxsize typed (cache_clear st)) ops).
      by exists st', ls'.
Qed.

Lemma recency_run_memory threshold typed ops st ls hist :
  wf st ls → recency_ordered hist (ring_keys st) →
  ∃ st' ls',
    (run user_function (Memory threshold typed st) ops).2 =
      Memory threshold typed st' ∧
    wf st' ls' ∧
    recency_ordered (rev (omap (accessed_key typed) ops) ++ hist)
                    (ring_keys st').
Proof.
  revert st ls hist. induction ops as [|o ops IH]; intros st ls hist Hwf Hord.
  - by exists st, ls.
  - rewrite history_cons. destruct o as [c|].
    + pose proof (recency_wrapper_memory threshold typed st ls c hist Hwf Hord)
        as Hord1.
      destruct (wf_wrapper_memory user_function threshold typed st ls c Hwf)
        as [ls1 Hwf1].
      destruct (wrapper_memory user_function threshold typed st c) as [r st1] eqn:Ew.
      destruct (IH _ _ _ Hwf1 Hord1) as (st' & ls' & Hrun & Hwf' & Hord').
      rewrite (run_call _ _ c ops r (Memory threshold typed st1))
        by (simpl; by rewrite Ew).
      by exists st', ls'.
    + assert (wf (cache_clear st) []) as Hwf1 by (by eapply wf_cache_clear).
      destruct (IH (cache_clear st) [] hist Hwf1) as (st' & ls' & Hrun & Hwf' & Hord').
      { rewrite ring_keys_cache_clear. apply recency_ordered_nil. }
      simpl run.
      destruct (run user_function (Memory threshold typed (cache_clear st)) ops).
      by exists st', ls'.
Qed.
End recency_invariant.

Section recency_steps_bounded.
Variable user_function : list value → list (string * value) → outcome value.
Implicit Types (st : state addr) (ls : list addr) (hist : list value).

Lemma policy_fixed cfg :
  policy_of (decorating_function cfg) = FixedCapacity →
  ∃ n, decorating_function cfg = Fixed n (typed cfg) fresh_state.
Proof.
  unfold decorating_function. case_bool_decide; [done|].
  destruct (maxsize cfg) as [[| |]|]; try done; by eexists.
Qed.

Lemma policy_memory cfg :
  policy_of (decorating_function cfg) = MemoryPressure →
  decorating_function cfg =
  Memory (use_memory_up_to cfg) (typed cfg) fresh_state.
Proof.
  unfold decorating_function. case_bool_decide; [done|].
  by destruct (maxsize cfg) as [[| |]|].
Qed.

(** What a hit does to the list. *)
Lemma hit_promotes st ls key a :
  wf st ls → dict_get (cache st) key = Some a →
  ∃ ks1 k ks2,
    ring_keys st = ks1 ++ k :: ks2 ∧ py_eq k key = true ∧
    ring_keys (count_hit (with_heap st (move_to_front (heap st) (root st) a)))
      = ks1 ++ ks2 ++ [k].
Proof. intros Hwf Hg. by apply (ring_keys_move_to_front _ _ _ _ Hwf Hg). Qed.

(** What an eviction does to the list, and how old the evicted key is. *)
Lemma evict_oldest st ls key r hist :
  wf st ls → recency_ordered hist (ring_keys st) →
  full st = true → dict_get (cache st) key = None →
  ∃ e rest st',
    ring_keys st = e :: rest ∧
    evict st key r = (Return (), st') ∧
    ring_keys st' = rest ++ [key] ∧
    dict_contains (cache st') e = false ∧
    length (cache st') = length (cache st) ∧
    Forall (older hist e) rest.
Proof.
  intros Hwf [Hs _] Hf Hg.
  destruct (evict_links _ _ key r Hwf Hf Hg)
    as (st' & e & Hev & Hwf' & Hhd & Hkeys & _ & _ & _ & _ & Hlen).
  destruct (ring_keys st) as [|e' rest] eqn:Hks; [done|].
  injection Hhd as ->. simpl in Hkeys.
  exists e, rest, st'. split_and!; try done.
  - apply dict_contains_get, (wf_absent _ _ _ Hwf'). rewrite Hkeys.
    pose proof (wf_distinct_keys _ _ Hwf) as Hd. rewrite Hks in Hd.
    apply (wf_absent _ _ _ Hwf) in Hg. rewrite Hks in Hg.
    apply Forall_app. split.
    + destruct Hd as [Hd _]. eapply Forall_impl; [exact Hd|].
      intros k' ?. by rewrite py_eq_sym.
    + apply Forall_cons in Hg as [Hg _]. constructor; [|constructor].
      by rewrite py_eq_sym.
  - by apply StronglySorted_cons in Hs as [? _].
Qed.
End recency_steps_bounded.

(** The order of the list.  Under a size-limited configuration ([maxsize]
    a positive or negative integer, or [use_memory_up_to] set), after any
    sequence of calls and [cache_clear()] on one thread:
    - the keys of the circular list have all been looked up and stand in
      the order of their most recent lookup, the oldest at [root[NEXT]];
    - a hit moves the entry that was found to the most recent end and
      leaves the order of the others;
    - a miss that evicts removes the first key of the list, whose most
      recent lookup is older than that of every key that stays, and puts
      the new key at the most recent end; a miss that does not evict only
      adds the new key at that end.
    In particular, with [maxsize=2] the calls [f(1)], [f(2)], [f(1)],
    [f(3)], [f(2)] are a miss, a miss, a hit that leaves the order
    [[2, 1]], a miss that evicts 2 and leaves [[1, 3]] with size 2, and a
    miss. *)
Theorem recency_order
    (user_function : list value → list (string * value) → outcome value)
    (cfg : config) (ops : list op) :
  policy_of (decorating_function cfg) = FixedCapacity ∨
  policy_of (decorating_function cfg) = MemoryPressure →
  let d := (run user_function (decorating_function cfg) ops).2 in
  let hist := history (typed cfg) ops in
  recency_ordered hist (d_ring_keys d) ∧
  (∀ c key,
     _make_key (c_args c) (c_kwds c) (typed cfg) = Return key →
     d_contains d key = true →
     ∃ ks1 k ks2 r d',
       wrapper user_function d c = (Return r, d') ∧
       d_ring_keys d = ks1 ++ k :: ks2 ∧ py_eq k key = true ∧
       d_ring_keys d' = ks1 ++ ks2 ++ [k] ∧
       ci_hits (cache_info d') = S (ci_hits (cache_info d)) ∧
       ci_currsize (cache_info d') = ci_currsize (cache_info d)) ∧
  (∀ c key r,
     _make_key (c_args c) (c_kwds c) (typed cfg) = Return key →
     d_contains d key = false →
     user_function (c_args c) (c_kwds c) = Return r →
     if d_full d then
       ∃ e rest d',
         d_ring_keys d = e :: rest ∧
         wrapper user_function d c = (Return r, d') ∧
         d_ring_keys d' = rest ++ [key] ∧
         d_contains d' e = false ∧
         ci_currsize (cache_info d') = ci_currsize (cache_info d) ∧
         Forall (older hist e) rest
     else
       d_ring_keys (wrapper user_function d c).2 = d_ring_keys d ++ [key]) ∧
  (let after k :=
     (run echo (decorating_function (Config (Some 2) false 0))
          (take k [f 1; f 2; f 1; f 3; f 2])).2 in
   cache_info (after 1%nat) = _CacheInfo 0 1 (Some 2) 1 ∧
   cache_info (after 2%nat) = _CacheInfo 0 2 (Some 2) 2 ∧
   cache_info (after 3%nat) = _CacheInfo 1 2 (Some 2) 2 ∧
   d_ring_keys (after 3%nat) = [VInt 2; VInt 1] ∧
   cache_info (after 4%nat) = _CacheInfo 1 3 (Some 2) 2 ∧
   d_ring_keys (after 4%nat) = [VInt 1; VInt 3] ∧
   d_contains (after 4%nat) (VInt 2) = false ∧
   cache_info (after 5%nat) = _CacheInfo 1 4 (Some 2) 2).
Proof.
  intros Hp d hist.
  assert (∃ st ls,
    (d = Memory (use_memory_up_to cfg) (typed cfg) st ∨
     ∃ n, d = Fixed n (typed cfg) st) ∧
    wf st ls ∧ recency_ordered hist (ring_keys st)) as (st & ls & Hd & Hwf & Hord).
  { subst d hist. unfold history.
    rewrite <- (app_nil_r (rev _)).
    destruct Hp as [Hp|Hp].
    - destruct (policy_fixed _ Hp) as [n ->].
      destruct (recency_run_fixed user_function n (typed cfg) ops fresh_state
                  [] [] wf_fresh_state) as (st & ls & Hrun & Hwf & Hord).
      { rewrite ring_keys_fresh_state. apply recency_ordered_nil. }
      exists st, ls. split_and!; [right; by exists n | done | done].
    - rewrite (policy_memory _ Hp).
      destruct (recency_run_memory user_function (use_memory_up_to cfg)
                  (typed cfg) ops fresh_state [] [] wf_fresh_state)
        as (st & ls & Hrun & Hwf & Hord).
      { rewrite ring_keys_fresh_state. apply recency_ordered_nil. }
      exists st, ls. split_and!; [by left | done | done]. }
  clearbody d hist. clear Hp.
  split_and!.
  - by destruct Hd as [->|[n ->]].
  - intros c key Hk Hc.
    assert (∃ a, dict_get (cache st) key = Some a) as [a Hg].
    { destruct Hd as [->|[n ->]]; simpl in Hc; unfold dict_contains in Hc;
        destruct (dict_get (cache st) key); by eauto. }
    destruct (hit_promotes _ _ _ _ Hwf Hg) as (ks1 & k & ks2 & Hks & Hkk & Hks').
    exists ks1, k, ks2, (RESULT (heap st !!! a)).
    destruct Hd as [->|[n ->]]; eexists; simpl.
    + rewrite (wrapper_memory_hit _ _ _ _ _ _ _ Hk Hg).
      split_and!; done.
    + rewrite (wrapper_fixed_hit _ _ _ _ _ _ _ Hk Hg).
      split_and!; done.
  - intros c key r Hk Hc Hu.
    assert (dict_get (cache st) key = None) as Hg.
    { apply dict_contains_get. by destruct Hd as [->|[n ->]]. }
    assert (d_full d = full st) as -> by (by destruct Hd as [->|[n ->]]).
    assert (d_ring_keys d = ring_keys st) as Hdk
      by (by destruct Hd as [->|[n ->]]).
    assert (ci_currsize (cache_info d) = length (cache st)) as Hds
      by (by destruct Hd as [->|[n ->]]).
    rewrite Hdk. clear Hc.
    destruct (full st) eqn:Hf.
    + destruct (evict_oldest _ _ _ r _ Hwf Hord Hf Hg)
        as (e & rest & st' & Hks & Hev & Hks' & He & Hlen & Hold).
      exists e, rest. rewrite Hds.
      destruct Hd as [->|[n ->]]; eexists; simpl.
      * rewrite (wrapper_memory_miss _ _ _ _ _ _ _ Hk Hg Hu).
        unfold store_memory.
        rewrite (proj2 (dict_contains_get _ _) Hg), Hf, Hev.
        split_and!; done.
      * rewrite (wrapper_fixed_miss _ _ _ _ _ _ _ Hk Hg Hu).
        unfold store_fixed.
        rewrite (proj2 (dict_contains_get _ _) Hg), Hf, Hev.
        split_and!; done.
    + pose proof (ring_keys_insert _ _ key r Hwf Hg) as Hks'.
      destruct Hd as [->|[n ->]]; simpl.
      * rewrite (wrapper_memory_miss _ _ _ _ _ _ _ Hk Hg Hu).
        unfold store_memory.
        rewrite (proj2 (dict_contains_get _ _) Hg), Hf.
        by destruct (c_probe c).
      * rewrite (wrapper_fixed_miss _ _ _ _ _ _ _ Hk Hg Hu).
        unfold store_fixed.
        by rewrite (proj2 (dict_contains_get _ _) Hg), Hf.
  - by vm_compute.
Qed.

Lemma recency_order_witness :
  recency_ordered
    (history false [f 1; f 2; f 1; f 3])
    (d_ring_keys
       (run echo (decorating_function (Config (Some 2) false 0))
            [f 1; f 2; f 1; f 3]).2) ∧
  ∃ d',
    wrapper echo
      (run echo (decorating_function (Config (Some 2) false 0))
           [f 1; f 2; f 1; f 3]).2
      (Call [VInt 2] [] (Return 0)) = (Return (VTuple [VInt 2]), d') ∧
    d_ring_keys d' = [VInt 3; VInt 2] ∧
    d_contains d' (VInt 1) = false ∧
    Forall (older (history false [f 1; f 2; f 1; f 3]) (VInt 1)) [VInt 3].
Proof.
  destruct (recency_order echo (Config (Some 2) false 0) [f 1; f 2; f 1; f 3])
    as (Hord & _ & Hmiss & _); [by left|].
  split; [exact Hord|].
  specialize (Hmiss (Call [VInt 2] [] (Return 0)) (VInt 2) (VTuple [VInt 2])
                eq_refl ltac:(by vm_compute) eq_refl).
  change (d_full _) with true in Hmiss.
  destruct Hmiss as (e & rest & d' & Hks & Hw & Hks' & He & _ & Hold).
  change (d_ring_keys _) with [VInt 1; VInt 3] in Hks.
  injection Hks as <- <-. by exists d'.
Defined.

(** ** Invariants of runs *)

Section run_invariants.
Variable user_function : list value → list (string * value) → outcome value.
Implicit Types (st : state addr) (ls : list addr) (d : decorated).

(** A property of well-formed decorated functions that every operation
    keeps holds after a run. *)
Lemma run_invariant (I : decorated → Prop) d ops :
  (∀ d o, d_wf d → I d → I (step user_function d o).2) →
  d_wf d → I d → I (run user_function d ops).2.
Proof.
  intros Hstep. revert d. induction ops as [|o ops IH]; intros d Hwf HI; [done|].
  simpl. pose proof (Hstep d o Hwf HI) as HI'.
  pose proof (d_wf_step user_function d o Hwf) as Hwf'.
  destruct (step user_function d o) as [r d'].
  specialize (IH d' Hwf' HI'). by destruct (run user_function d' ops).
Qed.

Lemma within_capacity_wrapper_fixed n typed st ls c :
  wf st ls → within_capacity n st →
  within_capacity n (wrapper_fixed user_function n typed st c).2.
Proof.
  intros Hwf [Hle Hfull]. unfold wrapper_fixed.
  destruct (_make_key _ _ _) as [key|]; [|done].
  unfold lookup. destruct (dict_get (cache st) key) as [a|] eqn:Hg; [done|].
  destruct (user_function _ _) as [result|]; [|done].
  unfold store_fixed. rewrite (proj2 (dict_contains_get _ _) Hg).
  destruct (full st) eqn:Hf.
  - destruct (wf_evict _ _ key result Hwf Hf Hg)
      as (a & ls' & st' & -> & -> & Hwf' & _ & _ & _ & _ & _ & _ & _ & Hf').
    pose proof (wf_length _ _ Hwf) as Hl.
    pose proof (wf_length _ _ Hwf') as Hl'.
    rewrite length_app in Hl'. simpl in Hl, Hl'.
    unfold within_capacity. simpl. rewrite Hf', Hf, Hl'.
    destruct (proj1 Hfull eq_refl) as [_ Hge]. rewrite Hl in Hle, Hge.
    split; [lia|]. split; [|done]. intros _. split; [|lia].
    intros E. rewrite E in Hl'. simpl in Hl'. lia.
  - unfold within_capacity. simpl.
    rewrite (dict_set_absent _ _ _ Hg), length_app. simpl.
    assert (cache st = [] ∨ Z.of_nat (length (cache st)) < n) as Hroom.
    { destruct (cache st) as [|x l] eqn:E; [by left|]. right.
      destruct (decide (Z.of_nat (length (x :: l)) < n)) as [?|Hn]; [done|].
      assert (false = true) as [=]. apply Hfull. split; [done | lia]. }
    split.
    + destruct Hroom as [->|?]; simpl; lia.
    + rewrite bool_decide_eq_true. split.
      * intros ?. split; [by destruct (cache st) | lia].
      * intros [_ ?]. lia.
Qed.

Lemma ci_maxsize_step d o :
  ci_maxsize (cache_info (step user_function d o).2) =
  ci_maxsize (cache_info d).
Proof.
  destruct o as [c|], d as [m t st|st|t st|n t st]; simpl; try done.
  - by destruct (wrapper_memory _ _ _ _ _).
  - by destruct (wrapper_nocache _ _ _).
  - by destruct (wrapper_unbounded _ _ _ _).
  - by destruct (wrapper_fixed _ _ _ _ _).
Qed.

Lemma ci_maxsize_run d ops :
  ci_maxsize (cache_info (run user_function d ops).2) =
  ci_maxsize (cache_info d).
Proof.
  revert d. induction ops as [|o ops IH]; intros d; [done|].
  simpl. pose proof (ci_maxsize_step d o) as Hs.
  destruct (step user_function d o) as [r d'].
  specialize (IH d'). destruct (run user_function d' ops). simpl in *.
  congruence.
Qed.

Lemma within_capacity_step d o :
  d_wf d → d_within_capacity d → d_within_capacity (step user_function d o).2.
Proof.
  destruct o as [c|], d as [m t st|st|t st|n t st]; simpl; try done.
  - by destruct (wrapper_memory _ _ _ _ _).
  - by destruct (wrapper_nocache _ _ _).
  - by destruct (wrapper_unbounded _ _ _ _).
  - intros [ls Hwf] Hc.
    pose proof (within_capacity_wrapper_fixed n t st ls c Hwf Hc) as Hc'.
    by destruct (wrapper_fixed _ _ _ _ _).
  - intros _ _. split; simpl; [lia|]. split; [done | by intros [? _]].
Qed.

Lemma size_is_misses_step d o :
  d_wf d → d_size_is_misses d → d_size_is_misses (step user_function d o).2.
Proof.
  destruct o as [c|], d as [m t st|st|t st|n t st]; simpl; try done.
  - by destruct (wrapper_memory _ _ _ _ _).
  - by destruct (wrapper_nocache _ _ _).
  - intros _ Hs. unfold wrapper_unbounded.
    destruct (_make_key _ _ _) as [key|]; [|done].
    destruct (dict_get (cache st) key) as [r|] eqn:Hg; [done|].
    destruct (user_function _ _) as [result|]; [|done]. simpl.
    rewrite (dict_set_absent _ _ _ Hg), length_app. simpl. lia.
  - by destruct (wrapper_fixed _ _ _ _ _).
Qed.
End run_invariants.

(** With [maxsize = n], [n] other than [0], and no [use_memory_up_to]:
    after any sequence of calls and [cache_clear()], [cache_info()]
    reports [maxsize = n] and a size that is at most [n] (at most one for a
    negative [n]), and [full] is set exactly when the cache is not empty
    and holds at least [n] entries. *)
Theorem fixed_capacity_bound
    (user_function : list value → list (string * value) → outcome value)
    (cfg : config) (n : Z) (ops : list op) :
  maxsize cfg = Some n → n ≠ 0 → use_memory_up_to cfg = 0 →
  let d := (run user_function (decorating_function cfg) ops).2 in
  let size := Z.of_nat (ci_currsize (cache_info d)) in
  ci_maxsize (cache_info d) = Some n ∧
  size ≤ Z.max n 1 ∧
  (d_full d = true ↔ 0 < size ∧ size >= n).
Proof.
  intros Hn Hn0 Hm d size.
  assert (decorating_function cfg = Fixed n (typed cfg) fresh_state) as Hd.
  { unfold decorating_function. rewrite Hm, Hn. simpl. by destruct n. }
  assert (d_within_capacity d) as Hc.
  { apply run_invariant;
      [apply within_capacity_step | apply d_wf_decorating_function |].
    rewrite Hd. split; simpl; [lia|]. split; [done | by intros [? _]]. }
  pose proof (policy_of_run user_function (decorating_function cfg) ops) as Hp.
  fold d in Hp. rewrite Hd in Hp. simpl in Hp.
  pose proof (ci_maxsize_run user_function (decorating_function cfg) ops)
    as Hmax.
  fold d in Hmax. rewrite Hd in Hmax.
  destruct d as [| | |n' t st]; try done. simpl in Hmax, Hc.
  injection Hmax as ->. destruct Hc as [Hle Hfull].
  subst size. unfold cache_info, ci_maxsize, ci_currsize, d_full.
  split_and!; [done | done |].
  rewrite Hfull. split.
  - intros [Hne ?]. split; [|done]. destruct (cache st); [done | simpl; lia].
  - intros [Hpos ?]. split; [|done]. intros E. rewrite E in Hpos. simpl in Hpos. lia.
Qed.

Lemma fixed_capacity_bound_witness :
  let d := (run echo (decorating_function (Config (Some 2) false 0))
                [f 1; f 2; f 3; f 1]).2 in
  let size := Z.of_nat (ci_currsize (cache_info d)) in
  ci_maxsize (cache_info d) = Some 2 ∧
  size ≤ Z.max 2 1 ∧
  (d_full d = true ↔ 0 < size ∧ size >= 2).
Proof.
  apply (fixed_capacity_bound echo (Config (Some 2) false 0) 2
           [f 1; f 2; f 3; f 1]); [reflexivity | lia | reflexivity].
Defined.

(** ** The unbounded cache *)

Section unbounded.
Variable user_function : list value → list (string * value) → outcome value.

Lemma dict_get_app_Some {V} (d d' : list (value * V)) k v :
  dict_get d k = Some v → dict_get (d ++ d') k = Some v.
Proof.
  induction d as [|[k' v'] d IH]; simpl; [done|].
  by destruct (py_eq k' k).
Qed.

Lemma wrapper_unbounded_keeps typed st c key v :
  dict_get (cache st) key = Some v →
  dict_get (cache (wrapper_unbounded user_function typed st c).2) key = Some v ∧
  (length (cache st) ≤
   length (cache (wrapper_unbounded user_function typed st c).2))%nat.
Proof.
  intros Hg. unfold wrapper_unbounded.
  destruct (_make_key _ _ _) as [key'|]; [|done].
  destruct (dict_get (cache st) key') as [r|] eqn:Hg'; [done|].
  destruct (user_function _ _) as [result|]; [|done]. simpl.
  rewrite (dict_set_absent _ _ _ Hg'), length_app. simpl.
  split; [by apply dict_get_app_Some | lia].
Qed.

Lemma run_unbounded_keeps typed cs st key v :
  dict_get (cache st) key = Some v →
  ∃ st', (run user_function (Unbounded typed st) (map DoCall cs)).2 =
         Unbounded typed st' ∧
    dict_get (cache st') key = Some v ∧
    (length (cache st) ≤ length (cache st'))%nat.
Proof.
  revert st. induction cs as [|c cs IH]; intros st Hg.
  - by exists st.
  - destruct (wrapper_unbounded_keeps typed st c key v Hg) as [Hg1 Hl1].
    destruct (wrapper_unbounded user_function typed st c) as [r st1] eqn:Ew.
    destruct (IH st1 Hg1) as (st' & Hrun & Hg' & Hl').
    simpl map.
    rewrite (run_call _ _ c (map DoCall cs) r (Unbounded typed st1))
      by (simpl; by rewrite Ew).
    exists st'. simpl in *. split_and!; [done | done | lia].
Qed.
End unbounded.

(** With [maxsize=None] and no [use_memory_up_to], after any sequence of
    calls and [cache_clear()], the number of entries reported by
    [cache_info()] is the number of misses it reports: every miss that
    returns adds an entry and nothing is ever removed but by
    [cache_clear()]. *)
Theorem unbounded_size_is_misses
    (user_function : list value → list (string * value) → outcome value)
    (cfg : config) (ops : list op) :
  maxsize cfg = None → use_memory_up_to cfg = 0 →
  let d := (run user_function (decorating_function cfg) ops).2 in
  ci_maxsize (cache_info d) = None ∧
  ci_currsize (cache_info d) = ci_misses (cache_info d).
Proof.
  intros Hn Hm d.
  assert (decorating_function cfg = Unbounded (typed cfg) fresh_state) as Hd.
  { unfold decorating_function. by rewrite Hm, Hn. }
  assert (d_size_is_misses d) as Hs.
  { apply run_invariant;
      [apply size_is_misses_step | apply d_wf_decorating_function |].
    by rewrite Hd. }
  pose proof (policy_of_run user_function (decorating_function cfg) ops) as Hp.
  pose proof (ci_maxsize_run user_function (decorating_function cfg) ops)
    as Hmax.
  fold d in Hp, Hmax. rewrite Hd in Hp, Hmax.
  by destruct d.
Qed.

Lemma unbounded_size_is_misses_witness :
  let d := (run echo (decorating_function (Config None false 0))
                [f 1; f 2; f 1; f 3]).2 in
  ci_maxsize (cache_info d) = None ∧
  ci_currsize (cache_info d) = ci_misses (cache_info d).
Proof.
  apply (unbounded_size_is_misses echo (Config None false 0)
           [f 1; f 2; f 1; f 3]); reflexivity.
Defined.

(** The unbounded cache never forgets: once a result is stored under a
    key, then after any number of calls (on whatever arguments, with no
    [cache_clear()] in between) a call that builds this key is a hit that
    returns the stored result, and the cache has not become smaller. *)
Theorem unbounded_keeps_results
    (user_function : list value → list (string * value) → outcome value)
    (d : decorated) (cs : list call) (c : call) (key v : value) :
  policy_of d = NoLimit →
  d_cached d key v →
  d_key d c = Some (Return key) →
  let d1 := (run user_function d (map DoCall cs)).2 in
  (ci_currsize (cache_info d) ≤ ci_currsize (cache_info d1))%nat ∧
  ∃ d2, wrapper user_function d1 c = (Return v, d2) ∧
    ci_hits (cache_info d2) = S (ci_hits (cache_info d1)) ∧
    ci_misses (cache_info d2) = ci_misses (cache_info d1) ∧
    ci_currsize (cache_info d2) = ci_currsize (cache_info d1).
Proof.
  intros Hp Hc Hk d1. destruct d as [| |t st|]; try done.
  simpl in Hc, Hk.
  destruct (run_unbounded_keeps user_function t cs st key v Hc)
    as (st' & Hrun & Hg & Hl).
  subst d1. rewrite Hrun. split; [done|].
  destruct (cached_is_hit user_function (Unbounded t st') c key v Hk Hg)
    as (d2 & Hw & _ & Hh & Hm & Hs).
  by exists d2.
Qed.

Lemma unbounded_keeps_results_witness :
  let d := (run echo (decorating_function (Config None false 0)) [f 1]).2 in
  let d1 := (run echo d (map DoCall [Call [VInt 2] [] (Return 0);
                                     Call [VInt 3] [] (Return 0)])).2 in
  (ci_currsize (cache_info d) ≤ ci_currsize (cache_info d1))%nat ∧
  ∃ d2, wrapper echo d1 (Call [VInt 1] [] (Return 0)) =
          (Return (VTuple [VInt 1]), d2) ∧
    ci_hits (cache_info d2) = S (ci_hits (cache_info d1)) ∧
    ci_misses (cache_info d2) = ci_misses (cache_info d1) ∧
    ci_currsize (cache_info d2) = ci_currsize (cache_info d1).
Proof.
  apply (unbounded_keeps_results echo
           (run echo (decorating_function (Config None false 0)) [f 1]).2
           [Call [VInt 2] [] (Return 0); Call [VInt 3] [] (Return 0)]
           (Call [VInt 1] [] (Return 0)) (VInt 1) (VTuple [VInt 1]));
    reflexivity.
Defined.

(** ** No caching *)

(** With [maxsize=0] and no [use_memory_up_to], every call is passed to
    the decorated function and gives what that function gives, whatever
    was called before; nothing is ever stored and no hit is ever
    counted. *)
Theorem disabled_never_caches
    (user_function : list value → list (string * value) → outcome value)
    (cfg : config) (ops : list op) :
  maxsize cfg = Some 0 → use_memory_up_to cfg = 0 →
  let r := run user_function (decorating_function cfg) ops in
  r.1 = map (uncached user_function) ops ∧
  ci_hits (cache_info r.2) = 0%nat ∧
  ci_currsize (cache_info r.2) = 0%nat ∧
  ci_maxsize (cache_info r.2) = Some 0.
Proof.
  intros Hn Hm.
  assert (decorating_function cfg = NoCache fresh_state) as ->.
  { unfold decorating_function. by rewrite Hm, Hn. }
  assert (∀ st : state addr, cache st = [] → hits st = 0%nat →
    let r := run user_function (NoCache st) ops in
    r.1 = map (uncached user_function) ops ∧
    ci_hits (cache_info r.2) = 0%nat ∧
    ci_currsize (cache_info r.2) = 0%nat ∧
    ci_maxsize (cache_info r.2) = Some 0) as H; [|by apply H].
  induction ops as [|o ops IH]; intros st Hc Hh.
  - simpl. by rewrite Hc, Hh.
  - destruct o as [c|]; simpl.
    + unfold wrapper_nocache.
      destruct (user_function (c_args c) (c_kwds c)) as [v|e].
      * specialize (IH (count_miss st) Hc Hh).
        destruct (run user_function (NoCache (count_miss st)) ops).
        simpl in *. destruct IH as (-> & ?). done.
      * specialize (IH st Hc Hh).
        destruct (run user_function (NoCache st) ops).
        simpl in *. destruct IH as (-> & ?). done.
    + specialize (IH (cache_clear st) eq_refl eq_refl).
      destruct (run user_function (NoCache (cache_clear st)) ops).
      simpl in *. destruct IH as (-> & ?). done.
Qed.

Lemma disabled_never_caches_witness :
  let r := run echo (decorating_function (Config (Some 0) false 0))
               [f 1; f 1; DoClear; f 1] in
  r.1 = map (uncached echo) [f 1; f 1; DoClear; f 1] ∧
  ci_hits (cache_info r.2) = 0%nat ∧
  ci_currsize (cache_info r.2) = 0%nat ∧
  ci_maxsize (cache_info r.2) = Some 0.
Proof.
  apply (disabled_never_caches echo (Config (Some 0) false 0)
           [f 1; f 1; DoClear; f 1]); reflexivity.
Defined.

(** ** The counters add up *)

Section lookups.
Variable user_function : list value → list (string * value) → outcome value.

Lemma lookups_wrapper d c :
  d_lookups (wrapper user_function d c).2 =
  match (wrapper user_function d c).1 with
  | Return _ => S (d_lookups d)
  | Raise _ => d_lookups d
  end.
Proof.
  unfold d_lookups.
  destruct d as [m t st|st|t st|n t st]; simpl.
  - unfold wrapper_memory.
    destruct (_make_key _ _ _) as [key|]; [|done].
    unfold lookup. destruct (dict_get (cache st) key) as [a|] eqn:Hg; [done|].
    destruct (user_function _ _) as [result|]; [|done].
    destruct (store_memory m (c_probe c) st key result) as [[r|e] st'] eqn:E.
    + apply store_memory_counters in E as [E1 E2]. simpl. lia.
    + revert E. unfold store_memory.
      destruct (dict_contains _ _); [done|].
      destruct (full st).
      * destruct (evict st key result) as [[[]|e'] st''] eqn:E'; [done|].
        apply evict_counters in E' as [E1 E2].
        intros [= _ <-]. simpl. by rewrite E1, E2.
      * destruct (c_probe c); [done|]. by intros [= _ <-].
  - unfold wrapper_nocache.
    destruct (user_function _ _); simpl; [lia | done].
  - unfold wrapper_unbounded.
    destruct (_make_key _ _ _) as [key|]; [|done].
    destruct (dict_get (cache st) key) as [r|]; [done|].
    destruct (user_function _ _); simpl; [lia | done].
  - unfold wrapper_fixed.
    destruct (_make_key _ _ _) as [key|]; [|done].
    unfold lookup. destruct (dict_get (cache st) key) as [a|] eqn:Hg; [done|].
    destruct (user_function _ _) as [result|]; [|done].
    destruct (store_fixed n st key result) as [[r|e] st'] eqn:E.
    + apply store_fixed_counters in E as [E1 E2]. simpl. lia.
    + revert E. unfold store_fixed.
      destruct (dict_contains _ _); [done|].
      destruct (full st); [|done].
      destruct (evict st key result) as [[[]|e'] st''] eqn:E'; [done|].
      apply evict_counters in E' as [E1 E2].
      intros [= _ <-]. simpl. by rewrite E1, E2.
Qed.

Lemma lookups_clear d : d_lookups (d_cache_clear d) = 0%nat.
Proof. by destruct d. Qed.
End lookups.

(** Under every configuration and from any state: after a sequence of
    calls and [cache_clear()], the sum [hits + misses] reported by
    [cache_info()] is the number of calls that have returned since the last
    [cache_clear()] (added to the sum before the sequence when there was
    none).  A call that raises, whatever raised, is not counted. *)
Theorem counters_add_up
    (user_function : list value → list (string * value) → outcome value)
    (d : decorated) (ops : list op) :
  d_lookups (run user_function d ops).2 =
  completed ops (run user_function d ops).1 (d_lookups d).
Proof.
  revert d. induction ops as [|o ops IH]; intros d; [done|].
  destruct o as [c|].
  - pose proof (lookups_wrapper user_function d c) as Hl.
    destruct (wrapper user_function d c) as [r d1] eqn:Ew.
    rewrite (run_call _ _ c ops r d1 Ew). simpl in *.
    rewrite IH. destruct r; by rewrite Hl.
  - simpl. specialize (IH (d_cache_clear d)).
    destruct (run user_function (d_cache_clear d) ops). simpl in *.
    by rewrite IH, lookups_clear.
Qed.

(** ** The keys built by [_make_key] *)

Section keys.
Implicit Types (args : list value) (kwds : list (string * value)).

Lemma string_leb_trans s1 s2 s3 :
  String.leb s1 s2 = true → String.leb s2 s3 = true → String.leb s1 s3 = true.
Proof.
  unfold String.leb. revert s2 s3.
  induction s1 as [|a s1 IH]; intros [|b s2] [|c s3]; simpl; try done.
  unfold Ascii.compare.
  destruct (N.compare_spec (Ascii.N_of_ascii a) (Ascii.N_of_ascii b));
    destruct (N.compare_spec (Ascii.N_of_ascii b) (Ascii.N_of_ascii c));
    destruct (N.compare_spec (Ascii.N_of_ascii a) (Ascii.N_of_ascii c));
    try done; try lia.
  apply IH.
Qed.

Lemma string_leb_false s1 s2 : String.leb s1 s2 = false → String.leb s2 s1 = true.
Proof. intros E. destruct (String.leb_total s1 s2); congruence. Qed.

Lemma string_leb_asym s1 s2 :
  s1 ≠ s2 → String.leb s1 s2 = true → String.leb s2 s1 = false.
Proof.
  intros Hne H1. destruct (String.leb s2 s1) eqn:H2; [|done].
  destruct Hne. by apply String.leb_antisym.
Qed.

(** Items with different names are put in place in any order. *)
Lemma insert_item_comm (x y : string * value) l :
  x.1 ≠ y.1 →
  insert_item x (insert_item y l) = insert_item y (insert_item x l).
Proof.
  intros Hne. assert (y.1 ≠ x.1) as Hne' by congruence.
  induction l as [|z l IH]; simpl.
  - destruct (String.leb x.1 y.1) eqn:E1; simpl.
    + by rewrite (string_leb_asym _ _ Hne E1).
    + by rewrite (string_leb_false _ _ E1).
  - destruct (String.leb y.1 z.1) eqn:Eyz, (String.leb x.1 z.1) eqn:Exz; simpl.
    + destruct (String.leb x.1 y.1) eqn:Exy; simpl.
      * by rewrite (string_leb_asym _ _ Hne Exy), Eyz.
      * by rewrite (string_leb_false _ _ Exy), Exz.
    + rewrite Eyz.
      destruct (String.leb x.1 y.1) eqn:Exy; simpl.
      * by rewrite (string_leb_trans _ _ _ Exy Eyz) in Exz.
      * by rewrite Exz.
    + rewrite Exz.
      destruct (String.leb y.1 x.1) eqn:Eyx; simpl.
      * by rewrite (string_leb_trans _ _ _ Eyx Exz) in Eyz.
      * by rewrite Eyz.
    + by rewrite Exz, Eyz, IH.
Qed.

Lemma sorted_Permutation_eq kwds kwds' :
  NoDup (map fst kwds) → kwds ≡ₚ kwds' → sorted kwds = sorted kwds'.
Proof.
  intros ND Hp. revert ND.
  induction Hp as [|x l l' Hp IH|x y l|l1 l2 l3 Hp1 IH1 Hp2 IH2]; simpl.
  - done.
  - intros [_ ND]%NoDup_cons. by rewrite IH.
  - intros [Hx _]%NoDup_cons. apply insert_item_comm.
    intros E. apply Hx. rewrite E. apply list_elem_of_here.
  - intros ND. rewrite IH1 by done. apply IH2. by rewrite <- Hp1.
Qed.

Lemma make_key_items args kwds typed :
  _make_key args kwds typed =
  if negb typed && bool_decide (kwds = []) && fast_key args
  then Return (default VNone (head args))
  else _HashedSeq (key_items args kwds typed).
Proof.
  unfold _make_key, key_items.
  destruct kwds as [|item kwds].
  - destruct typed; simpl; [done|]. rewrite app_nil_r.
    destruct args as [|k0 [|k1 args]]; simpl; try done.
  - rewrite fold_left_items. unfold kwd_mark.
    rewrite <- !app_assoc. simpl (_ ++ _) at 2.
    rewrite andb_false_r.
    destruct typed.
    + reflexivity.
    + rewrite app_nil_r.
      destruct (sorted (item :: kwds)) as [|i1 l] eqn:Es.
      { pose proof (sorted_Permutation (item :: kwds)) as Hp.
        rewrite Es in Hp. by apply Permutation_nil in Hp. }
      simpl. by destruct args as [|k0 [|k1 args]].
Qed.

Lemma hashable_key_items args kwds typed :
  forallb hashable (key_items args kwds typed) =
  forallb hashable (args ++ map snd kwds).
Proof.
  assert (∀ l : list value, forallb hashable (map (λ v, VType (py_type v)) l) = true)
    as Ht by (induction l; simpl; auto).
  assert (∀ l : list (string * value),
    forallb hashable (map (λ item, VType (py_type item.2)) l) = true)
    as Ht' by (induction l; simpl; auto).
  assert (∀ l : list (string * value),
    forallb hashable (flat_map (λ item, [VStr item.1; item.2]) l) =
    forallb hashable (map snd l)) as Hf.
  { induction l as [|x l IH]; simpl; [done|]. by rewrite IH. }
  assert (∀ l l' : list value, l ≡ₚ l' →
    forallb hashable l = forallb hashable l') as Hperm.
  { induction 1; simpl; try congruence.
    rewrite !andb_assoc. f_equal. apply andb_comm. }
  unfold key_items. destruct kwds as [|item kwds].
  - rewrite !forallb_app. simpl. destruct typed; simpl.
    + by rewrite Ht.
    + done.
  - pose proof (sorted_Permutation (item :: kwds)) as Hp.
    set (s := sorted (item :: kwds)) in *. clearbody s.
    rewrite !forallb_app.
    change (forallb hashable (VObject 0 :: ?l)) with (forallb hashable l).
    rewrite forallb_app, Hf, (Hperm _ _ (Permutation_map snd Hp)).
    destruct typed.
    + rewrite forallb_app, Ht, Ht'. simpl. by rewrite !andb_true_r.
    + simpl. by rewrite !andb_true_r.
Qed.
End keys.

(** [_make_key] raises exactly when one of the values passed, positional
    or keyword, is unhashable, and then it raises [TypeError]; otherwise it
    returns a key, which is hashable. *)
Theorem make_key_outcome
    (args : list value) (kwds : list (string * value)) (typed : bool) :
  match _make_key args kwds typed with
  | Return key =>
      forallb hashable (args ++ map snd kwds) = true ∧ hashable key = true
  | Raise e =>
      e = TypeError ∧ forallb hashable (args ++ map snd kwds) = false
  end.
Proof.
  rewrite make_key_items.
  destruct (negb typed && bool_decide (kwds = []) && fast_key args) eqn:E.
  - apply andb_true_iff in E as [[Et Ek]%andb_true_iff Ef].
    apply bool_decide_eq_true in Ek as ->.
    destruct args as [|k0 [|k1 args]]; try done. simpl in *.
    destruct (hashable k0) eqn:Eh; [done|].
    by rewrite (unhashable_not_fast _ Eh) in Ef.
  - unfold _HashedSeq. rewrite hashable_key_items.
    by destruct (forallb hashable (args ++ map snd kwds)).
Qed.

(** The order in which keyword arguments are passed does not matter: two
    calls whose keyword arguments are the same items in another order build
    the same key. *)
Theorem keyword_order_irrelevant
    (args : list value) (kwds kwds' : list (string * value)) (typed : bool) :
  NoDup (map fst kwds) → kwds ≡ₚ kwds' →
  _make_key args kwds typed = _make_key args kwds' typed.
Proof.
  intros ND Hp. rewrite !make_key_items.
  assert (bool_decide (kwds = []) = bool_decide (kwds' = [])) as ->.
  { apply bool_decide_ext. split; intros ->.
    - by apply Permutation_nil in Hp.
    - symmetry in Hp. by apply Permutation_nil in Hp. }
  assert (key_items args kwds typed = key_items args kwds' typed) as ->; [|done].
  unfold key_items. rewrite (sorted_Permutation_eq _ _ ND Hp).
  destruct kwds, kwds'; try done.
  - by apply Permutation_nil_cons in Hp.
  - symmetry in Hp. by apply Permutation_nil_cons in Hp.
Qed.

Lemma keyword_order_irrelevant_witness :
  _make_key [VInt 1] [("a", VInt 2); ("b", VInt 3)]%string false =
  _make_key [VInt 1] [("b", VInt 3); ("a", VInt 2)]%string false.
Proof.
  apply keyword_order_irrelevant.
  - apply NoDup_cons. split; [|apply NoDup_singleton].
    by intros [=]%list_elem_of_singleton.
  - apply Permutation_swap.
Defined.

Section key_equality.
Implicit Types (args : list value) (kwds : list (string * value)).

Lemma seq_eq_Forall2 {A} (eq : A → A → bool) xs ys :
  seq_eq eq xs ys = true ↔ Forall2 (λ a b, eq a b = true) xs ys.
Proof.
  revert ys. induction xs as [|x xs IH]; intros [|y ys]; simpl.
  - split; [constructor | done].
  - split; [done | inversion 1].
  - split; [done | inversion 1].
  - rewrite andb_true_iff, IH. split.
    + intros [? ?]. by constructor.
    + inversion 1; subst. done.
Qed.

Lemma seq_eq_length_ne {A} (eq : A → A → bool) xs ys :
  length xs ≠ length ys → seq_eq eq xs ys = false.
Proof.
  intros Hne. destruct (seq_eq eq xs ys) eqn:E; [|done].
  apply seq_eq_Forall2, Forall2_length in E. done.
Qed.

Lemma seq_eq_app {A} (eq : A → A → bool) xs1 xs2 ys1 ys2 :
  length xs1 = length ys1 →
  seq_eq eq (xs1 ++ xs2) (ys1 ++ ys2) =
  seq_eq eq xs1 ys1 && seq_eq eq xs2 ys2.
Proof.
  revert ys1. induction xs1 as [|x xs1 IH]; intros [|y ys1]; simpl; try done.
  intros [= Hl]. by rewrite IH, andb_assoc.
Qed.

Lemma seq_eq_types args1 args2 :
  seq_eq py_eq (map (λ v, VType (py_type v)) args1)
               (map (λ v, VType (py_type v)) args2) =
  bool_decide (map py_type args1 = map py_type args2).
Proof.
  revert args2. induction args1 as [|x args1 IH]; intros [|y args2]; simpl;
    try done.
  rewrite IH. apply eq_true_iff_eq.
  rewrite andb_true_iff, !bool_decide_eq_true. split.
  - intros [-> ->]. done.
  - intros [= -> ->]. done.
Qed.

Lemma py_eq_object x i : py_eq x (VObject i) = true → x = VObject i.
Proof.
  destruct x; simpl; try done. intros ?%Nat.eqb_eq. by subst.
Qed.

Lemma py_eq_fast_HashedSeq x vs :
  bool_decide (py_type x ∈ fasttypes) = true →
  py_eq x (VHashedSeq vs) = false.
Proof. by destruct x. Qed.

(** The key of a call with keyword arguments is a [_HashedSeq] that holds
    the marker after the positional arguments. *)
Lemma make_key_keywords args kwds typed key :
  kwds ≠ [] → _make_key args kwds typed = Return key →
  ∃ rest, key = VHashedSeq (args ++ VObject 0 :: rest).
Proof.
  intros Hk. rewrite make_key_items.
  rewrite (bool_decide_eq_false_2 _ Hk), andb_false_r. simpl.
  unfold _HashedSeq, key_items.
  destruct (forallb _ _); [|done]. intros [= <-].
  destruct kwds; [done|]. eauto.
Qed.

(** The key of a call without keyword arguments is the single argument
    itself, or a [_HashedSeq] of the arguments, followed by their types
    when [typed] is set. *)
Lemma make_key_positional args typed key :
  _make_key args [] typed = Return key →
  (typed = false ∧ fast_key args = true ∧ args = [key]) ∨
  (negb typed && fast_key args = false ∧
   key = VHashedSeq
           (args ++ if typed then map (λ v, VType (py_type v)) args else [])).
Proof.
  rewrite make_key_items. rewrite bool_decide_eq_true_2 by done.
  rewrite andb_true_r.
  destruct (negb typed && fast_key args) eqn:E.
  - apply andb_true_iff in E as [Et Ef]. intros [= <-]. left.
    destruct typed; [done|]. split_and!; [done..|].
    by destruct args as [|k0 [|k1 args]].
  - unfold _HashedSeq, key_items. destruct (forallb _ _); [|done].
    intros [= <-]. by right.
Qed.
End key_equality.

(** When two calls without keyword arguments build keys, the keys are
    equal exactly when the arguments are equal one by one and, under
    [typed=True], have the same types one by one; under [typed=False], a
    single argument of a type in [fasttypes] is its own key and never equals
    the [_HashedSeq] built for another call, so that both calls have to
    take line 63, or neither. *)
Theorem positional_keys_equal
    (args1 args2 : list value) (typed : bool) (key1 key2 : value) :
  _make_key args1 [] typed = Return key1 →
  _make_key args2 [] typed = Return key2 →
  py_eq key1 key2 =
  seq_eq py_eq args1 args2 &&
  (if typed then bool_decide (map py_type args1 = map py_type args2)
   else bool_decide (fast_key args1 = fast_key args2)).
Proof.
  intros [(-> & Hf1 & ->)|[Hf1 ->]]%make_key_positional
         [(Ht & Hf2 & ->)|[Hf2 ->]]%make_key_positional.
  - rewrite Hf1, Hf2. simpl. by rewrite !andb_true_r.
  - simpl in Hf2. rewrite Hf1, Hf2, andb_false_r.
    by apply py_eq_fast_HashedSeq.
  - subst typed. simpl in Hf1. rewrite Hf1, Hf2, andb_false_r.
    rewrite py_eq_sym. by apply py_eq_fast_HashedSeq.
  - destruct typed; simpl in *.
    + destruct (decide (length args1 = length args2)) as [Hl|Hl].
      * by rewrite (seq_eq_app _ _ _ _ _ Hl), seq_eq_types.
      * rewrite !seq_eq_length_ne; [done | done |].
        rewrite !length_app, !length_map. lia.
    + rewrite !app_nil_r, Hf1, Hf2. simpl. by rewrite andb_true_r.
Qed.

Lemma positional_keys_equal_witness :
  py_eq (VInt 3) (VHashedSeq [VFloat 3 0]) =
  seq_eq py_eq [VInt 3] [VFloat 3 0] &&
  bool_decide (fast_key [VInt 3] = fast_key [VFloat 3 0]).
Proof.
  apply (positional_keys_equal [VInt 3] [VFloat 3 0] false); reflexivity.
Defined.

(** A call without keyword arguments and a call with keyword arguments
    never build equal keys, provided the first is not passed the marker
    object itself, which [_make_key] keeps in a default argument of its
    own. *)
Theorem keyword_mark_separates
    (args1 args2 : list value) (kwds2 : list (string * value)) (typed : bool)
    (key1 key2 : value) :
  Forall (λ v, v ∉ kwd_mark) args1 → kwds2 ≠ [] →
  _make_key args1 [] typed = Return key1 →
  _make_key args2 kwds2 typed = Return key2 →
  py_eq key1 key2 = false ∧ py_eq key2 key1 = false.
Proof.
  intros Hmark Hk H1 [rest ->]%make_key_keywords; [|done].
  assert (py_eq key1 (VHashedSeq (args2 ++ VObject 0 :: rest)) = false) as E.
  { apply make_key_positional in H1 as [(_ & Hf1 & ->)|[_ ->]].
    - by apply py_eq_fast_HashedSeq.
    - simpl.
      destruct (seq_eq py_eq _ _) eqn:E; [|done]. exfalso.
      apply seq_eq_Forall2, Forall2_app_inv_r in E
        as (l1 & l2 & _ & H2 & Happ).
      inversion H2 as [|x y l2' rest' Hx _]; subst.
      apply py_eq_object in Hx as ->.
      assert (VObject 0 ∈ args1 ++
                (if typed then map (λ v, VType (py_type v)) args1 else []))
        as Hin.
      { rewrite Happ. apply elem_of_app. right. apply list_elem_of_here. }
      apply elem_of_app in Hin as [Hin|Hin].
      + rewrite Forall_forall in Hmark. apply (Hmark _ Hin).
        apply list_elem_of_here.
      + destruct typed; [|by apply elem_of_nil in Hin].
        by apply list_elem_of_fmap in Hin as (v & [=] & _). }
  split; [done|]. by rewrite py_eq_sym.
Qed.

Lemma keyword_mark_separates_witness :
  py_eq (VHashedSeq [VInt 1; VInt 2])
        (VHashedSeq [VInt 1; VObject 0; VStr "a"; VInt 2]) = false ∧
  py_eq (VHashedSeq [VInt 1; VObject 0; VStr "a"; VInt 2])
        (VHashedSeq [VInt 1; VInt 2]) = false.
Proof.
  apply (keyword_mark_separates [VInt 1; VInt 2] [VInt 1]
           [("a"%string, VInt 2)] false).
  - repeat constructor; by intros [=]%list_elem_of_singleton.
  - done.
  - reflexivity.
  - reflexivity.
Defined.

(** ** The entries of the cache under the operations of the wrappers *)

Section contents_facts.
Implicit Types (st : state addr) (ls : list addr) (es : list (value * value)).

Lemma wf_contents st ls : wf st ls → contents st = map (item (heap st)) ls.
Proof. intros Hwf. unfold contents. by rewrite (wf_ring_links _ _ Hwf). Qed.

Lemma contents_keys st : map fst (contents st) = ring_keys st.
Proof. unfold contents, ring_keys. by rewrite map_map. Qed.

Lemma wf_contents_length st ls :
  wf st ls → length (contents st) = length (cache st).
Proof.
  intros Hwf. by rewrite (wf_contents _ _ Hwf), (wf_length _ _ Hwf), length_map.
Qed.

Lemma contents_insert st ls key result :
  wf st ls → dict_get (cache st) key = None →
  contents (insert st key result) = contents st ++ [(key, result)].
Proof.
  intros Hwf Hk.
  rewrite (wf_contents _ _ (wf_insert _ _ key result Hwf Hk)).
  rewrite (wf_contents _ _ Hwf), map_app. f_equal.
  - apply map_ext_in. intros x Hx%list_elem_of_In. unfold item.
    rewrite KEY_insert_state, RESULT_insert_state.
    by rewrite !decide_False by exact (wf_new_addr _ _ _ Hwf Hx).
  - cbn [map]. unfold item.
    rewrite KEY_insert_state, RESULT_insert_state.
    by rewrite !decide_True by done.
Qed.

Lemma RESULT_evict st key result o st' x :
  evict st key result = (o, st') →
  x ≠ root st → x ≠ NEXT (heap st !!! root st) →
  RESULT (heap st' !!! x) = RESULT (heap st !!! x).
Proof.
  unfold evict. intros Hev Hx1 Hx2.
  destruct (dict_del _ _); injection Hev as _ <-; simpl;
    store_simpl; rewrite !decide_False; store_simpl; done.
Qed.

Lemma contents_evict st ls key result :
  wf st ls → full st = true → dict_get (cache st) key = None →
  ∃ st', evict st key result = (Return (), st') ∧
    contents st' = tail (contents st) ++ [(key, result)] ∧
    hits st' = hits st ∧ misses st' = misses st ∧ full st' = full st.
Proof.
  intros Hwf Hfull Hk.
  destruct (wf_evict _ _ key result Hwf Hfull Hk)
    as (a & ls' & st' & -> & Hev & Hwf' & Hroot & HK & HR & HKs & _ & Hh & Hm & Hf).
  exists st'. split_and!; try done.
  pose proof (wf_ring _ _ Hwf) as ((Hn & _) & ND & _).
  apply NoDup_cons in ND as [Hr ND]. apply NoDup_cons in ND as [Ha _].
  rewrite (wf_contents _ _ Hwf'), (wf_contents _ _ Hwf), map_app.
  cbn [map tail]. f_equal.
  - apply map_ext_in. intros x Hx%list_elem_of_In. unfold item.
    rewrite (HKs x Hx). f_equal.
    apply (RESULT_evict _ _ _ _ _ _ Hev).
    + intros ->. apply Hr. by apply list_elem_of_further.
    + rewrite Hn. by intros ->.
  - unfold item. by rewrite HK, HR.
Qed.

Lemma dict_get_found es1 k r es2 key :
  Forall (λ kv, py_eq kv.1 key = false) es1 → py_eq k key = true →
  dict_get (es1 ++ (k, r) :: es2) key = Some r.
Proof.
  intros Hne Hk. induction Hne as [|[k' r'] es1 Hk' _ IH]; simpl in *.
  - by rewrite Hk.
  - by rewrite Hk'.
Qed.

Lemma promote_found es1 k r es2 key :
  Forall (λ kv, py_eq kv.1 key = false) es1 → py_eq k key = true →
  promote (es1 ++ (k, r) :: es2) key = es1 ++ es2 ++ [(k, r)].
Proof.
  intros Hne Hk. induction Hne as [|[k' r'] es1 Hk' _ IH]; simpl in *.
  - by rewrite Hk.
  - by rewrite Hk', IH.
Qed.

(** A hit, seen on the entries. *)
Lemma contents_lookup st ls key a :
  wf st ls → dict_get (cache st) key = Some a →
  dict_get (contents st) key = Some (RESULT (heap st !!! a)) ∧
  contents (with_heap st (move_to_front (heap st) (root st) a)) =
  promote (contents st) key.
Proof.
  intros Hwf Hg.
  destruct (wf_move_to_front _ _ _ _ Hwf Hg) as (l1 & l2 & -> & Hk & Hwf').
  pose proof (wf_distinct_keys _ _ Hwf) as Hd.
  rewrite (wf_ring_keys _ _ Hwf), map_app in Hd. cbn [map] in Hd.
  pose proof (distinct_found _ _ _ _ Hd Hk) as Hne.
  apply Forall_app in Hne as [Hne _].
  assert (Forall (λ kv, py_eq kv.1 key = false) (map (item (heap st)) l1))
    as Hne1.
  { apply Forall_fmap. apply Forall_fmap in Hne.
    eapply Forall_impl; [exact Hne|].
    intros x Hx. simpl in *. by rewrite py_eq_sym. }
  rewrite (wf_contents _ _ Hwf), map_app. cbn [map].
  change (item (heap st) a) with (KEY (heap st !!! a), RESULT (heap st !!! a)).
  split.
  - by apply dict_get_found.
  - rewrite (promote_found _ _ _ _ _ Hne1 Hk).
    rewrite (wf_contents _ _ Hwf'), !map_app. cbn [map heap with_heap].
    unfold item. rewrite !KEY_move_to_front, !RESULT_move_to_front.
    f_equal; [|f_equal]; apply map_ext; intros x;
      by rewrite KEY_move_to_front, RESULT_move_to_front.
Qed.

Lemma contents_absent st ls key :
  wf st ls → dict_get (cache st) key = None →
  dict_get (contents st) key = None.
Proof.
  intros Hwf Hg. apply dict_get_None. rewrite contents_keys.
  by apply (wf_absent _ _ _ Hwf).
Qed.

Lemma contents_fresh_state : contents (@fresh_state addr) = [].
Proof. by rewrite (wf_contents _ _ wf_fresh_state). Qed.

Lemma contents_cache_clear st : contents (cache_clear st) = [].
Proof.
  assert (wf (cache_clear st) []) as Hwf.
  { split; simpl; try done. apply ring_clear. }
  by rewrite (wf_contents _ _ Hwf).
Qed.
End contents_facts.

(** ** The wrappers implement the list model *)

Section refinement.
Variable user_function : list value → list (string * value) → outcome value.
Implicit Types (st : state addr) (ls : list addr) (d : decorated).

Lemma wrapper_fixed_view n t st ls c :
  wf st ls →
  (wrapper_fixed user_function n t st c).1 =
    (lru_call user_function (SFixed n t) (st_view st) c).1 ∧
  st_view (wrapper_fixed user_function n t st c).2 =
    (lru_call user_function (SFixed n t) (st_view st) c).2.
Proof.
  intros Hwf. unfold wrapper_fixed, lru_call, lru_sized.
  destruct (_make_key _ _ _) as [key|e]; [|done].
  unfold lookup. cbn [v_entries v_full v_hits v_misses st_view].
  destruct (dict_get (cache st) key) as [a|] eqn:Hg.
  - destruct (contents_lookup _ _ _ _ Hwf Hg) as [-> <-]. done.
  - rewrite (contents_absent _ _ _ Hwf Hg).
    destruct (user_function _ _) as [r|e]; [|done].
    unfold store_fixed. rewrite (proj2 (dict_contains_get _ _) Hg).
    destruct (full st) eqn:Hf.
    + destruct (contents_evict _ _ key r Hwf Hf Hg)
        as (st' & -> & Hc & Hh & Hm & Hf').
      unfold st_view. cbn [fst snd]. split; [done|].
      change (contents (count_miss st')) with (contents st').
      cbn [hits misses full count_miss]. by rewrite Hc, Hh, Hm, Hf', Hf.
    + cbn [fst snd]. split; [done|]. unfold st_view.
      change (contents (count_miss (with_full ?s ?b))) with (contents s).
      rewrite (contents_insert _ _ key r Hwf Hg).
      cbn [hits misses full count_miss with_full]. f_equal.
      rewrite length_app, (wf_contents_length _ _ Hwf).
      unfold insert. cbn [cache].
      by rewrite (dict_set_absent _ _ _ Hg), length_app.
Qed.

Lemma wrapper_memory_view m t st ls c :
  wf st ls →
  (wrapper_memory user_function m t st c).1 =
    (lru_call user_function (SMemory m t) (st_view st) c).1 ∧
  st_view (wrapper_memory user_function m t st c).2 =
    (lru_call user_function (SMemory m t) (st_view st) c).2.
Proof.
  intros Hwf. unfold wrapper_memory, lru_call, lru_sized.
  destruct (_make_key _ _ _) as [key|e]; [|done].
  unfold lookup. cbn [v_entries v_full v_hits v_misses st_view].
  destruct (dict_get (cache st) key) as [a|] eqn:Hg.
  - destruct (contents_lookup _ _ _ _ Hwf Hg) as [-> <-]. done.
  - rewrite (contents_absent _ _ _ Hwf Hg).
    destruct (user_function _ _) as [r|e]; [|done].
    unfold store_memory. rewrite (proj2 (dict_contains_get _ _) Hg).
    destruct (full st) eqn:Hf.
    + destruct (contents_evict _ _ key r Hwf Hf Hg)
        as (st' & -> & Hc & Hh & Hm & Hf').
      unfold st_view. cbn [fst snd]. split; [done|].
      change (contents (count_miss st')) with (contents st').
      cbn [hits misses full count_miss]. by rewrite Hc, Hh, Hm, Hf', Hf.
    + pose proof (contents_insert _ _ key r Hwf Hg) as Hc.
      destruct (c_probe c) as [available|e]; cbn [fst snd];
        (split; [done|]); unfold st_view.
      * change (contents (count_miss (with_full ?s ?b))) with (contents s).
        by rewrite Hc.
      * rewrite Hc. unfold insert. cbn [hits misses full]. by rewrite Hf.
Qed.

Lemma wrapper_view d c :
  d_wf d →
  (wrapper user_function d c).1 =
    (lru_call user_function (d_setting d) (d_view d) c).1 ∧
  d_view (wrapper user_function d c).2 =
    (lru_call user_function (d_setting d) (d_view d) c).2 ∧
  d_setting (wrapper user_function d c).2 = d_setting d.
Proof.
  destruct d as [m t st|st|t st|n t st]; simpl.
  - intros [ls Hwf].
    destruct (wrapper_memory_view m t st ls c Hwf) as [H1 H2].
    by destruct (wrapper_memory _ _ _ _ _).
  - intros _. unfold wrapper_nocache.
    by destruct (user_function _ _).
  - intros _. unfold wrapper_unbounded.
    destruct (_make_key _ _ _) as [key|e]; [|done].
    destruct (dict_get (cache st) key) as [r|] eqn:Hg; [done|].
    destruct (user_function _ _) as [r|e]; [|done]. simpl.
    by rewrite (dict_set_absent _ _ _ Hg).
  - intros [ls Hwf].
    destruct (wrapper_fixed_view n t st ls c Hwf) as [H1 H2].
    by destruct (wrapper_fixed _ _ _ _ _).
Qed.

Lemma step_view d o :
  d_wf d →
  (step user_function d o).1 =
    (lru_step user_function (d_setting d) (d_view d) o).1 ∧
  d_view (step user_function d o).2 =
    (lru_step user_function (d_setting d) (d_view d) o).2 ∧
  d_setting (step user_function d o).2 = d_setting d.
Proof.
  destruct o as [c|]; [apply wrapper_view|].
  intros _.
  destruct d as [m t st|st|t st|n t st]; simpl; unfold st_view;
    by rewrite ?contents_cache_clear.
Qed.

Lemma run_view d ops :
  d_wf d →
  (run user_function d ops).1 =
    (lru_run user_function (d_setting d) (d_view d) ops).1 ∧
  d_view (run user_function d ops).2 =
    (lru_run user_function (d_setting d) (d_view d) ops).2 ∧
  d_setting (run user_function d ops).2 = d_setting d.
Proof.
  revert d. induction ops as [|o ops IH]; intros d Hwf; [done|].
  destruct (step_view d o Hwf) as (H1 & H2 & H3).
  pose proof (d_wf_step user_function d o Hwf) as Hwf'.
  simpl. destruct (step user_function d o) as [r d'].
  destruct (lru_step user_function (d_setting d) (d_view d) o) as [r' v'].
  simpl in *. subst r' v'.
  destruct (IH d' Hwf') as (H1' & H2' & H3'). rewrite H3 in *.
  destruct (run user_function d' ops) as [rs d''].
  destruct (lru_run user_function (d_setting d) (d_view d') ops) as [rs' v''].
  simpl in *. by subst.
Qed.

(** The number of entries that [cache_info()] reports. *)
Lemma currsize_view d :
  d_wf d → ci_currsize (cache_info d) = length (v_entries (d_view d)).
Proof.
  destruct d as [m t st|st|t st|n t st]; simpl; try done;
    intros [ls Hwf]; by rewrite (wf_contents_length _ _ Hwf).
Qed.

Lemma cache_info_view d1 d2 :
  d_wf d1 → d_wf d2 →
  d_setting d1 = d_setting d2 → d_view d1 = d_view d2 →
  cache_info d1 = cache_info d2.
Proof.
  intros Hwf1 Hwf2 Hs Hv.
  pose proof (currsize_view d1 Hwf1) as H1.
  pose proof (currsize_view d2 Hwf2) as H2.
  rewrite Hv, <- H2 in H1.
  destruct d1, d2; simpl in *; try done; unfold st_view in *;
    simplify_eq; f_equal; congruence.
Qed.

Lemma d_view_cache_clear d : d_view (d_cache_clear d) = View [] 0 0 false.
Proof.
  destruct d; simpl; unfold st_view; by rewrite ?contents_cache_clear.
Qed.

Lemma d_view_decorating_function cfg :
  d_view (decorating_function cfg) = View [] 0 0 false.
Proof.
  unfold decorating_function.
  case_bool_decide; [|destruct (maxsize cfg) as [[| |]|]];
    simpl; unfold st_view; by rewrite ?contents_fresh_state.
Qed.
End refinement.

(** The wrappers implement a list kept in the order of use.  From any
    reachable state, what a sequence of calls and [cache_clear()] returns
    and raises, and the entries, counters and flag [full] it leaves, are
    those of the list model: a hit takes the result from the list and moves
    its entry to the end; a miss on a full cache drops the first entry and
    adds the new one at the end; a miss on a cache that is not full adds the
    new entry at the end, then sets [full] from the size or from the memory
    probe; [cache_clear()] empties the list.  The circular list, the
    dictionary and the addresses of the links do not show. *)
Theorem wrappers_implement_list_model
    (user_function : list value → list (string * value) → outcome value)
    (d : decorated) (ops : list op) :
  d_wf d →
  let r := run user_function d ops in
  let m := lru_run user_function (d_setting d) (d_view d) ops in
  r.1 = m.1 ∧ d_view r.2 = m.2 ∧ d_setting r.2 = d_setting d ∧
  ci_hits (cache_info r.2) = v_hits m.2 ∧
  ci_misses (cache_info r.2) = v_misses m.2 ∧
  ci_currsize (cache_info r.2) = length (v_entries m.2) ∧
  d_full r.2 = v_full m.2.
Proof.
  intros Hwf r m.
  destruct (run_view user_function d ops Hwf) as (H1 & H2 & H3).
  pose proof (d_wf_run user_function d ops Hwf) as Hwf'.
  pose proof (currsize_view _ Hwf') as Hc.
  fold r in H1, H2, H3, Hwf', Hc. fold m in H1, H2.
  split_and!; try done; rewrite <- H2; try done; by destruct (r.2).
Qed.

Lemma wrappers_implement_list_model_witness :
  let d := decorating_function (Config (Some 2) false 0) in
  let r := run echo d [f 1; f 2; f 1; f 3; DoClear; f 2] in
  let m := lru_run echo (d_setting d) (d_view d)
             [f 1; f 2; f 1; f 3; DoClear; f 2] in
  r.1 = m.1 ∧ d_view r.2 = m.2 ∧ d_setting r.2 = d_setting d ∧
  ci_hits (cache_info r.2) = v_hits m.2 ∧
  ci_misses (cache_info r.2) = v_misses m.2 ∧
  ci_currsize (cache_info r.2) = length (v_entries m.2) ∧
  d_full r.2 = v_full m.2.
Proof.
  apply (wrappers_implement_list_model echo
           (decorating_function (Config (Some 2) false 0))
           [f 1; f 2; f 1; f 3; DoClear; f 2]).
  apply d_wf_decorating_function.
Defined.

(** [cache_clear()] takes the decorated function back to where it was
    just after decoration: whatever was done before it, the calls and
    [cache_clear()] that follow return and raise what they do on a newly
    decorated function, and [cache_info()] reports the same. *)
Theorem cache_clear_restarts
    (user_function : list value → list (string * value) → outcome value)
    (cfg : config) (before ops : list op) :
  let d0 := decorating_function cfg in
  let cleared := d_cache_clear (run user_function d0 before).2 in
  (run user_function cleared ops).1 = (run user_function d0 ops).1 ∧
  cache_info (run user_function cleared ops).2 =
    cache_info (run user_function d0 ops).2 ∧
  d_full (run user_function cleared ops).2 =
    d_full (run user_function d0 ops).2.
Proof.
  intros d0 cleared.
  pose proof (d_wf_decorating_function cfg) as Hwf0. fold d0 in Hwf0.
  pose proof (d_wf_run user_function d0 before Hwf0) as Hwf1.
  pose proof (d_wf_step user_function _ DoClear Hwf1) as Hwf2.
  change (step user_function ?d DoClear).2 with (d_cache_clear d) in Hwf2.
  fold cleared in Hwf2.
  destruct (run_view user_function d0 before Hwf0) as (_ & _ & Hs1).
  assert (d_setting cleared = d_setting d0) as Hs.
  { rewrite <- Hs1. subst cleared. by destruct (run user_function d0 before).2. }
  assert (d_view cleared = d_view d0) as Hv.
  { subst cleared d0.
    by rewrite d_view_cache_clear, d_view_decorating_function. }
  destruct (run_view user_function cleared ops Hwf2) as (H1 & H2 & H3).
  destruct (run_view user_function d0 ops Hwf0) as (H1' & H2' & H3').
  rewrite Hs, Hv in H1, H2. rewrite Hs in H3.
  pose proof (d_wf_run user_function cleared ops Hwf2) as HwfA.
  pose proof (d_wf_run user_function d0 ops Hwf0) as HwfB.
  assert (d_view (run user_function cleared ops).2 =
          d_view (run user_function d0 ops).2) as Hview by congruence.
  split_and!.
  - congruence.
  - apply cache_info_view; [done | done | congruence | done].
  - revert Hview.
    destruct (run user_function cleared ops).2, (run user_function d0 ops).2;
      simpl; unfold st_view; by intros [=].
Qed.

(** ** Where results and exceptions come from *)

Section provenance.
Variable user_function : list value → list (string * value) → outcome value.
Implicit Types (st : state addr) (ls : list addr) (d : decorated).

Lemma forallb_false_elem {A} (p : A → bool) l :
  forallb p l = false → ∃ x, x ∈ l ∧ p x = false.
Proof.
  induction l as [|x l IH]; simpl; [done|].
  destruct (p x) eqn:E; simpl.
  - intros (y & ? & ?)%IH. exists y. split; [by apply list_elem_of_further | done].
  - intros _. exists x. split; [apply list_elem_of_here | done].
Qed.

(** [_make_key] raises nothing but the [TypeError] of an unhashable
    argument. *)
Lemma make_key_raises args kwds typed e :
  _make_key args kwds typed = Raise e →
  e = TypeError ∧ ∃ v, v ∈ args ++ map snd kwds ∧ hashable v = false.
Proof.
  rewrite make_key_items.
  destruct (negb typed && bool_decide (kwds = []) && fast_key args); [done|].
  unfold _HashedSeq. rewrite hashable_key_items.
  destruct (forallb hashable (args ++ map snd kwds)) eqn:E; [done|].
  intros [= <-]. split; [done|]. by apply forallb_false_elem.
Qed.

Lemma elem_of_promote es key kr : kr ∈ promote es key → kr ∈ es.
Proof.
  induction es as [|[k r] es IH]; simpl; [done|].
  destruct (py_eq k key).
  - rewrite elem_of_app, list_elem_of_singleton, elem_of_cons. tauto.
  - rewrite !elem_of_cons. tauto.
Qed.

Lemma elem_of_tail {A} (x : A) l : x ∈ tail l → x ∈ l.
Proof. destruct l; simpl; [done|]. apply list_elem_of_further. Qed.

(** The entries after a call: those that were there, and the one made of
    the key and the result of this call. *)
Lemma lru_sized_entries typed verdict v c kr :
  kr ∈ v_entries (lru_sized user_function typed verdict v c).2 →
  kr ∈ v_entries v ∨
  (_make_key (c_args c) (c_kwds c) typed = Return kr.1 ∧
   user_function (c_args c) (c_kwds c) = Return kr.2).
Proof.
  unfold lru_sized.
  destruct (_make_key _ _ _) as [key|e]; [|by left].
  destruct (dict_get (v_entries v) key) as [r|].
  { simpl. intros ?%elem_of_promote. by left. }
  destruct (user_function _ _) as [r|e]; [|by left].
  assert (kr ∈ v_entries v ++ [(key, r)] →
          kr ∈ v_entries v ∨ Return key = Return kr.1 ∧ Return r = Return kr.2)
    as Happ.
  { rewrite elem_of_app, list_elem_of_singleton. intros [?| ->]; auto. }
  destruct (v_full v).
  - simpl. rewrite elem_of_app, list_elem_of_singleton.
    intros [?%elem_of_tail| ->]; auto.
  - simpl. by destruct (verdict _).
Qed.

Lemma lru_call_entries d c kr :
  kr ∈ v_entries (lru_call user_function (d_setting d) (d_view d) c).2 →
  kr ∈ v_entries (d_view d) ∨
  (d_key d c = Some (Return kr.1) ∧
   user_function (c_args c) (c_kwds c) = Return kr.2).
Proof.
  destruct d as [m t st|st|t st|n t st]; simpl d_setting; unfold lru_call.
  - intros [?|[Hk ?]]%lru_sized_entries; [by left|].
    right. simpl. by rewrite Hk.
  - destruct (user_function _ _); simpl; auto.
  - simpl d_key. destruct (_make_key _ _ _) as [key|e]; [|by left].
    destruct (dict_get _ key) as [r|]; [by left|].
    destruct (user_function _ _) as [r|e]; [|by left].
    simpl. rewrite elem_of_app, list_elem_of_singleton.
    intros [?| ->]; auto.
  - intros [?|[Hk ?]]%lru_sized_entries; [by left|].
    right. simpl. by rewrite Hk.
Qed.

Lemma d_key_run d ops c :
  d_key (run user_function d ops).2 c = d_key d c.
Proof.
  revert d. induction ops as [|o ops IH]; intros d; [done|].
  simpl. pose proof (d_key_step user_function d o c) as Hs.
  destruct (step user_function d o) as [r d'].
  specialize (IH d'). destruct (run user_function d' ops). simpl in *.
  congruence.
Qed.

(** Every entry of the cache after a run was there before it or was
    computed by a call of the run. *)
Lemma run_entries d ops kr :
  d_wf d →
  kr ∈ v_entries (d_view (run user_function d ops).2) →
  kr ∈ v_entries (d_view d) ∨
  ∃ c, DoCall c ∈ ops ∧ d_key d c = Some (Return kr.1) ∧
       user_function (c_args c) (c_kwds c) = Return kr.2.
Proof.
  revert d. induction ops as [|o ops IH]; intros d Hwf; [by left|].
  pose proof (d_wf_step user_function d o Hwf) as Hwf'.
  destruct (step_view user_function d o Hwf) as (_ & Hv & _).
  pose proof (d_key_step user_function d o) as Hk.
  simpl. destruct (step user_function d o) as [r d'] eqn:Es.
  specialize (IH d' Hwf').
  destruct (run user_function d' ops) as [rs d'']. simpl in *.
  intros [Hin|(c & Hc & Hkey & Hu)]%IH.
  - rewrite Hv in Hin. destruct o as [c|]; simpl in Hin.
    + apply lru_call_entries in Hin as [?|[? ?]]; [by left|].
      right. exists c. split; [apply list_elem_of_here | done].
    + by apply elem_of_nil in Hin.
  - right. exists c. rewrite Hk in Hkey.
    split; [by apply list_elem_of_further | done].
Qed.

(** A call that returns is a miss that returns what the decorated
    function has just returned, or a hit on an entry under an equal key. *)
Lemma wrapper_returns d c v :
  d_wf d → (wrapper user_function d c).1 = Return v →
  user_function (c_args c) (c_kwds c) = Return v ∨
  ∃ key k', d_key d c = Some (Return key) ∧
    (k', v) ∈ v_entries (d_view d) ∧ py_eq k' key = true.
Proof.
  intros Hwf. destruct (wrapper_view user_function d c Hwf) as (-> & _).
  assert (∀ typed verdict vw,
    (lru_sized user_function typed verdict vw c).1 = Return v →
    user_function (c_args c) (c_kwds c) = Return v ∨
    ∃ key k', _make_key (c_args c) (c_kwds c) typed = Return key ∧
      (k', v) ∈ v_entries vw ∧ py_eq k' key = true) as Hsized.
  { intros typed verdict vw. unfold lru_sized.
    destruct (_make_key _ _ _) as [key|e]; [|done].
    destruct (dict_get (v_entries vw) key) as [r|] eqn:Hg.
    - intros [= ->]. right.
      apply dict_get_Some in Hg as (k' & ? & ?). by exists key, k'.
    - destruct (user_function _ _) as [r|e]; [|done].
      destruct (v_full vw); [intros [= ->]; by left|].
      simpl. destruct (verdict _); [intros [= ->]; by left | done]. }
  destruct d as [m t st|st|t st|n t st]; simpl d_setting; unfold lru_call.
  - intros [?|(key & k' & ? & ? & ?)]%Hsized; [by left|].
    right. exists key, k'. simpl. by split_and!; [f_equal|..].
  - destruct (user_function _ _); [|done]. intros [= ->]. by left.
  - simpl d_key. destruct (_make_key _ _ _) as [key|e]; [|done].
    destruct (dict_get _ key) as [r|] eqn:Hg.
    + intros [= ->]. right.
      apply dict_get_Some in Hg as (k' & ? & ?). by exists key, k'.
    + destruct (user_function _ _) as [r|e]; [|done].
      intros [= ->]. by left.
  - intros [?|(key & k' & ? & ? & ?)]%Hsized; [by left|].
    right. exists key, k'. simpl. by split_and!; [f_equal|..].
Qed.

(** A call that raises: the key could not be built, the decorated
    function raised, or the memory probe did.  In a reachable state
    [del cache[oldkey]] never raises [KeyError]. *)
Lemma wrapper_raises d c e :
  d_wf d → (wrapper user_function d c).1 = Raise e →
  (d_key d c = Some (Raise e) ∧ e = TypeError) ∨
  user_function (c_args c) (c_kwds c) = Raise e ∨
  (policy_of d = MemoryPressure ∧ c_probe c = Raise e).
Proof.
  intros Hwf. destruct (wrapper_view user_function d c Hwf) as (-> & _).
  assert (∀ typed verdict vw,
    (lru_sized user_function typed verdict vw c).1 = Raise e →
    (_make_key (c_args c) (c_kwds c) typed = Raise e ∧ e = TypeError) ∨
    user_function (c_args c) (c_kwds c) = Raise e ∨
    (∃ es, verdict es = Raise e)) as Hsized.
  { intros typed verdict vw. unfold lru_sized.
    pose proof (make_key_raises (c_args c) (c_kwds c) typed) as Hmk.
    destruct (_make_key _ _ _) as [key|e'].
    - destruct (dict_get (v_entries vw) key) as [r|]; [done|].
      destruct (user_function _ _) as [r|e']; [|intros [= ->]; auto].
      destruct (v_full vw); [done|]. simpl.
      destruct (verdict _) eqn:Ev; [done|]. intros [= ->]. eauto.
    - intros [= ->]. left. split; [done|]. by destruct (Hmk e eq_refl). }
  destruct d as [m t st|st|t st|n t st]; simpl d_setting; unfold lru_call.
  - intros [[? ?]|[?|[es Hes]]]%Hsized.
    + left. simpl. by split; [f_equal|].
    + auto.
    + right. right. split; [done|]. revert Hes. simpl.
      destruct (c_probe c); [done|]. by intros [= ->].
  - destruct (user_function _ _); [done|]. intros [= ->]. auto.
  - simpl d_key.
    pose proof (make_key_raises (c_args c) (c_kwds c) t) as Hmk.
    destruct (_make_key _ _ _) as [key|e'].
    + destruct (dict_get _ key) as [r|]; [done|].
      destruct (user_function _ _) as [r|e']; [done|].
      intros [= ->]. auto.
    + intros [= ->]. left. split; [done|]. by destruct (Hmk e eq_refl).
  - intros [[? ?]|[?|[es Hes]]]%Hsized.
    + left. simpl. by split; [f_equal|].
    + auto.
    + done.
Qed.
End provenance.

(** The cache only returns what the decorated function has returned.
    After any sequence of calls and [cache_clear()] on a newly decorated
    function, a value returned by the wrapper for a call [c] is the value
    that the decorated function returned for [c] itself or for an earlier
    call of the sequence that built a key equal to the key of [c]. *)
Theorem returned_values_were_computed
    (user_function : list value → list (string * value) → outcome value)
    (cfg : config) (ops : list op) (c : call) (v : value) :
  let d := (run user_function (decorating_function cfg) ops).2 in
  (wrapper user_function d c).1 = Return v →
  ∃ c', (c' = c ∨ DoCall c' ∈ ops) ∧
    user_function (c_args c') (c_kwds c') = Return v ∧
    shares_entry d c' c.
Proof.
  intros d Hret.
  pose proof (d_wf_decorating_function cfg) as Hwf0.
  pose proof (d_wf_run user_function _ ops Hwf0) as Hwf. fold d in Hwf.
  assert (shares_entry d c c) as Hcc.
  { unfold shares_entry. destruct (d_key d c) as [[k|]|]; try done.
    apply py_eq_refl. }
  destruct (wrapper_returns user_function d c v Hwf Hret)
    as [Hu|(key & k' & Hk & Hin & Heq)].
  { exists c. split_and!; [by left | done | done]. }
  apply (run_entries user_function _ ops _ Hwf0) in Hin
    as [Hin|(c' & Hc' & Hk' & Hu)].
  { rewrite d_view_decorating_function in Hin. by apply elem_of_nil in Hin. }
  exists c'. split_and!; [by right | done |].
  unfold shares_entry. subst d. rewrite !d_key_run in *.
  simpl in Hk'. by rewrite Hk', Hk.
Qed.

Lemma returned_values_were_computed_witness :
  ∃ c', (c' = Call [VFloat 1 0; VInt 2] [] (Return 0) ∨
         DoCall c' ∈ [DoCall (Call [VInt 1; VInt 2] [] (Return 0)); f 5]) ∧
    echo (c_args c') (c_kwds c') = Return (VTuple [VInt 1; VInt 2]) ∧
    shares_entry
      (run echo (decorating_function (Config (Some 2) false 0))
           [DoCall (Call [VInt 1; VInt 2] [] (Return 0)); f 5]).2
      c' (Call [VFloat 1 0; VInt 2] [] (Return 0)).
Proof.
  apply (returned_values_were_computed echo (Config (Some 2) false 0)
           [DoCall (Call [VInt 1; VInt 2] [] (Return 0)); f 5]
           (Call [VFloat 1 0; VInt 2] [] (Return 0))
           (VTuple [VInt 1; VInt 2])).
  reflexivity.
Defined.

(** The wrappers raise nothing of their own.  After any sequence of
    calls and [cache_clear()] on a newly decorated function, an exception
    raised by a call is the [TypeError] of a key that cannot be built, the
    exception raised by the decorated function on these arguments, or,
    under [use_memory_up_to], the exception raised by the memory probe; in
    particular [del cache[oldkey]] never raises [KeyError]. *)
Theorem raised_exceptions_come_from
    (user_function : list value → list (string * value) → outcome value)
    (cfg : config) (ops : list op) (c : call) (e : exn) :
  let d := (run user_function (decorating_function cfg) ops).2 in
  (wrapper user_function d c).1 = Raise e →
  (d_key d c = Some (Raise e) ∧ e = TypeError ∧
   ∃ v, v ∈ arguments c ∧ hashable v = false) ∨
  user_function (c_args c) (c_kwds c) = Raise e ∨
  (use_memory_up_to cfg ≠ 0 ∧ c_probe c = Raise e).
Proof.
  intros d Hr.
  pose proof (d_wf_decorating_function cfg) as Hwf0.
  pose proof (d_wf_run user_function _ ops Hwf0) as Hwf. fold d in Hwf.
  destruct (wrapper_raises user_function d c e Hwf Hr)
    as [[Hk ->]|[?|[Hp ?]]]; [|auto|].
  - left. split_and!; [done..|].
    assert (∃ t, _make_key (c_args c) (c_kwds c) t = Raise TypeError)
      as [t Ht].
    { destruct d; simpl in Hk; try done; injection Hk; eauto. }
    apply make_key_raises in Ht as [_ Ht]. exact Ht.
  - right. right. split; [|done].
    subst d. rewrite policy_of_run, policy_of_decorating_function in Hp.
    case_bool_decide; [done|]. by destruct (maxsize cfg) as [[| |]|].
Qed.

Lemma raised_exceptions_come_from_witness :
  (d_key (run echo (decorating_function (Config (Some 2) false 0)) [f 1]).2
         (Call [VList []] [] (Return 0)) = Some (Raise TypeError) ∧
   TypeError = TypeError ∧
   ∃ v, v ∈ arguments (Call [VList []] [] (Return 0)) ∧ hashable v = false) ∨
  echo [VList []] [] = Raise TypeError ∨
  ((0 : Z) ≠ 0 ∧ Return 0 = Raise TypeError).
Proof.
  apply (raised_exceptions_come_from echo (Config (Some 2) false 0) [f 1]
           (Call [VList []] [] (Return 0)) TypeError).
  reflexivity.
Defined.

(** ** A full cache, and a cache that never gets full *)

Section fullness.
Variable user_function : list value → list (string * value) → outcome value.
Implicit Types (st : state addr) (ls : list addr) (d : decorated).

Lemma length_promote es key : length (promote es key) = length es.
Proof.
  induction es as [|[k r] es IH]; simpl; [done|].
  destruct (py_eq k key); simpl; [|by rewrite IH].
  rewrite length_app. simpl. lia.
Qed.

Lemma d_full_view d : d_full d = v_full (d_view d).
Proof. by destruct d. Qed.

Lemma full_nonempty d :
  d_wf d → policy_of d = FixedCapacity ∨ policy_of d = MemoryPressure →
  d_full d = true → v_entries (d_view d) ≠ [].
Proof.
  intros Hwf Hp Hf.
  assert (∃ st ls, d_view d = st_view st ∧ wf st ls ∧ full st = true)
    as (st & ls & -> & Hwf' & Hf').
  { destruct d as [m t st|st|t st|n t st], Hp as [?|?]; try done;
      destruct Hwf as [ls Hwf]; by exists st, ls. }
  simpl. rewrite (wf_contents _ _ Hwf').
  pose proof (wf_full _ _ Hwf' Hf') as Hne. by destruct ls.
Qed.

(** On a full cache a call changes neither the flag nor the number of
    entries. *)
Lemma lru_sized_full typed verdict v c :
  v_full v = true → v_entries v ≠ [] →
  v_full (lru_sized user_function typed verdict v c).2 = true ∧
  length (v_entries (lru_sized user_function typed verdict v c).2) =
  length (v_entries v).
Proof.
  intros Hf Hne. unfold lru_sized.
  destruct (_make_key _ _ _) as [key|e]; [|done].
  destruct (dict_get (v_entries v) key) as [r|].
  { simpl. by rewrite length_promote. }
  destruct (user_function _ _) as [r|e]; [|done].
  rewrite Hf. simpl. split; [done|].
  rewrite length_app. destruct (v_entries v); [done|]. simpl. lia.
Qed.

Lemma wrapper_full d c :
  d_wf d → policy_of d = FixedCapacity ∨ policy_of d = MemoryPressure →
  d_full d = true →
  d_full (wrapper user_function d c).2 = true ∧
  ci_currsize (cache_info (wrapper user_function d c).2) =
  ci_currsize (cache_info d).
Proof.
  intros Hwf Hp Hf.
  pose proof (full_nonempty d Hwf Hp Hf) as Hne.
  pose proof (d_wf_step user_function d (DoCall c) Hwf) as Hwf'.
  simpl in Hwf'.
  rewrite (currsize_view _ Hwf'), (currsize_view _ Hwf), !d_full_view.
  rewrite d_full_view in Hf.
  destruct (wrapper_view user_function d c Hwf) as (_ & -> & _).
  destruct d as [m t st|st|t st|n t st], Hp as [?|?]; try done;
    by apply lru_sized_full.
Qed.

(** With enough memory at every probe the cache is never full and every
    miss has added an entry. *)
Lemma lru_run_enough_memory m t ops v :
  enough_memory m ops →
  v_full v = false → length (v_entries v) = v_misses v →
  v_full (lru_run user_function (SMemory m t) v ops).2 = false ∧
  length (v_entries (lru_run user_function (SMemory m t) v ops).2) =
  v_misses (lru_run user_function (SMemory m t) v ops).2.
Proof.
  intros Hops. revert v.
  induction Hops as [|o ops Ho _ IH]; intros v Hf Hl; [done|].
  assert (v_full (lru_step user_function (SMemory m t) v o).2 = false ∧
          length (v_entries (lru_step user_function (SMemory m t) v o).2) =
          v_misses (lru_step user_function (SMemory m t) v o).2) as [Hf' Hl'].
  { destruct o as [c|]; [|done]. destruct Ho as (available & Hp & Hge).
    simpl. unfold lru_sized.
    destruct (_make_key _ _ _) as [key|e]; [|done].
    destruct (dict_get (v_entries v) key) as [r|].
    { simpl. by rewrite length_promote. }
    destruct (user_function _ _) as [r|e]; [|done].
    rewrite Hf, Hp. simpl. rewrite length_app. simpl.
    split; [apply Z.ltb_ge; lia | lia]. }
  simpl. destruct (lru_step user_function (SMemory m t) v o) as [r v'].
  specialize (IH v' Hf' Hl').
  by destruct (lru_run user_function (SMemory m t) v' ops).
Qed.
End fullness.

(** Once a size-limited cache is full it stays full: under [maxsize]
    (other than [0] and [None]) or [use_memory_up_to], in a state where
    [full] is set, no sequence of calls changes the flag or the number of
    entries, whatever the memory probe reports; only [cache_clear()]
    does. *)
Theorem full_cache_stays_full
    (user_function : list value → list (string * value) → outcome value)
    (d : decorated) (cs : list call) :
  d_wf d →
  policy_of d = FixedCapacity ∨ policy_of d = MemoryPressure →
  d_full d = true →
  let d' := (run user_function d (map DoCall cs)).2 in
  d_full d' = true ∧
  ci_currsize (cache_info d') = ci_currsize (cache_info d).
Proof.
  revert d. induction cs as [|c cs IH]; intros d Hwf Hp Hf; [done|].
  destruct (wrapper_full user_function d c Hwf Hp Hf) as [Hf1 Hs1].
  pose proof (d_wf_step user_function d (DoCall c) Hwf) as Hwf1.
  pose proof (policy_of_step user_function d (DoCall c)) as Hp1.
  simpl in Hwf1, Hp1.
  destruct (wrapper user_function d c) as [r d1] eqn:Ew.
  simpl map. rewrite (run_call _ _ c (map DoCall cs) r d1 Ew).
  simpl in *. rewrite <- Hp1 in Hp.
  destruct (IH d1 Hwf1 Hp Hf1) as [Hf' Hs']. split; [done | congruence].
Qed.

Lemma full_cache_stays_full_witness :
  let d := (run echo (decorating_function (Config (Some 1) false 7))
                [DoCall (Call [VInt 1] [] (Return 3))]).2 in
  let d' := (run echo d
               (map DoCall [Call [VInt 2] [] (Return 100);
                            Call [VInt 3] [] (Return 100);
                            Call [VInt 2] [] (Return 100)])).2 in
  d_full d' = true ∧
  ci_currsize (cache_info d') = ci_currsize (cache_info d).
Proof.
  apply (full_cache_stays_full echo
           (run echo (decorating_function (Config (Some 1) false 7))
                [DoCall (Call [VInt 1] [] (Return 3))]).2
           [Call [VInt 2] [] (Return 100); Call [VInt 3] [] (Return 100);
            Call [VInt 2] [] (Return 100)]).
  - apply d_wf_run, d_wf_decorating_function.
  - by right.
  - reflexivity.
Defined.

(** With [use_memory_up_to] set, as long as the memory probe reports at
    least that many bytes after every insertion, nothing is ever evicted:
    after any sequence of calls and [cache_clear()], [full] is not set and
    the number of entries is the number of misses, with [maxsize] reported
    as [None]. *)
Theorem enough_memory_never_evicts
    (user_function : list value → list (string * value) → outcome value)
    (cfg : config) (ops : list op) :
  use_memory_up_to cfg ≠ 0 →
  enough_memory (use_memory_up_to cfg) ops →
  let d := (run user_function (decorating_function cfg) ops).2 in
  d_full d = false ∧
  ci_currsize (cache_info d) = ci_misses (cache_info d) ∧
  ci_maxsize (cache_info d) = None.
Proof.
  intros Hm Hops d.
  pose proof (d_wf_decorating_function cfg) as Hwf0.
  pose proof (d_wf_run user_function _ ops Hwf0) as Hwf. fold d in Hwf.
  destruct (run_view user_function _ ops Hwf0) as (_ & Hv & Hs).
  fold d in Hv, Hs.
  rewrite d_view_decorating_function in Hv.
  assert (d_setting (decorating_function cfg) =
          SMemory (use_memory_up_to cfg) (typed cfg)) as Hs0.
  { unfold decorating_function. by rewrite bool_decide_eq_true_2. }
  rewrite Hs0 in Hv, Hs.
  destruct (lru_run_enough_memory user_function (use_memory_up_to cfg)
              (typed cfg) ops (View [] 0 0 false) Hops eq_refl eq_refl)
    as [Hf Hl].
  rewrite <- Hv in Hf, Hl.
  rewrite d_full_view, (currsize_view _ Hwf).
  split_and!; [done | |]; destruct d; try done.
Qed.

Lemma enough_memory_never_evicts_witness :
  let d := (run echo (decorating_function (Config (Some 1) false 7))
                [DoCall (Call [VInt 1] [] (Return 7));
                 DoCall (Call [VInt 2] [] (Return 100));
                 DoCall (Call [VInt 1] [] (Return 8))]).2 in
  d_full d = false ∧
  ci_currsize (cache_info d) = ci_misses (cache_info d) ∧
  ci_maxsize (cache_info d) = None.
Proof.
  apply (enough_memory_never_evicts echo (Config (Some 1) false 7)
           [DoCall (Call [VInt 1] [] (Return 7));
            DoCall (Call [VInt 2] [] (Return 100));
            DoCall (Call [VInt 1] [] (Return 8))]).
  - done.
  - repeat constructor; simpl; eexists; (split; [reflexivity | lia]).
Defined.

(** ** A working set that fits in the cache *)

Section working_sets.
Variable user_function : list value → list (string * value) → outcome value.
Implicit Types (ks keys : list value) (es : list (value * value)).




End working_sets.



(** ** Calls repeated with the same arguments *)

Section repeated_calls.
Variable user_function : list value → list (string * value) → outcome value.





End repeated_calls.



(** ** Hits promote, evictions take the least recently used key *)

Section bounded_runs.
Variable user_function : list value → list (string * value) → outcome value.

(** After any run under a size-limited configuration the store is well
    formed and its list stands in the order of the lookups. *)
Lemma bounded_run cfg ops :
  policy_of (decorating_function cfg) = FixedCapacity ∨
  policy_of (decorating_function cfg) = MemoryPressure →
  ∃ st ls,
    ((run user_function (decorating_function cfg) ops).2 =
       Memory (use_memory_up_to cfg) (typed cfg) st ∨
     ∃ n, (run user_function (decorating_function cfg) ops).2 =
            Fixed n (typed cfg) st) ∧
    wf st ls ∧
    recency_ordered (history (typed cfg) ops) (ring_keys st).
Proof.
  intros Hp. unfold history. rewrite <- (app_nil_r (rev _)).
  destruct Hp as [Hp|Hp].
  - destruct (policy_fixed _ Hp) as [n ->].
    destruct (recency_run_fixed user_function n (typed cfg) ops fresh_state
                [] [] wf_fresh_state) as (st & ls & Hrun & Hwf & Hord).
    { rewrite ring_keys_fresh_state. apply recency_ordered_nil. }
    exists st, ls. split_and!; [right; by exists n | done | done].
  - rewrite (policy_memory _ Hp).
    destruct (recency_run_memory user_function (use_memory_up_to cfg)
                (typed cfg) ops fresh_state [] [] wf_fresh_state)
      as (st & ls & Hrun & Hwf & Hord).
    { rewrite ring_keys_fresh_state. apply recency_ordered_nil. }
    exists st, ls. split_and!; [by left | done | done].
Qed.

(** The keys of the list of a well-formed store are keys of the
    dictionary. *)
Lemma d_wf_present d k :
  d_wf d → policy_of d = FixedCapacity ∨ policy_of d = MemoryPressure →
  k ∈ d_ring_keys d → d_contains d k = true.
Proof.
  destruct d as [m t st|st|t st|n t st]; simpl;
    intros Hwf [?|?] Hk; try done; destruct Hwf as [ls Hwf];
    by apply (wf_present _ _ _ Hwf).
Qed.
End bounded_runs.

(** C4.  Under a size-limited configuration ([maxsize] a positive or
    negative integer, or [use_memory_up_to] set), at any point of a
    single-threaded use (after any sequence of calls and [cache_clear()]),
    take a call for which a key is built.
    - If the key is in the cache, the call is a hit: it returns, moves the
      entry that was found to the most recent end of the list, leaves the
      order of the other keys and evicts nothing.
    - If the key is not in the cache and the decorated function returns,
      the new key is put at the most recent end.  When the cache is full
      the call returns and removes the first key of the list, and only that
      one; the size stays the same.  When the cache is not full the call
      returns if the memory probe answers, and nothing is removed.  In
      both cases, a key of the list that is no longer in the cache after
      the call was the first of the list, and its most recent lookup is
      older than that of every key that is still in the cache: no key is
      evicted while a key that was looked up less recently stays.
    In particular, with [maxsize=2] the calls [f(1)], [f(2)], [f(1)],
    [f(3)], [f(2)] are a miss, a miss, a hit that leaves the order
    [[2, 1]], a miss that evicts 2 and leaves [[1, 3]] with size 2, and a
    miss. *)
Theorem eviction_takes_least_recent
    (user_function : list value → list (string * value) → outcome value)
    (cfg : config) (ops : list op) (c : call) (key : value) :
  policy_of (decorating_function cfg) = FixedCapacity ∨
  policy_of (decorating_function cfg) = MemoryPressure →
  _make_key (c_args c) (c_kwds c) (typed cfg) = Return key →
  let d := (run user_function (decorating_function cfg) ops).2 in
  let hist := history (typed cfg) ops in
  let d' := (wrapper user_function d c).2 in
  (d_contains d key = true →
   ∃ ks1 k ks2 r,
     (wrapper user_function d c).1 = Return r ∧
     d_ring_keys d = ks1 ++ k :: ks2 ∧ py_eq k key = true ∧
     d_ring_keys d' = ks1 ++ ks2 ++ [k] ∧
     ci_hits (cache_info d') = S (ci_hits (cache_info d)) ∧
     ci_misses (cache_info d') = ci_misses (cache_info d) ∧
     ci_currsize (cache_info d') = ci_currsize (cache_info d)) ∧
  (d_contains d key = false →
   ∀ r, user_function (c_args c) (c_kwds c) = Return r →
     (if d_full d then
        ∃ e rest,
          (wrapper user_function d c).1 = Return r ∧
          d_ring_keys d = e :: rest ∧
          d_ring_keys d' = rest ++ [key] ∧
          d_contains d' e = false ∧
          Forall (λ k, d_contains d' k = true) (rest ++ [key]) ∧
          ci_currsize (cache_info d') = ci_currsize (cache_info d) ∧
          Forall (older hist e) rest
      else
        (∀ available, c_probe c = Return available →
           (wrapper user_function d c).1 = Return r) ∧
        d_ring_keys d' = d_ring_keys d ++ [key] ∧
        Forall (λ k, d_contains d' k = true) (d_ring_keys d ++ [key])) ∧
     (∀ e, e ∈ d_ring_keys d → d_contains d' e = false →
        head (d_ring_keys d) = Some e ∧
        ∀ k, k ∈ d_ring_keys d → d_contains d' k = true → older hist e k)) ∧
  (let after k :=
     (run echo (decorating_function (Config (Some 2) false 0))
          (take k [f 1; f 2; f 1; f 3; f 2])).2 in
   cache_info (after 1%nat) = _CacheInfo 0 1 (Some 2) 1 ∧
   cache_info (after 2%nat) = _CacheInfo 0 2 (Some 2) 2 ∧
   cache_info (after 3%nat) = _CacheInfo 1 2 (Some 2) 2 ∧
   d_ring_keys (after 3%nat) = [VInt 2; VInt 1] ∧
   cache_info (after 4%nat) = _CacheInfo 1 3 (Some 2) 2 ∧
   d_ring_keys (after 4%nat) = [VInt 1; VInt 3] ∧
   d_contains (after 4%nat) (VInt 2) = false ∧
   cache_info (after 5%nat) = _CacheInfo 1 4 (Some 2) 2 ∧
   d_ring_keys (after 5%nat) = [VInt 3; VInt 2]).
Proof.
  intros Hp Hk d hist d'.
  destruct (bounded_run user_function cfg ops Hp)
    as (st & ls & Hd & Hwf & Hord).
  fold d in Hd. fold hist in Hord.
  assert (d_wf d') as Hwf'.
  { apply d_wf_wrapper, d_wf_run, d_wf_decorating_function. }
  assert (policy_of d' = FixedCapacity ∨ policy_of d' = MemoryPressure)
    as Hp'.
  { unfold d', d.
    pose proof (policy_of_step user_function
                  (run user_function (decorating_function cfg) ops).2
                  (DoCall c)) as Hs.
    simpl in Hs. rewrite Hs, policy_of_run. exact Hp. }
  assert (∀ k, k ∈ d_ring_keys d' → d_contains d' k = true) as Hpresent.
  { intros k. by apply d_wf_present. }
  clearbody d hist. clear Hp. split_and!.
  - intros Hc.
    assert (∃ a, dict_get (cache st) key = Some a) as [a Hg].
    { destruct Hd as [->|[n ->]]; simpl in Hc; unfold dict_contains in Hc;
        destruct (dict_get (cache st) key); by eauto. }
    destruct (hit_promotes _ _ _ _ Hwf Hg) as (ks1 & k & ks2 & Hks & Hkk & Hks').
    exists ks1, k, ks2, (RESULT (heap st !!! a)).
    subst d'. destruct Hd as [->|[n ->]]; simpl.
    + rewrite (wrapper_memory_hit _ _ _ _ _ _ _ Hk Hg).
      split_and!; done.
    + rewrite (wrapper_fixed_hit _ _ _ _ _ _ _ Hk Hg).
      split_and!; done.
  - intros Hc r Hu.
    assert (dict_get (cache st) key = None) as Hg.
    { apply dict_contains_get. by destruct Hd as [->|[n ->]]. }
    assert (d_full d = full st) as Hdf by (by destruct Hd as [->|[n ->]]).
    assert (d_ring_keys d = ring_keys st) as Hdk
      by (by destruct Hd as [->|[n ->]]).
    assert (ci_currsize (cache_info d) = length (cache st)) as Hds
      by (by destruct Hd as [->|[n ->]]).
    rewrite Hdf, Hdk. clear Hc.
    destruct (full st) eqn:Hf.
    + destruct (evict_oldest _ _ _ r _ Hwf Hord Hf Hg)
        as (e & rest & st' & Hks & Hev & Hks' & He & Hlen & Hold).
      assert ((wrapper user_function d c).1 = Return r ∧
              d_ring_keys d' = rest ++ [key] ∧
              d_contains d' e = false ∧
              ci_currsize (cache_info d') = ci_currsize (cache_info d))
        as (Hw & Hkeys' & Hgone & Hsize).
      { rewrite Hds. subst d'. destruct Hd as [->|[n ->]]; simpl.
        - rewrite (wrapper_memory_miss _ _ _ _ _ _ _ Hk Hg Hu).
          unfold store_memory.
          rewrite (proj2 (dict_contains_get _ _) Hg), Hf, Hev.
          split_and!; done.
        - rewrite (wrapper_fixed_miss _ _ _ _ _ _ _ Hk Hg Hu).
          unfold store_fixed.
          rewrite (proj2 (dict_contains_get _ _) Hg), Hf, Hev.
          split_and!; done. }
      split.
      * exists e, rest. split_and!; try done.
        apply Forall_forall. intros k Hin. apply Hpresent. by rewrite Hkeys'.
      * intros e' He' Hgone'. rewrite Hks in *.
        assert (e' = e) as ->.
        { apply elem_of_cons in He' as [->|He']; [done|].
          rewrite Hpresent in Hgone'; [done|].
          rewrite Hkeys'. apply elem_of_app. by left. }
        split; [done|]. intros k Hin Hstay.
        apply elem_of_cons in Hin as [->|Hin]; [by rewrite Hgone in Hstay|].
        rewrite Forall_forall in Hold. by apply Hold.
    + pose proof (ring_keys_insert _ _ key r Hwf Hg) as Hks'.
      assert ((∀ available, c_probe c = Return available →
                 (wrapper user_function d c).1 = Return r) ∧
              d_ring_keys d' = ring_keys st ++ [key]) as [Hret Hkeys'].
      { subst d'. destruct Hd as [->|[n ->]]; simpl.
        - rewrite (wrapper_memory_miss _ _ _ _ _ _ _ Hk Hg Hu).
          unfold store_memory.
          rewrite (proj2 (dict_contains_get _ _) Hg), Hf.
          split; [by intros available ->|]. by destruct (c_probe c).
        - rewrite (wrapper_fixed_miss _ _ _ _ _ _ _ Hk Hg Hu).
          unfold store_fixed.
          by rewrite (proj2 (dict_contains_get _ _) Hg), Hf. }
      split.
      * split_and!; [done | done |].
        apply Forall_forall. intros k Hin. apply Hpresent. by rewrite Hkeys'.
      * intros e He Hgone. rewrite Hpresent in Hgone; [done|].
        rewrite Hkeys'. apply elem_of_app. by left.
  - by vm_compute.
Qed.

Lemma eviction_takes_least_recent_witness :
  ∃ d',
    wrapper echo
      (run echo (decorating_function (Config (Some 2) false 0))
           [f 1; f 2; f 1]).2
      (Call [VInt 3] [] (Return 0)) = (Return (VTuple [VInt 3]), d') ∧
    d_ring_keys d' = [VInt 1; VInt 3] ∧
    d_contains d' (VInt 2) = false ∧
    older (history false [f 1; f 2; f 1]) (VInt 2) (VInt 1).
Proof.
  destruct (eviction_takes_least_recent echo (Config (Some 2) false 0)
              [f 1; f 2; f 1] (Call [VInt 3] [] (Return 0)) (VInt 3))
    as (_ & Hmiss & _); [by left | reflexivity |].
  destruct (Hmiss eq_refl (VTuple [VInt 3]) eq_refl) as [Hfull Hevicted].
  change (d_full _) with true in Hfull.
  destruct Hfull as (e & rest & Hw & Hks & Hks' & He & _ & _ & Hold).
  change (d_ring_keys _) with [VInt 2; VInt 1] in Hks at 1.
  injection Hks as <- <-.
  eexists. split_and!.
  - rewrite <- Hw. apply surjective_pairing.
  - exact Hks'.
  - exact He.
  - by apply Forall_cons in Hold as [? _].
Defined.
